(** * simplessh: the non-blocking orchestration layer of [cbits/simplessh.c]

    A shallow embedding of the C functions of [simplessh.c] and the
    properties of its retry loops, buffers and error returns.

    The SSH engine (libssh2) and the operating system are external: every
    value they hand back to the program is read from a _script_, the list of
    their answers in call order.  A function of the program maps a script to
    the _trace_ of the calls it made and to its outcome.  A script that ends
    while a loop is still retrying leaves the function [Blocked]: the trace
    then shows everything done up to that point, so a property of all traces
    is a property of every point of every execution. *)

From Stdlib Require Import ZArith List Bool Lia String.
Import ListNotations.
Open Scope Z_scope.

(** ** Machine integers *)

(** [int] is 32 bits wide, two's complement; [size_t] is 64 bits, unsigned. *)
Definition wrap_int (z : Z) : Z := (z + 2 ^ 31) mod 2 ^ 32 - 2 ^ 31.
Definition wrap_size (z : Z) : Z := z mod 2 ^ 64.

Definition INT_MAX : Z := 2 ^ 31 - 1.
Definition INT_MIN : Z := - 2 ^ 31.

Definition int_range (z : Z) : Prop := INT_MIN <= z <= INT_MAX.

(** [inline int min(int a, int b)] *)
Definition min (a b : Z) : Z := if a <? b then a else b.

(** ** Constants of libssh2.h and of the system headers (Linux values) *)

Definition LIBSSH2_ERROR_EAGAIN : Z := -37.
Definition LIBSSH2_SESSION_BLOCK_INBOUND : Z := 1.
Definition LIBSSH2_SESSION_BLOCK_OUTBOUND : Z := 2.
Definition EINTR : Z := 4.
Definition O_NONBLOCK : Z := 2048.
Definition POLLIN : Z := 1.
Definition POLLPRI : Z := 2.

(** ** Data model *)

(** The error kinds of simplessh.h that [simplessh.c] returns. *)
Inductive simplessh_error : Type :=
| CONNECT | INIT | HANDSHAKE | AUTHENTICATION
| CHANNEL_OPEN | CHANNEL_EXEC | READ | WRITE.

(** Modelled from the spec: the declaration of [struct simplessh_either]
    (simplessh.h is not among the sources).  The spec calls it a tagged union
    holding exactly one of a success value or an error kind; the code writes
    its tag [side] and one member of [u], [u.error] or [u.value].  The value
    side holds what [u.value] points to. *)
Inductive simplessh_either (A : Type) : Type :=
| LEFT (error : simplessh_error)
| RIGHT (value : A).
Arguments LEFT {A} error.
Arguments RIGHT {A} value.

(** [struct simplessh_session]: the socket and the engine handle (an address,
    0 for NULL). *)
Record simplessh_session : Type :=
  { sock : Z; lsession : Z }.

(** The heap blocks the program allocates with malloc.  Allocation is taken
    to succeed, so a pointer to a block is never NULL; [None] is NULL. *)
Inductive block : Type :=
| SessionBlock | EitherBlock | ResultBlock | OutBuffer | ErrBuffer | TransferredCell.

Definition ptr : Type := option block.

Definition block_eqb (a b : block) : bool :=
  match a, b with
  | SessionBlock, SessionBlock | EitherBlock, EitherBlock
  | ResultBlock, ResultBlock | OutBuffer, OutBuffer
  | ErrBuffer, ErrBuffer | TransferredCell, TransferredCell => true
  | _, _ => false
  end.

(** [struct simplessh_result]; [exit_signal] is the address of the signal
    name, 0 for NULL. *)
Record simplessh_result : Type :=
  { out : ptr; err : ptr; exit_code : Z; exit_signal : Z }.

(** One candidate of getaddrinfo's list; [ai_addr] identifies the address. *)
Record addrinfo : Type :=
  { ai_family : Z; ai_socktype : Z; ai_protocol : Z; ai_addr : Z }.

(** What getaddrinfo hands back: its return code and the list [res]. *)
Record resolution : Type :=
  { gai_rc : Z; gai_res : list addrinfo }.

(** ** Traces *)

(** The calls of the program to the engine, the system and the allocator,
    with the arguments that matter and, last, the value returned. *)
Inductive event : Type :=
(* allocator and caller-visible memory *)
| EvMalloc (b : block) (bytes : option Z)
| EvRealloc (b : block) (bytes : Z)
| EvFree (b : block)
| EvStoreByte (b : block) (index : Z) (v : Z)
| EvStoreInt (b : block) (v : Z)
(* system *)
| EvGetaddrinfo (hostname : string) (port : Z) (rc : Z)
| EvFreeaddrinfo
| EvSocket (family type protocol : Z) (fd : Z)
| EvFcntlSetfl (fd flags : Z)
| EvFcntlGetfl (fd : Z) (flags : Z)
| EvErrno (e : Z)
| EvConnect (fd addr : Z)
| EvPoll (fd events timeout_ms : Z) (rc : Z)
| EvRevents (revents : Z)
| EvCloseFd (fd : Z)
| EvSelect (nfds : Z) (readfd writefd : bool) (seconds : Z) (rc : Z)
(* engine *)
| EvLibInit
| EvLibExit
| EvSessionInit (handle : Z)
| EvSetBlocking (session blocking : Z)
| EvSetTimeout (session ms : Z)
| EvHandshake (session fd : Z) (rc : Z)
| EvUserauthPassword (session : Z) (rc : Z)
| EvUserauthPublickeyFromfile (session : Z) (rc : Z)
| EvUserauthPublickeyFrommemory (session : Z) (rc : Z)
| EvBlockDirections (session : Z) (dir : Z)
| EvLastErrno (session : Z) (e : Z)
| EvChannelOpenSession (session : Z) (channel : Z)
| EvChannelExec (channel : Z) (command : string) (rc : Z)
| EvRead (channel : Z) (position buflen : Z) (rc : Z)
| EvReadStderr (channel : Z) (position buflen : Z) (rc : Z)
| EvChannelClose (channel : Z) (rc : Z)
| EvGetExitStatus (channel : Z) (status : Z)
| EvGetExitSignal (channel : Z) (signal : Z)
| EvChannelFree (channel : Z) (rc : option Z)
| EvScpSend (session : Z) (path : string) (mode size : Z) (channel : Z)
| EvWrite (channel : Z) (offset buflen : Z) (rc : Z)
| EvSendEof (channel : Z) (rc : Z)
| EvSessionDisconnect (session : Z)
| EvSessionFree (session : Z).

Definition trace : Type := list event.
Definition script : Type := list Z.

(** How a function ends on a script: it returns a value and leaves the rest of
    the script, or the script ended while it waited for an answer, or it
    loops for ever without calling anything. *)
Inductive outcome (A : Type) : Type :=
| Returned (a : A) (rest : script)
| Blocked
| Diverged.
Arguments Returned {A} a rest.
Arguments Blocked {A}.
Arguments Diverged {A}.

Definition run (A : Type) : Type := (trace * outcome A)%type.
Definition prog (A : Type) : Type := script -> run A.

Definition prefix {A} (tr : trace) (r : run A) : run A := (tr ++ fst r, snd r).

Definition ret {A} (a : A) : prog A := fun s => ([], Returned a s).

Definition bind {A B} (c : prog A) (k : A -> prog B) : prog B :=
  fun s =>
    match c s with
    | (tr, Returned a s') => prefix tr (k a s')
    | (tr, Blocked) => (tr, Blocked)
    | (tr, Diverged) => (tr, Diverged)
    end.

(** A call whose result the program does not use. *)
Definition emit (e : event) : prog unit := fun s => ([e], Returned tt s).

(** A call whose result is the next answer of the script. *)
Definition call (mk : Z -> event) : prog Z :=
  fun s =>
    match s with
    | [] => ([], Blocked)
    | a :: s' => ([mk a], Returned a s')
    end.

Declare Scope prog_scope.
Delimit Scope prog_scope with prog.
Notation "x <- c ;; k" := (bind c (fun x => k))
  (at level 61, c at next level, right associativity) : prog_scope.
Notation "c ;; k" := (bind c (fun _ => k))
  (at level 61, right associativity) : prog_scope.
Open Scope prog_scope.

Definition malloc (b : block) (bytes : option Z) : prog ptr :=
  emit (EvMalloc b bytes) ;; ret (Some b).

(** [if(p != NULL) free(p);] *)
Definition free_if_set (p : ptr) : prog unit :=
  match p with
  | Some b => emit (EvFree b)
  | None => ret tt
  end.

Definition is_null (p : ptr) : bool :=
  match p with
  | Some _ => false
  | None => true
  end.

(** ** waitsocket *)

(** [static int waitsocket(int socket_fd, LIBSSH2_SESSION *session)].  [dir]
    is the answer of [libssh2_session_block_directions] and [rc] the answer
    of [select]; the timeout is 10 seconds. *)
Definition waitsocket (socket_fd session : Z) (dir rc : Z) : trace * Z :=
  let readfd := negb (Z.land dir LIBSSH2_SESSION_BLOCK_INBOUND =? 0) in
  let writefd := negb (Z.land dir LIBSSH2_SESSION_BLOCK_OUTBOUND =? 0) in
  ([EvBlockDirections session dir;
    EvSelect (wrap_int (socket_fd + 1)) readfd writefd 10 rc], rc).

(** [waitsocket(...)] as a statement of a loop body followed by [k]: it reads
    its two answers from the script. *)
Definition wait_then {A} (socket_fd session : Z) (s : script)
    (k : script -> run A) : run A :=
  match s with
  | [] => ([], Blocked)
  | [dir] => ([EvBlockDirections session dir], Blocked)
  | dir :: rc :: s' => prefix (fst (waitsocket socket_fd session dir rc)) (k s')
  end.

(** ** get_socket *)

(** [do { sock = socket(res->...); fcntl(sock, F_SETFL, O_NONBLOCK); }
    while(sock == -1 && errno == EINTR);]  [errno] is read, as an answer,
    only when [sock == -1]. *)
Fixpoint socket_loop (res : addrinfo) (s : script) : run Z :=
  match s with
  | [] => ([], Blocked)
  | sock :: s1 =>
      prefix [EvSocket (ai_family res) (ai_socktype res) (ai_protocol res) sock;
              EvFcntlSetfl sock O_NONBLOCK]
        (if sock =? -1 then
           match s1 with
           | [] => ([], Blocked)
           | errno :: s2 =>
               prefix [EvErrno errno]
                 (if errno =? EINTR then socket_loop res s2
                  else ([], Returned sock s2))
           end
         else ([], Returned sock s1))
  end.

(** The [for(current = res; current != NULL; current = current->ai_next)]
    loop and the two statements after it.  [res] is the head of the list, as
    the body names it. *)
Fixpoint connect_loop (res : addrinfo) (current : list addrinfo) (timeout : Z)
    : prog Z :=
  match current with
  | [] => emit EvFreeaddrinfo ;; ret (-1)
  | _ :: ai_next =>
      sock <- socket_loop res ;;
      if sock =? -1 then connect_loop res ai_next timeout
      else
        emit (EvConnect sock (ai_addr res)) ;;
        rc <- call (EvPoll sock POLLIN (wrap_int (timeout * 1000))) ;;
        if (rc =? 0) || (rc =? -1) then
          emit (EvCloseFd sock) ;; connect_loop res ai_next timeout
        else
          revents <- call EvRevents ;;
          if negb (Z.land revents (Z.lor POLLIN POLLPRI) =? 0) then
            emit EvFreeaddrinfo ;;
            flags <- call (EvFcntlGetfl sock) ;;
            emit (EvFcntlSetfl sock (Z.land flags (Z.lnot O_NONBLOCK))) ;;
            ret sock
          else
            emit (EvCloseFd sock) ;; connect_loop res ai_next timeout
  end.

(** ** Retry loops *)

(** [while((rc = f(...)) == LIBSSH2_ERROR_EAGAIN);] for an engine call [f]
    recorded by [mk]: the body of the loop is empty. *)
Fixpoint spin_while_eagain (mk : Z -> event) (s : script) : run Z :=
  match s with
  | [] => ([], Blocked)
  | rc :: s' =>
      prefix [mk rc]
        (if rc =? LIBSSH2_ERROR_EAGAIN then spin_while_eagain mk s'
         else ([], Returned rc s'))
  end.

(** A loop either leaves the function with the value it returns, or ends and
    hands a value to the statements after it. *)
Inductive flow (R A : Type) : Type :=
| Return (r : R)
| Continue (a : A).
Arguments Return {R A} r.
Arguments Continue {R A} a.

Definition returning {R A} (c : prog R) : prog (flow R A) :=
  r <- c ;; ret (Return r).

(** ** Session lifecycle *)

(** [void simplessh_close_session(struct simplessh_session *session)] *)
Definition simplessh_close_session (session : simplessh_session) : prog unit :=
  emit (EvSessionDisconnect (lsession session)) ;;
  emit (EvSessionFree (lsession session)) ;;
  emit (EvCloseFd (sock session)) ;;
  emit (EvFree SessionBlock) ;;
  emit EvLibExit.

(** [#define returnLocalErrorSP(err)] with [returnError] expanded. *)
Definition returnLocalErrorSP (session : simplessh_session)
    (err : simplessh_error) : prog (simplessh_either simplessh_session) :=
  simplessh_close_session session ;;
  ret (LEFT err).

Section Resolver.

(** The resolver of the system: what getaddrinfo answers for a host and a
    numeric service. *)
Variable getaddrinfo : string -> Z -> resolution.

(** [inline int get_socket(const char *hostname, uint16_t port, int timeout)] *)
Definition get_socket (hostname : string) (port : Z) (timeout : Z) : prog Z :=
  let r := getaddrinfo hostname port in
  emit (EvGetaddrinfo hostname port (gai_rc r)) ;;
  if negb (gai_rc r =? 0) then
    (match gai_res r with
     | [] => ret tt
     | _ :: _ => emit EvFreeaddrinfo
     end) ;;
    ret (-1)
  else
    match gai_res r with
    | [] => emit EvFreeaddrinfo ;; ret (-1)
    | res :: _ => connect_loop res (gai_res r) timeout
    end.

(** [struct simplessh_either *simplessh_open_session(hostname, port, timeout)].
    [session] is the pointer malloc returned; the fields of the struct it
    points to are the local values [sock] and [lsession]. *)
Definition simplessh_open_session (hostname : string) (port : Z) (timeout : Z)
    : prog (simplessh_either simplessh_session) :=
  emit EvLibInit ;;
  session <- malloc SessionBlock None ;;
  _ <- malloc EitherBlock None ;;
  sock <- get_socket hostname port timeout ;;
  if sock =? -1 then ret (LEFT CONNECT)
  else
    lsession <- call EvSessionInit ;;
    let fields := {| sock := sock; lsession := lsession |} in
    if is_null session then returnLocalErrorSP fields INIT
    else
      emit (EvSetBlocking lsession 0) ;;
      emit (EvSetTimeout lsession (wrap_int (timeout * 1000))) ;;
      rc <- spin_while_eagain (EvHandshake lsession sock) ;;
      if negb (rc =? 0) then returnLocalErrorSP fields HANDSHAKE
      else ret (RIGHT fields).

End Resolver.

(** ** Authentication *)

(** The three functions differ in the engine call only; each allocates its
    either, spins on the call and classifies the result. *)
Definition authenticate (mk : Z -> event) (session : simplessh_session)
    : prog (simplessh_either simplessh_session) :=
  _ <- malloc EitherBlock None ;;
  rc <- spin_while_eagain mk ;;
  if negb (rc =? 0) then ret (LEFT AUTHENTICATION)
  else ret (RIGHT session).

Definition simplessh_authenticate_password (session : simplessh_session)
    (username password : string) : prog (simplessh_either simplessh_session) :=
  authenticate (EvUserauthPassword (lsession session)) session.

Definition simplessh_authenticate_key (session : simplessh_session)
    (username public_key_path private_key_path passphrase : string)
    : prog (simplessh_either simplessh_session) :=
  authenticate (EvUserauthPublickeyFromfile (lsession session)) session.

Definition simplessh_authenticate_memory (session : simplessh_session)
    (username public_key : string) (public_key_len : Z) (private_key : string)
    (private_key_len : Z) (passphrase : string)
    : prog (simplessh_either simplessh_session) :=
  authenticate (EvUserauthPublickeyFrommemory (lsession session)) session.

(** ** Command execution *)

(** [#define returnLocalErrorC(error)] with [returnError] expanded; [out] and
    [err] are the local pointers at the point of use. *)
Definition returnLocalErrorC (out err : ptr) (error : simplessh_error)
    : prog (simplessh_either simplessh_result) :=
  free_if_set out ;;
  free_if_set err ;;
  emit (EvFree ResultBlock) ;;
  ret (LEFT error).

(** [while((channel = libssh2_channel_open_session(...)) == NULL) { ... }] *)
Fixpoint open_channel_loop (session : simplessh_session) (s : script)
    : run (flow (simplessh_either simplessh_result) Z) :=
  match s with
  | [] => ([], Blocked)
  | channel :: s1 =>
      prefix [EvChannelOpenSession (lsession session) channel]
        (if channel =? 0 then
           match s1 with
           | [] => ([], Blocked)
           | e :: s2 =>
               prefix [EvLastErrno (lsession session) e]
                 (if e =? LIBSSH2_ERROR_EAGAIN then
                    wait_then (sock session) (lsession session) s2
                      (open_channel_loop session)
                  else returning (returnLocalErrorC None None CHANNEL_OPEN) s2)
           end
         else ([], Returned (Continue channel) s1))
  end.

(** [while((rc = libssh2_channel_exec(channel, command)) != 0) { ... }] *)
Fixpoint channel_exec_loop (session : simplessh_session) (channel : Z)
    (command : string) (s : script)
    : run (flow (simplessh_either simplessh_result) unit) :=
  match s with
  | [] => ([], Blocked)
  | rc :: s1 =>
      prefix [EvChannelExec channel command rc]
        (if negb (rc =? 0) then
           if rc =? LIBSSH2_ERROR_EAGAIN then
             wait_then (sock session) (lsession session) s1
               (channel_exec_loop session channel command)
           else returning (returnLocalErrorC None None CHANNEL_EXEC) s1
         else ([], Returned (Continue tt) s1))
  end.

(** The sizes and positions of the two output buffers:
    [int out_size, out_position, err_size, err_position]. *)
Record read_state : Type :=
  { out_size : Z; out_position : Z; err_size : Z; err_position : Z }.

(** [int out_size = 128, out_position = 0, err_size = 128, err_position = 0;] *)
Definition read_init : read_state :=
  {| out_size := 128; out_position := 0; err_size := 128; err_position := 0 |}.

(** The length argument of a read, [size - position - 1], an [int] passed
    as a [size_t]. *)
Definition read_buflen (size position : Z) : Z :=
  wrap_size (wrap_int (size - position - 1)).

(** One buffer's share of the last branch of the loop body:
    [if(rc > 0) { position += rc;
       if(size - position < 1024) {
         size = min(size * 2, size + 65536); buf = realloc(buf, size); } }]
    The result is the new size and position. *)
Definition store_read (b : block) (size position rc : Z) : trace * (Z * Z) :=
  if 0 <? rc then
    let position' := wrap_int (position + rc) in
    if wrap_int (size - position') <? 1024 then
      let size' := min (wrap_int (size * 2)) (wrap_int (size + 65536)) in
      ([EvRealloc b (wrap_size size')], (size', position'))
    else ([], (size, position'))
  else ([], (size, position)).

Definition store_reads (st : read_state) (rc rc2 : Z) : trace * read_state :=
  let o := store_read OutBuffer (out_size st) (out_position st) rc in
  let e := store_read ErrBuffer (err_size st) (err_position st) rc2 in
  (fst o ++ fst e,
   {| out_size := fst (snd o); out_position := snd (snd o);
      err_size := fst (snd e); err_position := snd (snd e) |}).

(** The [for(;;)] loop that reads both streams. *)
Fixpoint read_loop (session : simplessh_session) (channel : Z)
    (st : read_state) (s : script)
    : run (flow (simplessh_either simplessh_result) read_state) :=
  match s with
  | [] => ([], Blocked)
  | [rc] =>
      ([EvRead channel (out_position st)
          (read_buflen (out_size st) (out_position st)) rc], Blocked)
  | rc :: rc2 :: s2 =>
      prefix
        [EvRead channel (out_position st)
           (read_buflen (out_size st) (out_position st)) rc;
         EvReadStderr channel (err_position st)
           (read_buflen (err_size st) (err_position st)) rc2]
        (if (rc =? 0) && (rc2 =? 0) then ([], Returned (Continue st) s2)
         else if (rc =? LIBSSH2_ERROR_EAGAIN) && (rc2 =? LIBSSH2_ERROR_EAGAIN)
         then
           wait_then (sock session) (lsession session) s2
             (read_loop session channel st)
         else if ((rc <? 0) && negb (rc =? LIBSSH2_ERROR_EAGAIN))
                 || ((rc2 <? 0) && negb (rc2 =? LIBSSH2_ERROR_EAGAIN))
         then
           returning
             (returnLocalErrorC (Some OutBuffer) (Some ErrBuffer) READ) s2
         else
           let g := store_reads st rc rc2 in
           prefix (fst g) (read_loop session channel (snd g) s2))
  end.

(** [while((rc = libssh2_channel_close(channel)) == LIBSSH2_ERROR_EAGAIN)
      waitsocket(session->sock, session->lsession);] *)
Fixpoint channel_close_loop (session : simplessh_session) (channel : Z)
    (s : script) : run Z :=
  match s with
  | [] => ([], Blocked)
  | rc :: s1 =>
      prefix [EvChannelClose channel rc]
        (if rc =? LIBSSH2_ERROR_EAGAIN then
           wait_then (sock session) (lsession session) s1
             (channel_close_loop session channel)
         else ([], Returned rc s1))
  end.

(** [result] as the function first fills it: no buffers, exit code 127, no
    signal. *)
Definition empty_result : simplessh_result :=
  {| out := None; err := None; exit_code := 127; exit_signal := 0 |}.

(** The statements between the read loop and the close loop: terminate and
    shrink both buffers and store them in [result]. *)
Definition terminate_buffers (result : simplessh_result) (st : read_state)
    : prog simplessh_result :=
  emit (EvStoreByte OutBuffer (out_position st) 0) ;;
  emit (EvRealloc OutBuffer (wrap_size (wrap_int (out_position st + 1)))) ;;
  emit (EvStoreByte ErrBuffer (err_position st) 0) ;;
  emit (EvRealloc ErrBuffer (wrap_size (wrap_int (err_position st + 1)))) ;;
  ret {| out := Some OutBuffer; err := Some ErrBuffer;
         exit_code := exit_code result; exit_signal := exit_signal result |}.

(** From the close loop to the return: the exit status and signal are
    fetched only when the close returned 0. *)
Definition close_and_collect (session : simplessh_session) (channel : Z)
    (result : simplessh_result) : prog (simplessh_either simplessh_result) :=
  rc <- channel_close_loop session channel ;;
  result' <- (if rc =? 0 then
                code <- call (EvGetExitStatus channel) ;;
                signal <- call (EvGetExitSignal channel) ;;
                ret {| out := out result; err := err result;
                       exit_code := code; exit_signal := signal |}
              else ret result) ;;
  emit (EvChannelFree channel None) ;;
  ret (RIGHT result').

(** The part of the function that reads the result: allocate both buffers,
    read, terminate. *)
Definition read_result (session : simplessh_session) (channel : Z)
    (result : simplessh_result)
    : prog (flow (simplessh_either simplessh_result) simplessh_result) :=
  _ <- malloc OutBuffer (Some (wrap_size (out_size read_init))) ;;
  _ <- malloc ErrBuffer (Some (wrap_size (err_size read_init))) ;;
  r <- read_loop session channel read_init ;;
  match r with
  | Return e => ret (Return e)
  | Continue st =>
      result' <- terminate_buffers result st ;;
      ret (Continue result')
  end.

(** The function from the allocation of the buffers to its return, once
    the channel is open and the command sent. *)
Definition exec_on_channel (session : simplessh_session) (channel : Z)
    (result : simplessh_result) : prog (simplessh_either simplessh_result) :=
  read <- read_result session channel result ;;
  match read with
  | Return e => ret e
  | Continue result' => close_and_collect session channel result'
  end.

(** [struct simplessh_either *simplessh_exec_command(session, command)] *)
Definition simplessh_exec_command (session : simplessh_session)
    (command : string) : prog (simplessh_either simplessh_result) :=
  _ <- malloc ResultBlock None ;;
  let result := empty_result in
  _ <- malloc EitherBlock None ;;
  opened <- open_channel_loop session ;;
  match opened with
  | Return e => ret e
  | Continue channel =>
      sent <- channel_exec_loop session channel command ;;
      match sent with
      | Return e => ret e
      | Continue _ => exec_on_channel session channel result
      end
  end.

(** ** File upload *)

(** [#define returnLocalErrorS(err)] *)
Definition returnLocalErrorS (channel : Z) (err : simplessh_error)
    : prog (simplessh_either Z) :=
  (if negb (channel =? 0) then emit (EvChannelFree channel None) else ret tt) ;;
  ret (LEFT err).

(** [while((channel = libssh2_scp_send(...)) == NULL) { ... }] *)
Fixpoint scp_send_loop (session : simplessh_session) (path : string)
    (mode data_len : Z) (s : script) : run (flow (simplessh_either Z) Z) :=
  match s with
  | [] => ([], Blocked)
  | channel :: s1 =>
      prefix [EvScpSend (lsession session) path (Z.land mode 511)
                (wrap_size data_len) channel]
        (if channel =? 0 then
           match s1 with
           | [] => ([], Blocked)
           | e :: s2 =>
               prefix [EvLastErrno (lsession session) e]
                 (if e =? LIBSSH2_ERROR_EAGAIN then
                    wait_then (sock session) (lsession session) s2
                      (scp_send_loop session path mode data_len)
                  else returning (returnLocalErrorS channel CHANNEL_OPEN) s2)
           end
         else ([], Returned (Continue channel) s1))
  end.

(** The test of the outer loop, [while( *transferred < data_len)], and the
    first two statements of its body:
    [size_t n = min(data_len - *transferred, 16 * 1024);
     current = data + *transferred;]
    [inner n current] is the inner loop, [done] the statements after the
    outer loop.  With [n = 0] the inner loop is skipped and the outer loop
    tests the same values again, for ever. *)
Definition next_chunk {A} (data_len transferred : Z)
    (inner : Z -> Z -> run A) (done : run A) : run A :=
  if transferred <? data_len then
    let n := wrap_size (min (wrap_int (data_len - transferred)) (16 * 1024)) in
    let current := transferred in
    if 0 <? n then inner n current else ([], Diverged)
  else done.

(** The three nested loops of the transfer, entered at the write of the
    innermost one with [n > 0]; each recursive call is the next iteration of
    the loop named beside it.  [current] is the offset of the pointer
    [current] from [data]. *)
Fixpoint write_loop (channel data_len : Z) (transferred n current : Z)
    (s : script) : run (flow (simplessh_either Z) Z) :=
  match s with
  | [] => ([], Blocked)
  | rc :: s1 =>
      prefix [EvWrite channel current n rc]
        (if rc =? LIBSSH2_ERROR_EAGAIN then
           (* while((rc = libssh2_channel_write(...)) == EAGAIN); *)
           write_loop channel data_len transferred n current s1
         else if rc <? 0 then returning (returnLocalErrorS channel WRITE) s1
         else
           let n' := wrap_size (n - rc) in
           let current' := current + rc in
           let transferred' := wrap_int (transferred + rc) in
           prefix [EvStoreInt TransferredCell transferred']
             (if 0 <? n' then
                (* while(n > 0) *)
                write_loop channel data_len transferred' n' current' s1
              else
                (* while( *transferred < data_len) *)
                next_chunk data_len transferred'
                  (fun n current =>
                     write_loop channel data_len transferred' n current s1)
                  ([], Returned (Continue transferred') s1)))
  end.

(** The transfer loops from their entry, with nothing transferred yet. *)
Definition transfer (channel data_len : Z)
    : prog (flow (simplessh_either Z) Z) :=
  fun s =>
    next_chunk data_len 0
      (fun n current => write_loop channel data_len 0 n current s)
      ([], Returned (Continue 0) s).

(** The three statements after the transfer, each an empty-bodied retry
    loop, and the return. *)
Definition finish_upload (channel transferred : Z)
    : prog (simplessh_either Z) :=
  _ <- spin_while_eagain (EvSendEof channel) ;;
  _ <- spin_while_eagain (EvChannelClose channel) ;;
  _ <- spin_while_eagain (fun rc => EvChannelFree channel (Some rc)) ;;
  ret (RIGHT transferred).

(** [struct simplessh_either *simplessh_send_file(session, mode, data,
    data_len, destination_path)].  The bytes of [data] play no part.  The
    value side holds the content of the cell [transferred] at the return. *)
Definition simplessh_send_file (session : simplessh_session) (mode : Z)
    (data_len : Z) (destination_path : string) : prog (simplessh_either Z) :=
  _ <- malloc TransferredCell None ;;
  emit (EvStoreInt TransferredCell 0) ;;
  _ <- malloc EitherBlock None ;;
  opened <- scp_send_loop session destination_path mode data_len ;;
  match opened with
  | Return e => ret e
  | Continue channel =>
      written <- transfer channel data_len ;;
      match written with
      | Return e => ret e
      | Continue transferred => finish_upload channel transferred
      end
  end.

(** * Vocabulary of the properties *)

(** ** Reading runs *)

Definition error_eqb (a b : simplessh_error) : bool :=
  match a, b with
  | CONNECT, CONNECT | INIT, INIT | HANDSHAKE, HANDSHAKE
  | AUTHENTICATION, AUTHENTICATION | CHANNEL_OPEN, CHANNEL_OPEN
  | CHANNEL_EXEC, CHANNEL_EXEC | READ, READ | WRITE, WRITE => true
  | _, _ => false
  end.

(** The function returned the error side tagged [e]. *)
Definition is_error {A} (e : simplessh_error)
    (o : outcome (simplessh_either A)) : bool :=
  match o with
  | Returned (LEFT e') _ => error_eqb e e'
  | _ => false
  end.

(** What a caller can read from the value side of an either. *)
Definition carried_value {A} (e : simplessh_either A) : option A :=
  match e with
  | RIGHT v => Some v
  | LEFT _ => None
  end.

(** ** Opening a session *)

(** A resolver that answers one reachable IPv4 candidate. *)
Definition one_candidate (hostname : string) (port : Z) : resolution :=
  {| gai_rc := 0;
     gai_res := [{| ai_family := 2; ai_socktype := 1; ai_protocol := 6;
                    ai_addr := 111 |}] |}.

(** A resolver that answers an IPv4 candidate, then an IPv6 one. *)
Definition two_candidates (hostname : string) (port : Z) : resolution :=
  {| gai_rc := 0;
     gai_res := [{| ai_family := 2; ai_socktype := 1; ai_protocol := 6;
                    ai_addr := 111 |};
                 {| ai_family := 10; ai_socktype := 1; ai_protocol := 6;
                    ai_addr := 222 |}] |}.

(** The events of [simplessh_close_session]. *)
Definition teardown (session : simplessh_session) : trace :=
  [EvSessionDisconnect (lsession session); EvSessionFree (lsession session);
   EvCloseFd (sock session); EvFree SessionBlock; EvLibExit].

(** ** The connector *)

(** The sockets and connects of an event are those of candidate [a]. *)
Definition aims_at (a : addrinfo) (e : event) : bool :=
  match e with
  | EvSocket family type protocol _ =>
      (family =? ai_family a) && (type =? ai_socktype a)
      && (protocol =? ai_protocol a)
  | EvConnect _ addr => addr =? ai_addr a
  | _ => true
  end.

Definition aims_at_first (res : list addrinfo) (e : event) : bool :=
  match res with
  | [] => true
  | a :: _ => aims_at a e
  end.

(** ** Waiting before a retry *)

(** The engine operations that can answer with the would-block code. *)
Inductive operation : Type :=
| OpHandshake | OpAuthenticate | OpChannelOpen | OpExec
| OpRead | OpReadStderr | OpWrite | OpSendEof | OpClose | OpFree.

Definition operation_eqb (a b : operation) : bool :=
  match a, b with
  | OpHandshake, OpHandshake | OpAuthenticate, OpAuthenticate
  | OpChannelOpen, OpChannelOpen | OpExec, OpExec | OpRead, OpRead
  | OpReadStderr, OpReadStderr | OpWrite, OpWrite | OpSendEof, OpSendEof
  | OpClose, OpClose | OpFree, OpFree => true
  | _, _ => false
  end.

(** The operation an event issues, if any. *)
Definition issues (e : event) : option operation :=
  match e with
  | EvHandshake _ _ _ => Some OpHandshake
  | EvUserauthPassword _ _ | EvUserauthPublickeyFromfile _ _
  | EvUserauthPublickeyFrommemory _ _ => Some OpAuthenticate
  | EvChannelOpenSession _ _ | EvScpSend _ _ _ _ _ => Some OpChannelOpen
  | EvChannelExec _ _ _ => Some OpExec
  | EvRead _ _ _ _ => Some OpRead
  | EvReadStderr _ _ _ _ => Some OpReadStderr
  | EvWrite _ _ _ _ => Some OpWrite
  | EvSendEof _ _ => Some OpSendEof
  | EvChannelClose _ _ => Some OpClose
  | EvChannelFree _ (Some _) => Some OpFree
  | _ => None
  end.

Definition eagain (rc : Z) (op : operation) : option operation :=
  if rc =? LIBSSH2_ERROR_EAGAIN then Some op else None.

(** The operation an event reports as blocked, if any.  A channel open
    returns NULL; the would-block code is then read with
    [libssh2_session_last_errno]. *)
Definition would_block (e : event) : option operation :=
  match e with
  | EvHandshake _ _ rc => eagain rc OpHandshake
  | EvUserauthPassword _ rc | EvUserauthPublickeyFromfile _ rc
  | EvUserauthPublickeyFrommemory _ rc => eagain rc OpAuthenticate
  | EvLastErrno _ rc => eagain rc OpChannelOpen
  | EvChannelExec _ _ rc => eagain rc OpExec
  | EvRead _ _ _ rc => eagain rc OpRead
  | EvReadStderr _ _ _ rc => eagain rc OpReadStderr
  | EvWrite _ _ _ rc => eagain rc OpWrite
  | EvSendEof _ rc => eagain rc OpSendEof
  | EvChannelClose _ rc => eagain rc OpClose
  | EvChannelFree _ (Some rc) => eagain rc OpFree
  | _ => None
  end.

(** [e] issues again an operation that still owes a wait. *)
Definition reissues (owed : list operation) (e : event) : bool :=
  match issues e with
  | Some op => existsb (operation_eqb op) owed
  | None => false
  end.

(** The operations that owe a wait once [e] has happened. *)
Definition owe (watched : operation -> bool) (owed : list operation)
    (e : event) : list operation :=
  match would_block e with
  | Some op => if watched op then op :: owed else owed
  | None => owed
  end.

(** No watched operation that reported would-block is issued again before
    the next [select].  [owed] lists the operations that reported would-block
    since the last [select]. *)
Fixpoint waits_before_retry (watched : operation -> bool)
    (owed : list operation) (tr : trace) : bool :=
  match tr with
  | [] => true
  | EvSelect _ _ _ _ _ :: tr' => waits_before_retry watched [] tr'
  | e :: tr' =>
      negb (reissues owed e)
      && waits_before_retry watched (owe watched owed e) tr'
  end.

Fixpoint owed_after (watched : operation -> bool) (owed : list operation)
    (tr : trace) : list operation :=
  match tr with
  | [] => owed
  | EvSelect _ _ _ _ _ :: tr' => owed_after watched [] tr'
  | e :: tr' => owed_after watched (owe watched owed e) tr'
  end.

Definition every_operation (op : operation) : bool := true.

(** The operations that [simplessh_exec_command] follows with a wait. *)
Definition exec_waits (op : operation) : bool :=
  match op with
  | OpChannelOpen | OpExec | OpClose => true
  | _ => false
  end.

(** The operation that [simplessh_send_file] follows with a wait. *)
Definition send_waits (op : operation) : bool :=
  match op with
  | OpChannelOpen => true
  | _ => false
  end.

(** An event after which no watched operation owes a wait. *)
Definition quiet (watched : operation -> bool) (e : event) : bool :=
  match would_block e with
  | Some op => negb (watched op)
  | None => true
  end.

(** A run that starts with nothing owed keeps the discipline and, when it
    returns, leaves nothing owed. *)
Definition settled {A} (watched : operation -> bool) (r : run A) : Prop :=
  waits_before_retry watched [] (fst r) = true
  /\ (forall a rest, snd r = Returned a rest ->
                     owed_after watched [] (fst r) = []).

(** ** The read loop of exec *)

(** A negative return code other than the would-block code. *)
Definition hard_error (rc : Z) : bool :=
  (rc <? 0) && negb (rc =? LIBSSH2_ERROR_EAGAIN).

(** Where the read loop stands between two events. *)
Inductive read_phase : Type :=
| AtReads          (* a turn may start *)
| AfterRead (rc : Z)  (* stdout was read, stderr is due *)
| NeedDirections   (* both reads would block: the wait is due *)
| NeedSelect
| Finished         (* both reads returned 0 *)
| Failed.          (* a read failed: only the releases may follow *)

(** The discipline of the loop: every turn reads stdout and then stderr;
    the loop is finished exactly by a turn whose two reads return 0; a turn
    whose two reads would block is followed by the two calls of waitsocket
    before the next read; a capacity change comes between turns. *)
Definition read_step (p : read_phase) (e : event) : option read_phase :=
  match p, e with
  | AtReads, EvRead _ _ _ rc => Some (AfterRead rc)
  | AtReads, EvRealloc _ _ => Some AtReads
  | AfterRead rc, EvReadStderr _ _ _ rc2 =>
      if (rc =? 0) && (rc2 =? 0) then Some Finished
      else if (rc =? LIBSSH2_ERROR_EAGAIN) && (rc2 =? LIBSSH2_ERROR_EAGAIN)
      then Some NeedDirections
      else if hard_error rc || hard_error rc2 then Some Failed
      else Some AtReads
  | NeedDirections, EvBlockDirections _ _ => Some NeedSelect
  | NeedSelect, EvSelect _ _ _ _ _ => Some AtReads
  | Failed, EvFree _ => Some Failed
  | _, _ => None
  end.

Fixpoint read_phases (p : read_phase) (tr : trace) : option read_phase :=
  match tr with
  | [] => Some p
  | e :: tr' =>
      match read_step p e with
      | Some p' => read_phases p' tr'
      | None => None
      end
  end.

(** What C5 says of one run of the loop on [channel]. *)
Definition disciplined (channel : Z)
    (r : run (flow (simplessh_either simplessh_result) read_state)) : Prop :=
  (exists p,
      read_phases AtReads (fst r) = Some p
      /\ (p = Finished
          <-> exists st' rest, snd r = Returned (Continue st') rest))
  /\ (forall st' rest,
         snd r = Returned (Continue st') rest ->
         exists tr0 pos len pos2 len2,
           fst r = tr0 ++ [EvRead channel pos len 0;
                           EvReadStderr channel pos2 len2 0]).

(** ** Phases of exec and their events *)

(** The calls of the two loops that set the channel up. *)
Definition setup_call (e : event) : bool :=
  match e with
  | EvChannelOpenSession _ _ | EvLastErrno _ _ | EvChannelExec _ _ _
  | EvBlockDirections _ _ | EvSelect _ _ _ _ _ => true
  | _ => false
  end.

(** The calls of the read loop; a capacity change is one of them. *)
Definition reading_call (e : event) : bool :=
  match e with
  | EvRead _ _ _ _ | EvReadStderr _ _ _ _ | EvRealloc _ _
  | EvBlockDirections _ _ | EvSelect _ _ _ _ _ => true
  | _ => false
  end.

Definition is_free (e : event) : bool :=
  match e with
  | EvFree _ => true
  | _ => false
  end.

(** The releases of [returnLocalErrorC]. *)
Definition released (o e : ptr) : trace :=
  (match o with Some b => [EvFree b] | None => [] end)
  ++ (match e with Some b => [EvFree b] | None => [] end)
  ++ [EvFree ResultBlock].

(** A loop of exec whose calls are those of [call_of]: while it runs and
    when it hands over to the next statement its events are those calls;
    when it leaves the function, it returns the error side tagged [error]
    and its events are those calls followed by the releases [rel]. *)
Definition staged {A B} (call_of : event -> bool) (error : simplessh_error)
    (rel : trace) (r : run (flow (simplessh_either A) B)) : Prop :=
  match snd r with
  | Returned (Continue _) _ | Blocked => forallb call_of (fst r) = true
  | Returned (Return v) _ =>
      v = LEFT error
      /\ exists tr0, fst r = tr0 ++ rel /\ forallb call_of tr0 = true
  | Diverged => False
  end.

(** The first two allocations of exec. *)
Definition exec_mallocs : trace :=
  [EvMalloc ResultBlock None; EvMalloc EitherBlock None].

(** The allocations of the two buffers, and the statements that terminate
    and shrink them. *)
Definition buffer_mallocs : trace :=
  [EvMalloc OutBuffer (Some 128); EvMalloc ErrBuffer (Some 128)].

Definition terminated (st : read_state) : trace :=
  [EvStoreByte OutBuffer (out_position st) 0;
   EvRealloc OutBuffer (wrap_size (wrap_int (out_position st + 1)));
   EvStoreByte ErrBuffer (err_position st) 0;
   EvRealloc ErrBuffer (wrap_size (wrap_int (err_position st + 1)))].

Definition with_buffers (result : simplessh_result) : simplessh_result :=
  {| out := Some OutBuffer; err := Some ErrBuffer;
     exit_code := exit_code result; exit_signal := exit_signal result |}.

(** ** A failed read *)

(** Some turn of the trace, a stdout read and the stderr read after it, has
    a read that returned a hard error. *)
Fixpoint read_failed (tr : trace) : bool :=
  match tr with
  | [] => false
  | e :: tr' =>
      match e, tr' with
      | EvRead _ _ _ rc, EvReadStderr _ _ _ rc2 :: _ =>
          hard_error rc || hard_error rc2
      | _, _ => false
      end
      || read_failed tr'
  end.

Definition is_read (e : event) : bool :=
  match e with
  | EvRead _ _ _ _ | EvReadStderr _ _ _ _ => true
  | _ => false
  end.

Definition is_realloc (e : event) : bool :=
  match e with
  | EvRealloc _ _ => true
  | _ => false
  end.

(** The blocks allocated and not yet released after a trace, latest
    first. *)
Fixpoint live_blocks (live : list block) (tr : trace) : list block :=
  match tr with
  | [] => live
  | EvMalloc b _ :: tr' => live_blocks (b :: live) tr'
  | EvFree b :: tr' =>
      live_blocks (filter (fun b' => negb (block_eqb b b')) live) tr'
  | _ :: tr' => live_blocks live tr'
  end.

Definition keeps_heap (e : event) : bool :=
  match e with
  | EvMalloc _ _ | EvFree _ => false
  | _ => true
  end.

(** The calls from the close loop to the return. *)
Definition closing_call (e : event) : bool :=
  match e with
  | EvChannelClose _ _ | EvGetExitStatus _ _ | EvGetExitSignal _ _
  | EvChannelFree _ _ | EvBlockDirections _ _ | EvSelect _ _ _ _ _ => true
  | _ => false
  end.

(** ** Closing the channel *)

Definition close_loop_call (e : event) : bool :=
  match e with
  | EvChannelClose _ _ | EvBlockDirections _ _ | EvSelect _ _ _ _ _ => true
  | _ => false
  end.

Definition before_close (e : event) : bool :=
  match e with
  | EvChannelClose _ _ | EvGetExitSignal _ _ => false
  | _ => true
  end.

(** What C7 says of a run of exec. *)
Definition exit_code_law (r : run (simplessh_either simplessh_result))
    : Prop :=
  (forall res rest,
      snd r = Returned (RIGHT res) rest ->
      (exists tr0 channel status signal,
          fst r = tr0 ++ [EvChannelClose channel 0;
                          EvGetExitStatus channel status;
                          EvGetExitSignal channel signal;
                          EvChannelFree channel None]
          /\ exit_code res = status /\ exit_signal res = signal)
      \/ (exists tr0 channel rc,
             rc <> 0
             /\ fst r = tr0 ++ [EvChannelClose channel rc;
                                EvChannelFree channel None]
             /\ exit_code res = 127 /\ exit_signal res = 0))
  /\ (forall channel rc,
         In (EvChannelClose channel rc) (fst r) ->
         rc <> LIBSSH2_ERROR_EAGAIN -> rc <> 0 ->
         exists res rest,
           snd r = Returned (RIGHT res) rest
           /\ exit_code res = 127 /\ exit_signal res = 0)
  /\ (forall channel signal,
         In (EvGetExitSignal channel signal) (fst r) ->
         exists res rest,
           snd r = Returned (RIGHT res) rest /\ exit_signal res = signal).

(** ** The output buffers *)

(** The sizes after which the arithmetic of the loop stays within [int]:
    a stream that delivers fewer bytes than this never makes the doubling
    overflow. *)
Definition output_limit : Z := 2 ^ 30 - 66560.

(** The invariant of one buffer. *)
Definition buffer_inv (size position : Z) : Prop :=
  128 <= size /\ 0 <= position <= size - 1 /\ size <= position + 66560.

(** The capacities of the two buffers, stdout first. *)
Definition capacities : Type := (Z * Z)%type.

Definition capacity_of (b : block) (caps : capacities) : Z :=
  match b with
  | OutBuffer => fst caps
  | ErrBuffer => snd caps
  | _ => 0
  end.

Definition set_capacity (b : block) (n : Z) (caps : capacities)
    : capacities :=
  match b with
  | OutBuffer => (n, snd caps)
  | ErrBuffer => (fst caps, n)
  | _ => caps
  end.

(** The capacities after an event: malloc and realloc set them. *)
Definition capacity_step (caps : capacities) (e : event) : capacities :=
  match e with
  | EvMalloc b (Some n) | EvRealloc b n => set_capacity b n caps
  | _ => caps
  end.

(** [ok] holds of every event, at the capacities current before it. *)
Fixpoint monitor (ok : capacities -> event -> bool) (caps : capacities)
    (tr : trace) : bool :=
  match tr with
  | [] => true
  | e :: tr' => ok caps e && monitor ok (capacity_step caps e) tr'
  end.

Definition capacities_after (caps : capacities) (tr : trace) : capacities :=
  fold_left capacity_step tr caps.

(** A read is issued at a position inside its buffer, with the length
    [capacity - position - 1], which is not negative; a byte is stored
    inside its buffer. *)
Definition within_buffer (caps : capacities) (e : event) : bool :=
  match e with
  | EvRead _ position buflen _ =>
      (0 <=? position) && (buflen =? fst caps - position - 1)
      && (0 <=? buflen)
  | EvReadStderr _ position buflen _ =>
      (0 <=? position) && (buflen =? snd caps - position - 1)
      && (0 <=? buflen)
  | EvStoreByte b index _ =>
      (0 <=? index) && (index <? capacity_of b caps)
  | _ => true
  end.

(** A buffer is allocated with 128 bytes and a realloc sets its capacity to
    [min (2 * old) (old + 65536)]. *)
Definition grown_by_policy (caps : capacities) (e : event) : bool :=
  match e with
  | EvMalloc b (Some n) => n =? 128
  | EvRealloc b n =>
      n =? Z.min (2 * capacity_of b caps) (capacity_of b caps + 65536)
  | _ => true
  end.

(** The engine contract of a read: it returns no more bytes than asked. *)
Definition read_within_buflen (e : event) : bool :=
  match e with
  | EvRead _ _ buflen rc | EvReadStderr _ _ buflen rc => rc <=? buflen
  | _ => true
  end.

(** The bytes a trace received on stdout and on stderr. *)
Fixpoint received_out (tr : trace) : Z :=
  match tr with
  | [] => 0
  | EvRead _ _ _ rc :: tr' => Z.max 0 rc + received_out tr'
  | _ :: tr' => received_out tr'
  end.

Fixpoint received_err (tr : trace) : Z :=
  match tr with
  | [] => 0
  | EvReadStderr _ _ _ rc :: tr' => Z.max 0 rc + received_err tr'
  | _ :: tr' => received_err tr'
  end.

Definition state_inv (st : read_state) : Prop :=
  buffer_inv (out_size st) (out_position st)
  /\ buffer_inv (err_size st) (err_position st).

Definition capacities_of (st : read_state) : capacities :=
  (out_size st, err_size st).

(** The hypotheses on a run of the loop from [st]: the engine keeps the
    contract of a read, and each stream stays below the limit. *)
Definition admissible (st : read_state) (tr : trace) : Prop :=
  forallb read_within_buflen tr = true
  /\ out_position st + received_out tr < output_limit
  /\ err_position st + received_err tr < output_limit.

(** What holds of such a run. *)
Definition buffers_ok (st : read_state)
    (r : run (flow (simplessh_either simplessh_result) read_state)) : Prop :=
  monitor within_buffer (capacities_of st) (fst r) = true
  /\ monitor grown_by_policy (capacities_of st) (fst r) = true
  /\ (forall st' rest,
         snd r = Returned (Continue st') rest ->
         state_inv st'
         /\ capacities_after (capacities_of st) (fst r) = capacities_of st'
         /\ out_position st' = out_position st + received_out (fst r)
         /\ err_position st' = err_position st + received_err (fst r)).

(** ** The upload *)

(** The first three events of send_file. *)
Definition send_mallocs : trace :=
  [EvMalloc TransferredCell None; EvStoreInt TransferredCell 0;
   EvMalloc EitherBlock None].

(** An event that is neither a write nor a store to the counter. *)
Definition off_transfer (e : event) : bool :=
  match e with
  | EvWrite _ _ _ _ | EvStoreInt _ _ => false
  | _ => true
  end.

(** The engine contract of a write: it accepts no more bytes than offered. *)
Definition write_within_buflen (e : event) : bool :=
  match e with
  | EvWrite _ _ buflen rc => rc <=? buflen
  | _ => true
  end.

(** The accounting of the transfer.  [t] is the content of the counter and
    [due] the bytes accepted by a write and not yet added to it.  A write is
    issued at offset [t] for at least one and at most
    [min (data_len - t) 16384] bytes; the store after a write that accepted
    [rc] bytes sets the counter to [t + rc], which does not exceed
    [data_len]. *)
Fixpoint counted (data_len t : Z) (due : option Z) (tr : trace) : bool :=
  match tr with
  | [] => true
  | EvWrite _ offset buflen rc :: tr' =>
      match due with
      | Some _ => false
      | None =>
          (offset =? t) && (0 <? buflen)
          && (buflen <=? Z.min (data_len - t) 16384)
          && counted data_len t (if 0 <=? rc then Some rc else None) tr'
      end
  | EvStoreInt TransferredCell v :: tr' =>
      (v =? t + match due with Some rc => rc | None => 0 end)
      && (v <=? data_len)
      && counted data_len v None tr'
  | _ :: tr' => counted data_len t due tr'
  end.

(** The invariant of the transfer at a write: [n] bytes of the chunk
    remain, and they fit in what is left of the data. *)
Definition chunk_inv (data_len t n current : Z) : Prop :=
  0 <= t /\ 0 < n <= 16384 /\ t + n <= data_len /\ current = t
  /\ data_len <= INT_MAX.

(** ** A failed write *)

Definition hard_write (e : event) : bool :=
  match e with
  | EvWrite _ _ _ rc => hard_error rc
  | _ => false
  end.

(** Some write of the trace returned a hard error. *)
Definition write_failed (tr : trace) : bool := existsb hard_write tr.

(** The bytes the writes of a trace accepted. *)
Fixpoint accepted (tr : trace) : Z :=
  match tr with
  | [] => 0
  | EvWrite _ _ _ rc :: tr' => Z.max 0 rc + accepted tr'
  | _ :: tr' => accepted tr'
  end.

(** The content of the counter cell after a trace; [v] is its content
    before, [None] while nothing was stored. *)
Fixpoint counter_after (v : option Z) (tr : trace) : option Z :=
  match tr with
  | [] => v
  | EvStoreInt TransferredCell x :: tr' => counter_after (Some x) tr'
  | _ :: tr' => counter_after v tr'
  end.

(** What a run of the transfer's loops from a write leaves: the counter holds
    what it held plus the bytes accepted, and the loops end only with the
    counter at [data_len], or with WRITE. *)
Definition tallied (data_len t : Z)
    (r : run (flow (simplessh_either Z) Z)) : Prop :=
  counter_after (Some t) (fst r) = Some (t + accepted (fst r))
  /\ match snd r with
     | Returned (Continue v) _ => v = t + accepted (fst r) /\ v = data_len
     | Returned (Return e) _ => e = LEFT WRITE
     | Blocked => True
     | Diverged => False
     end.

(** ** Retry loops with an empty body *)

(** [k] would-block answers in a row. *)
Definition would_blocks (k : nat) : script := repeat LIBSSH2_ERROR_EAGAIN k.

(** What an authentication function does on the script [s]: it allocates its
    either and issues the engine call once for every answer up to the first
    one that is not the would-block code; that answer alone decides the
    result. *)
Definition authentication_law (mk : Z -> event) (session : simplessh_session)
    (s : script) (r : run (simplessh_either simplessh_session)) : Prop :=
  (exists k rc rest,
      s = would_blocks k ++ rc :: rest
      /\ (rc =? LIBSSH2_ERROR_EAGAIN) = false
      /\ r = (EvMalloc EitherBlock None :: map mk (would_blocks k ++ [rc]),
              Returned (if rc =? 0 then RIGHT session
                        else LEFT AUTHENTICATION) rest))
  \/ (exists k,
         s = would_blocks k
         /\ r = (EvMalloc EitherBlock None :: map mk s, Blocked)).

(** ** Descriptors and the address list of the connector *)

Fixpoint remove_fd (fd : Z) (fds : list Z) : list Z :=
  match fds with
  | [] => []
  | x :: fds' => if x =? fd then fds' else x :: remove_fd fd fds'
  end.

(** The descriptors opened by [socket] and not yet closed after a trace,
    latest first. *)
Fixpoint open_fds (fds : list Z) (tr : trace) : list Z :=
  match tr with
  | [] => fds
  | EvSocket _ _ _ fd :: tr' =>
      open_fds (if fd =? -1 then fds else fd :: fds) tr'
  | EvCloseFd fd :: tr' => open_fds (remove_fd fd fds) tr'
  | _ :: tr' => open_fds fds tr'
  end.

(** A connect, poll or close is given a descriptor, not the -1 of a failed
    [socket]. *)
Definition on_descriptor (e : event) : bool :=
  match e with
  | EvConnect fd _ | EvPoll fd _ _ _ | EvCloseFd fd => negb (fd =? -1)
  | _ => true
  end.

(** The calls of [get_socket]: none of them is an engine or allocator
    call. *)
Definition socket_call (e : event) : bool :=
  match e with
  | EvGetaddrinfo _ _ _ | EvFreeaddrinfo | EvSocket _ _ _ _
  | EvFcntlSetfl _ _ | EvFcntlGetfl _ _ | EvErrno _ | EvConnect _ _
  | EvPoll _ _ _ _ | EvRevents _ | EvCloseFd _ => true
  | _ => false
  end.

Definition is_socket (e : event) : bool :=
  match e with
  | EvSocket _ _ _ _ => true
  | _ => false
  end.

Definition is_connect (e : event) : bool :=
  match e with
  | EvConnect _ _ => true
  | _ => false
  end.

Definition is_poll (e : event) : bool :=
  match e with
  | EvPoll _ _ _ _ => true
  | _ => false
  end.

Definition is_freeaddrinfo (e : event) : bool :=
  match e with
  | EvFreeaddrinfo => true
  | _ => false
  end.

(** The number of events of a trace that satisfy [p]. *)
Definition count (p : event -> bool) (tr : trace) : nat :=
  List.length (filter p tr).

(** Every poll waits for input only, with the timeout [ms]. *)
Definition polls_for (ms : Z) (e : event) : bool :=
  match e with
  | EvPoll _ events timeout_ms _ => (events =? POLLIN) && (timeout_ms =? ms)
  | _ => true
  end.

(** The address list is used, by [socket] and [connect], only before it is
    released, and it is released at most once.  [released_list] tells
    whether [freeaddrinfo] was called. *)
Fixpoint list_used_live (released_list : bool) (tr : trace) : bool :=
  match tr with
  | [] => true
  | EvFreeaddrinfo :: tr' => negb released_list && list_used_live true tr'
  | EvSocket _ _ _ _ :: tr' | EvConnect _ _ :: tr' =>
      negb released_list && list_used_live released_list tr'
  | _ :: tr' => list_used_live released_list tr'
  end.

(** The calls of the [do ... while] loop that creates a socket. *)
Definition attempt_call (e : event) : bool :=
  match e with
  | EvSocket _ _ _ _ | EvFcntlSetfl _ _ | EvErrno _ => true
  | _ => false
  end.

(** What holds of every call of the connector, for the timeout [ms]. *)
Definition connector_call (ms : Z) (e : event) : bool :=
  socket_call e && on_descriptor e && polls_for ms e.

(** A resolver that fails: EAI_NONAME and no list. *)
Definition no_such_host (hostname : string) (port : Z) : resolution :=
  {| gai_rc := -2; gai_res := [] |}.

(** The first three events of [simplessh_open_session]. *)
Definition open_mallocs : trace :=
  [EvLibInit; EvMalloc SessionBlock None; EvMalloc EitherBlock None].

(** ** What a function holds when it returns *)

Definition is_lib_init (e : event) : bool :=
  match e with
  | EvLibInit => true
  | _ => false
  end.

Definition is_lib_exit (e : event) : bool :=
  match e with
  | EvLibExit => true
  | _ => false
  end.

Definition is_session_init (e : event) : bool :=
  match e with
  | EvSessionInit _ => true
  | _ => false
  end.

Definition is_session_free (e : event) : bool :=
  match e with
  | EvSessionFree _ => true
  | _ => false
  end.

(** The engine handed out a channel: the call did not return NULL. *)
Definition is_channel_opened (e : event) : bool :=
  match e with
  | EvChannelOpenSession _ channel | EvScpSend _ _ _ _ channel =>
      negb (channel =? 0)
  | _ => false
  end.

(** A call of [libssh2_channel_free] that the program does not repeat: its
    result was not looked at, or was not the would-block code.  Such a call
    need not have released the channel. *)
Definition is_channel_free_call (e : event) : bool :=
  match e with
  | EvChannelFree _ None => true
  | EvChannelFree _ (Some rc) => negb (rc =? LIBSSH2_ERROR_EAGAIN)
  | _ => false
  end.

(** A call of [libssh2_channel_free] that the program saw succeed: it read
    the result, and the result was 0. *)
Definition is_channel_freed (e : event) : bool :=
  match e with
  | EvChannelFree _ (Some rc) => rc =? 0
  | _ => false
  end.

(** The calls of [libssh2_init] not yet matched by a [libssh2_exit], the
    engine sessions created and not yet freed, and the channels handed out
    whose release the program has not seen succeed. *)
Definition library_uses (tr : trace) : Z :=
  Z.of_nat (count is_lib_init tr) - Z.of_nat (count is_lib_exit tr).

Definition engine_sessions (tr : trace) : Z :=
  Z.of_nat (count is_session_init tr) - Z.of_nat (count is_session_free tr).

Definition engine_channels (tr : trace) : Z :=
  Z.of_nat (count is_channel_opened tr)
  - Z.of_nat (count is_channel_freed tr).

(** What is held after a trace: heap blocks, descriptors, uses of the
    library, engine sessions and channels. *)
Record holdings : Type :=
  { held_blocks : list block; held_fds : list Z;
    held_library : Z; held_sessions : Z; held_channels : Z }.

Definition holdings_after (tr : trace) : holdings :=
  {| held_blocks := live_blocks [] tr; held_fds := open_fds [] tr;
     held_library := library_uses tr; held_sessions := engine_sessions tr;
     held_channels := engine_channels tr |}.

(** Heap blocks only. *)
Definition only_blocks (blocks : list block) : holdings :=
  {| held_blocks := blocks; held_fds := [];
     held_library := 0; held_sessions := 0; held_channels := 0 |}.

(** An event that changes none of the holdings. *)
Definition holds_nothing (e : event) : bool :=
  match e with
  | EvMalloc _ _ | EvFree _ | EvSocket _ _ _ _ | EvCloseFd _
  | EvLibInit | EvLibExit | EvSessionInit _ | EvSessionFree _ => false
  | _ => negb (is_channel_opened e) && negb (is_channel_free_call e)
  end.

(** What the program knows of the channel it was handed. *)
Inductive channel_state : Type :=
| NoChannel              (* none was handed out *)
| ChannelOpen            (* handed out; free was never called on it *)
| FreeUnchecked          (* free was called, its result not looked at *)
| FreeRefused (rc : Z)   (* free answered the error code [rc] *)
| ChannelFreed.          (* free answered 0 *)

(** A would-block answer of [libssh2_channel_free] leaves the channel as it
    was; a call whose result is not looked at may have been such an
    answer. *)
Definition channel_step (st : channel_state) (e : event) : channel_state :=
  match e with
  | EvChannelOpenSession _ channel | EvScpSend _ _ _ _ channel =>
      if channel =? 0 then st else ChannelOpen
  | EvChannelFree _ None => FreeUnchecked
  | EvChannelFree _ (Some rc) =>
      if rc =? LIBSSH2_ERROR_EAGAIN then st
      else if rc =? 0 then ChannelFreed
      else FreeRefused rc
  | _ => st
  end.

Definition channel_state_after (st : channel_state) (tr : trace)
    : channel_state :=
  fold_left channel_step tr st.

(** The holdings after a trace, with the state of the channel. *)
Definition account (tr : trace) : holdings * channel_state :=
  (holdings_after tr, channel_state_after NoChannel tr).

(** What [simplessh_open_session] holds at each of its returns. *)
Definition open_session_holds (r : run (simplessh_either simplessh_session))
    : Prop :=
  match snd r with
  | Returned (LEFT e) _ =>
      (e = CONNECT
       /\ holdings_after (fst r)
          = {| held_blocks := [EitherBlock; SessionBlock]; held_fds := [];
               held_library := 1; held_sessions := 0; held_channels := 0 |})
      \/ (e = HANDSHAKE
          /\ holdings_after (fst r) = only_blocks [EitherBlock])
  | Returned (RIGHT session) _ =>
      holdings_after (fst r)
      = {| held_blocks := [EitherBlock; SessionBlock];
           held_fds := [sock session];
           held_library := 1; held_sessions := 1; held_channels := 0 |}
      /\ In (EvSessionInit (lsession session)) (fst r)
  | Blocked => True
  | Diverged => False
  end.

(** The blocks [blocks] and a channel whose release was not seen. *)
Definition blocks_and_channel (blocks : list block) : holdings :=
  {| held_blocks := blocks; held_fds := [];
     held_library := 0; held_sessions := 0; held_channels := 1 |}.

(** What [simplessh_exec_command] holds at each of its returns.  At a
    success return [libssh2_channel_free] was called once and its result not
    looked at. *)
Definition exec_command_holds (r : run (simplessh_either simplessh_result))
    : Prop :=
  match snd r with
  | Returned (LEFT e) _ =>
      (e = CHANNEL_OPEN
       /\ account (fst r) = (only_blocks [EitherBlock], NoChannel))
      \/ ((e = CHANNEL_EXEC \/ e = READ)
          /\ account (fst r)
             = (blocks_and_channel [EitherBlock], ChannelOpen))
  | Returned (RIGHT result) _ =>
      account (fst r)
      = (blocks_and_channel
           [ErrBuffer; OutBuffer; EitherBlock; ResultBlock],
         FreeUnchecked)
      /\ out result = Some OutBuffer /\ err result = Some ErrBuffer
  | Blocked => True
  | Diverged => False
  end.

(** What [simplessh_send_file] holds at each of its returns.  At a WRITE
    return [libssh2_channel_free] was called once and its result not looked
    at; at a success return [rc] is the last answer of
    [libssh2_channel_free], which is not the would-block code. *)
Definition send_file_holds (r : run (simplessh_either Z)) : Prop :=
  match snd r with
  | Returned (LEFT e) _ =>
      (e = CHANNEL_OPEN
       /\ account (fst r)
          = (only_blocks [EitherBlock; TransferredCell], NoChannel))
      \/ (e = WRITE
          /\ account (fst r)
             = (blocks_and_channel [EitherBlock; TransferredCell],
                FreeUnchecked))
  | Returned (RIGHT _) _ =>
      exists rc,
        (rc =? LIBSSH2_ERROR_EAGAIN) = false
        /\ account (fst r)
           = if rc =? 0
             then (only_blocks [EitherBlock; TransferredCell], ChannelFreed)
             else (blocks_and_channel [EitherBlock; TransferredCell],
                   FreeRefused rc)
  | Blocked => True
  | Diverged => False
  end.

(** ** Turns of the read loop that make no progress *)

(** A turn [(rc, rc2)] in which one stream is at its end and the other has
    nothing yet. *)
Definition half_open (turn : Z * Z) : bool :=
  ((fst turn =? 0) && (snd turn =? LIBSSH2_ERROR_EAGAIN))
  || ((fst turn =? LIBSSH2_ERROR_EAGAIN) && (snd turn =? 0)).

(** The answers of a list of turns, and the reads the loop issues for them
    from the state [st]. *)
Definition answers_of (turns : list (Z * Z)) : script :=
  flat_map (fun turn => [fst turn; snd turn]) turns.

Definition reads_of (channel : Z) (st : read_state) (turns : list (Z * Z))
    : trace :=
  flat_map
    (fun turn =>
       [EvRead channel (out_position st)
          (read_buflen (out_size st) (out_position st)) (fst turn);
        EvReadStderr channel (err_position st)
          (read_buflen (err_size st) (err_position st)) (snd turn)])
    turns.

(** ** An engine that accepts every write in full *)

(** The chunk sizes of [16384 * k + r] bytes, [0 <= r < 16384]; they are
    also the answers of an engine that accepts every write in full. *)
Definition chunk_sizes (k : nat) (r : Z) : list Z :=
  repeat (16 * 1024) k ++ (if 0 <? r then [r] else []).

(** The writes of the chunks [sizes] from the offset [t], each accepted in
    full and followed by the store of the new count. *)
Fixpoint chunk_writes (channel t : Z) (sizes : list Z) : trace :=
  match sizes with
  | [] => []
  | n :: sizes' =>
      EvWrite channel t n n :: EvStoreInt TransferredCell (t + n)
      :: chunk_writes channel (t + n) sizes'
  end.

Definition is_write (e : event) : bool :=
  match e with
  | EvWrite _ _ _ _ => true
  | _ => false
  end.

(** ** When the program waits *)

Definition is_wait (e : event) : bool :=
  match e with
  | EvBlockDirections _ _ | EvSelect _ _ _ _ _ => true
  | _ => false
  end.

(** [e] may come after [prev], the event before it ([None] at the start of
    a trace): the blocked directions are asked only right after an engine
    call that answered would-block, and [select] is called only right after
    the directions were asked. *)
Definition wait_prompted (prev : option event) (e : event) : bool :=
  match e with
  | EvBlockDirections _ _ =>
      match prev with
      | Some e0 =>
          match would_block e0 with
          | Some _ => true
          | None => false
          end
      | None => false
      end
  | EvSelect _ _ _ _ _ =>
      match prev with
      | Some (EvBlockDirections _ _) => true
      | _ => false
      end
  | _ => true
  end.

Fixpoint waits_prompted (prev : option event) (tr : trace) : bool :=
  match tr with
  | [] => true
  | e :: tr' => wait_prompted prev e && waits_prompted (Some e) tr'
  end.

(** The last event of a trace that comes after [prev]. *)
Definition last_event (prev : option event) (tr : trace) : option event :=
  fold_left (fun _ e => Some e) tr prev.

(** A run that waits only when prompted, whatever came before it. *)
Definition waits_on_demand {A} (r : run A) : Prop :=
  forall prev, waits_prompted prev (fst r) = true.

(** ** The request of an upload *)

(** An scp request is for [path] on [session], with the permission bits
    [mode] and the size [size]. *)
Definition scp_request (session : Z) (path : string) (mode size : Z)
    (e : event) : bool :=
  match e with
  | EvScpSend session' path' mode' size' _ =>
      (session' =? session) && String.eqb path' path
      && (mode' =? mode) && (size' =? size)
  | _ => true
  end.

Definition is_scp_send (e : event) : bool :=
  match e with
  | EvScpSend _ _ _ _ _ => true
  | _ => false
  end.

(** ** Calls issued again *)

(** The position (or offset) and the length of a read or write, with the
    operation and the result. *)
Definition transfer_call (e : event) : option (operation * (Z * Z) * Z) :=
  match e with
  | EvRead _ position buflen rc => Some (OpRead, (position, buflen), rc)
  | EvReadStderr _ position buflen rc =>
      Some (OpReadStderr, (position, buflen), rc)
  | EvWrite _ offset buflen rc => Some (OpWrite, (offset, buflen), rc)
  | _ => None
  end.

Definition same_place (a b : Z * Z) : bool :=
  (fst a =? fst b) && (snd a =? snd b).

(** Every call of [op] that follows one that answered would-block has the
    position and the length of that one.  [pending] is the place of the
    last call of [op] when it answered would-block. *)
Fixpoint reissued (op : operation) (pending : option (Z * Z)) (tr : trace)
    : bool :=
  match tr with
  | [] => true
  | e :: tr' =>
      match transfer_call e with
      | Some (op', place, rc) =>
          if operation_eqb op op' then
            match pending with
            | Some p => same_place p place
            | None => true
            end
            && reissued op
                 (if rc =? LIBSSH2_ERROR_EAGAIN then Some place else None)
                 tr'
          else reissued op pending tr'
      | None => reissued op pending tr'
      end
  end.

(** [pending] is nothing, or the place [place]. *)
Definition pending_at (pending : option (Z * Z)) (place : Z * Z) : Prop :=
  pending = None \/ pending = Some place.

(** [e] is a read or write of the operation [op]. *)
Definition transfers (op : operation) (e : event) : bool :=
  match transfer_call e with
  | Some (op', _, _) => operation_eqb op op'
  | None => false
  end.

(** The places of the next reads from a state of the read loop. *)
Definition out_place (st : read_state) : Z * Z :=
  (out_position st, read_buflen (out_size st) (out_position st)).

Definition err_place (st : read_state) : Z * Z :=
  (err_position st, read_buflen (err_size st) (err_position st)).

(** ** Writes that accept nothing *)

(** [k] writes of [n] bytes at the start of the data, each accepting no
    byte and followed by the store of the unchanged count. *)
Definition stalled_writes (channel n : Z) (k : nat) : trace :=
  List.concat (repeat [EvWrite channel 0 n 0; EvStoreInt TransferredCell 0] k).

(** ** The channel in use *)

(** The channel an event hands out, and the channel an engine call is made
    on. *)
Definition handed_out (e : event) : option Z :=
  match e with
  | EvChannelOpenSession _ channel | EvScpSend _ _ _ _ channel => Some channel
  | _ => None
  end.

Definition channel_of (e : event) : option Z :=
  match e with
  | EvChannelExec channel _ _ | EvRead channel _ _ _
  | EvReadStderr channel _ _ _ | EvChannelClose channel _
  | EvGetExitStatus channel _ | EvGetExitSignal channel _
  | EvChannelFree channel _ | EvWrite channel _ _ _
  | EvSendEof channel _ => Some channel
  | _ => None
  end.

(** Every call on a channel is on [current], the one that the last open
    handed out, and that one is not NULL. *)
Fixpoint on_open_channel (current : Z) (tr : trace) : bool :=
  match tr with
  | [] => true
  | e :: tr' =>
      match handed_out e, channel_of e with
      | Some channel, _ => on_open_channel channel tr'
      | None, Some channel =>
          negb (channel =? 0) && (channel =? current)
          && on_open_channel current tr'
      | None, None => on_open_channel current tr'
      end
  end.

(** The channel handed out last in a trace, [current] if none was. *)
Definition channel_after (current : Z) (tr : trace) : Z :=
  fold_left
    (fun c e => match handed_out e with Some channel => channel | None => c end)
    tr current.

(** An event that is neither an open nor a call on a channel. *)
Definition off_channel (e : event) : bool :=
  match handed_out e, channel_of e with
  | None, None => true
  | _, _ => false
  end.

(** An event that hands out no channel and is, if a call on a channel, a call
    on [channel]. *)
Definition uses (channel : Z) (e : event) : bool :=
  match handed_out e, channel_of e with
  | Some _, _ => false
  | None, Some c => c =? channel
  | None, None => true
  end.

(** ** An output of 2^30 - 1 bytes *)

(** Reads that fill the stdout buffer each time, with nothing on stderr:
    ten reads while the capacity doubles from 128 to 131072, then reads of
    65536 bytes, 2^30 - 1 bytes in all. *)
Definition doubling_reads : list Z :=
  [127; 128; 256; 512; 1024; 2048; 4096; 8192; 16384; 32768].

Definition stdout_only (reads : list Z) : list (Z * Z) :=
  map (fun rc => (rc, 0)) reads.

Definition big_output : script :=
  answers_of
    (stdout_only (doubling_reads ++ repeat 65536 (Z.to_nat 16383))).

(** The state of the loop while the capacity grows by 65536 bytes a turn:
    [m] times 65536 bytes of capacity, all but the last 65537 in use. *)
Definition linear_state (m : Z) : read_state :=
  {| out_size := 65536 * m; out_position := 65536 * (m - 1) - 1;
     err_size := 128; err_position := 0 |}.

(** [n] turns of the loop from [linear_state m], each receiving 65536
    bytes. *)
Fixpoint linear_turns (channel : Z) (m : Z) (n : nat) : trace :=
  match n with
  | O => []
  | S n' =>
      [EvRead channel (65536 * (m - 1) - 1) 65536 65536;
       EvReadStderr channel 0 127 0;
       EvRealloc OutBuffer (65536 * (m + 1))]
      ++ linear_turns channel (m + 1) n'
  end.

(** The state after the turn that fills the buffer of 2^30 bytes. *)
Definition overflowed : read_state :=
  {| out_size := INT_MIN; out_position := 2 ^ 30 - 1;
     err_size := 128; err_position := 0 |}.

(** The events of that turn, and of the turn after it when both streams are
    at their end. *)
Definition overflow_turn (channel : Z) : trace :=
  [EvRead channel (2 ^ 30 - 65537) 65536 65536;
   EvReadStderr channel 0 127 0;
   EvRealloc OutBuffer (2 ^ 64 - 2 ^ 31)].

Definition last_turn (channel : Z) : trace :=
  [EvRead channel (2 ^ 30 - 1) (2 ^ 30) 0; EvReadStderr channel 0 127 0].

(** * Properties *)

(** ** Reading runs *)

Lemma prefix_nil {A} (r : run A) : prefix [] r = r.
Proof. destruct r; reflexivity. Qed.

Lemma prefix_prefix {A} (t1 t2 : trace) (r : run A) :
  prefix t1 (prefix t2 r) = prefix (t1 ++ t2) r.
Proof. unfold prefix; simpl; now rewrite app_assoc. Qed.

Lemma fst_prefix {A} (t : trace) (r : run A) : fst (prefix t r) = t ++ fst r.
Proof. reflexivity. Qed.

Lemma snd_prefix {A} (t : trace) (r : run A) : snd (prefix t r) = snd r.
Proof. reflexivity. Qed.

Lemma bind_emit {B} (e : event) (k : unit -> prog B) (s : script) :
  bind (emit e) k s = prefix [e] (k tt s).
Proof. reflexivity. Qed.

Lemma bind_malloc {B} (b : block) (n : option Z) (k : ptr -> prog B)
    (s : script) :
  bind (malloc b n) k s = prefix [EvMalloc b n] (k (Some b) s).
Proof.
  unfold malloc, bind, emit, ret, prefix; simpl.
  now destruct (k (Some b) s).
Qed.

(** The cases of a bind, by the outcome of its first part. *)
Lemma bind_cases {A B} (c : prog A) (k : A -> prog B) (s : script) :
  (exists a s', snd (c s) = Returned a s'
                /\ bind c k s = prefix (fst (c s)) (k a s'))
  \/ (snd (c s) = Blocked /\ bind c k s = (fst (c s), Blocked))
  \/ (snd (c s) = Diverged /\ bind c k s = (fst (c s), Diverged)).
Proof.
  unfold bind. destruct (c s) as [tr [a s'| |]]; simpl; eauto.
Qed.

Ltac split_bind :=
  match goal with
  | |- context [@bind ?A ?B ?c ?k ?s] =>
      let H := fresh "Hc" in
      destruct (@bind_cases A B c k s) as [(? & ? & H & ->)|[[H ->]|[H ->]]]
  end.

(** Induction on a script for loops that read several answers per turn. *)
Lemma script_length_ind (P : script -> Prop) :
  (forall s, (forall s', (List.length s' < List.length s)%nat -> P s') -> P s) ->
  forall s, P s.
Proof.
  intros step s.
  assert (H : forall n s', (List.length s' < n)%nat -> P s').
  { induction n as [|n IH]; intros s' Hlt; [lia|].
    apply step. intros s'' Hlt'. apply IH. lia. }
  apply (H (S (List.length s))). lia.
Qed.

(** ** Opening a session *)

(** C4: when the socket is connected and the engine allocation fails, open
    should return the error side tagged INIT.  The code tests the pointer
    [session], which malloc returned, and not [session->lsession]: on no
    script does open return INIT.  With the allocation answering NULL (0) and
    the handshake then failing, open goes on to configure and handshake the
    NULL handle and returns HANDSHAKE.  The other half of the claim holds: a
    return of HANDSHAKE comes right after the teardown of close. *)
Theorem open_session_never_returns_INIT :
  (forall getaddrinfo hostname port timeout s,
      is_error INIT
        (snd (simplessh_open_session getaddrinfo hostname port timeout s))
      = false)
  /\ simplessh_open_session one_candidate "host" 22 2 [5; 1; 1; 2050; 0; -1]
     = ([EvLibInit; EvMalloc SessionBlock None; EvMalloc EitherBlock None;
         EvGetaddrinfo "host" 22 0;
         EvSocket 2 1 6 5; EvFcntlSetfl 5 2048; EvConnect 5 111;
         EvPoll 5 1 2000 1; EvRevents 1; EvFreeaddrinfo;
         EvFcntlGetfl 5 2050; EvFcntlSetfl 5 2;
         EvSessionInit 0; EvSetBlocking 0 0; EvSetTimeout 0 2000;
         EvHandshake 0 5 (-1);
         EvSessionDisconnect 0; EvSessionFree 0; EvCloseFd 5;
         EvFree SessionBlock; EvLibExit],
        Returned (LEFT HANDSHAKE) [])
  /\ (forall getaddrinfo hostname port timeout s,
         is_error HANDSHAKE
           (snd (simplessh_open_session getaddrinfo hostname port timeout s))
         = true ->
         exists tr0 session,
           fst (simplessh_open_session getaddrinfo hostname port timeout s)
           = tr0 ++ teardown session).
Proof.
  split; [|split; [reflexivity|]];
    intros getaddrinfo hostname port timeout s;
    unfold simplessh_open_session;
    rewrite bind_emit, bind_malloc, bind_malloc, !snd_prefix, ?fst_prefix;
    cbv beta.
  - split_bind; try reflexivity.
    rewrite snd_prefix.
    destruct (_ =? -1); [reflexivity|].
    split_bind; try reflexivity.
    rewrite snd_prefix. cbn [is_null].
    rewrite !bind_emit, !snd_prefix.
    split_bind; try reflexivity.
    rewrite snd_prefix.
    destruct (negb _); reflexivity.
  - split_bind; try discriminate.
    rewrite snd_prefix, fst_prefix.
    destruct (_ =? -1); [discriminate|].
    split_bind; try discriminate.
    rewrite snd_prefix, fst_prefix. cbn [is_null].
    rewrite !bind_emit, !snd_prefix, !fst_prefix.
    split_bind; try discriminate.
    rewrite snd_prefix, fst_prefix.
    destruct (negb _); [|discriminate].
    intros _. eexists _, {| sock := _; lsession := _ |}.
    match goal with
    | |- context [fst (returnLocalErrorSP ?f ?e ?s')] =>
        change (fst (returnLocalErrorSP f e s')) with (teardown f)
    end.
    rewrite !app_assoc. reflexivity.
Qed.

(** ** Events of a run *)

(** A property of single events holds along a bind when it holds along both
    parts. *)
Lemma forallb_bind {A B} (p : event -> bool) (c : prog A) (k : A -> prog B)
    (s : script) :
  forallb p (fst (c s)) = true ->
  (forall a s', forallb p (fst (k a s')) = true) ->
  forallb p (fst (bind c k s)) = true.
Proof.
  intros Hc Hk. unfold bind.
  destruct (c s) as [tr [a s'| |]]; simpl in *; auto.
  rewrite forallb_app, Hc. apply Hk.
Qed.

Lemma forallb_prefix {A} (p : event -> bool) (tr : trace) (r : run A) :
  forallb p tr = true ->
  forallb p (fst r) = true ->
  forallb p (fst (prefix tr r)) = true.
Proof. intros H1 H2. simpl. now rewrite forallb_app, H1, H2. Qed.

Lemma forallb_call (p : event -> bool) (mk : Z -> event) (s : script) :
  (forall a, p (mk a) = true) -> forallb p (fst (call mk s)) = true.
Proof. intros H. destruct s; simpl; [reflexivity|]. now rewrite H. Qed.

Lemma forallb_wait_then {A} (p : event -> bool) (fd session : Z) (s : script)
    (k : script -> run A) :
  (forall dir, p (EvBlockDirections session dir) = true) ->
  (forall n r w sec rc, p (EvSelect n r w sec rc) = true) ->
  (forall s', (List.length s' < List.length s)%nat ->
              forallb p (fst (k s')) = true) ->
  forallb p (fst (wait_then fd session s k)) = true.
Proof.
  intros Hd Hs Hk. destruct s as [|dir [|rc s']]; simpl.
  - reflexivity.
  - now rewrite Hd.
  - rewrite Hd, Hs. apply Hk. simpl. lia.
Qed.

Lemma forallb_spin (p : event -> bool) (mk : Z -> event) (s : script) :
  (forall a, p (mk a) = true) ->
  forallb p (fst (spin_while_eagain mk s)) = true.
Proof.
  intros H. induction s as [|a s IH]; simpl; [reflexivity|].
  rewrite H. destruct (a =? LIBSSH2_ERROR_EAGAIN); [apply IH|reflexivity].
Qed.

(** ** The connector *)

Lemma socket_loop_aims (res : addrinfo) (s : script) :
  forallb (aims_at res) (fst (socket_loop res s)) = true.
Proof.
  induction s as [s IH] using script_length_ind.
  destruct s as [|fd s1]; [reflexivity|].
  cbn [socket_loop]. apply forallb_prefix.
  - simpl. now rewrite !Z.eqb_refl.
  - destruct (fd =? -1); [|reflexivity].
    destruct s1 as [|errno s2]; [reflexivity|].
    apply forallb_prefix; [reflexivity|].
    destruct (errno =? EINTR); [|reflexivity].
    apply IH. simpl. lia.
Qed.

Lemma connect_loop_aims (res : addrinfo) (timeout : Z)
    (current : list addrinfo) (s : script) :
  forallb (aims_at res) (fst (connect_loop res current timeout s)) = true.
Proof.
  revert s. induction current as [|c next IH]; intros s.
  - reflexivity.
  - cbn [connect_loop]. apply forallb_bind; [apply socket_loop_aims|].
    intros fd s1. destruct (fd =? -1); [apply IH|].
    rewrite bind_emit. apply forallb_prefix.
    { simpl. now rewrite Z.eqb_refl. }
    apply forallb_bind; [now apply forallb_call|].
    intros rc s2. destruct ((rc =? 0) || (rc =? -1)).
    { rewrite bind_emit. apply forallb_prefix; [reflexivity|apply IH]. }
    apply forallb_bind; [now apply forallb_call|].
    intros revents s3.
    destruct (negb (Z.land revents (Z.lor POLLIN POLLPRI) =? 0)).
    + rewrite bind_emit. apply forallb_prefix; [reflexivity|].
      apply forallb_bind; [now apply forallb_call|].
      intros flags s4. rewrite bind_emit.
      apply forallb_prefix; reflexivity.
    + rewrite bind_emit. apply forallb_prefix; [reflexivity|apply IH].
Qed.

(** C2: every candidate should get a socket of its own family, type and
    protocol and a connect to its own address.  The loop body names [res],
    the head of the list, where it means [current]: on every script all
    sockets and connects of get_socket are those of the first candidate.
    With two candidates of which the first does not become ready, the second
    turn opens an IPv4 socket again and connects to the first address again;
    the second candidate is never tried. *)
Theorem get_socket_only_tries_first_candidate :
  (forall getaddrinfo hostname port timeout s,
      forallb (aims_at_first (gai_res (getaddrinfo hostname port)))
        (fst (get_socket getaddrinfo hostname port timeout s)) = true)
  /\ get_socket two_candidates "host" 22 2 [5; 0; 6; 0]
     = ([EvGetaddrinfo "host" 22 0;
         EvSocket 2 1 6 5; EvFcntlSetfl 5 2048; EvConnect 5 111;
         EvPoll 5 1 2000 0; EvCloseFd 5;
         EvSocket 2 1 6 6; EvFcntlSetfl 6 2048; EvConnect 6 111;
         EvPoll 6 1 2000 0; EvCloseFd 6;
         EvFreeaddrinfo],
        Returned (-1) []).
Proof.
  split; [|reflexivity].
  intros getaddrinfo hostname port timeout s.
  unfold get_socket. rewrite bind_emit.
  destruct (getaddrinfo hostname port) as [rc res]; cbn [gai_rc gai_res].
  apply forallb_prefix.
  { destruct res; reflexivity. }
  destruct (negb (rc =? 0)).
  - destruct res as [|a l]; [reflexivity|].
    rewrite bind_emit. apply forallb_prefix; reflexivity.
  - destruct res as [|a l]; [reflexivity|].
    apply connect_loop_aims.
Qed.

(** ** Waiting before a retry *)


(** The other empty-bodied loops behave alike: an authentication and a
    write that answer would-block are issued again at once. *)
Example authentication_retried_without_wait :
  simplessh_authenticate_password {| sock := 3; lsession := 1000 |}
    "user" "secret" [LIBSSH2_ERROR_EAGAIN; 0]
  = ([EvMalloc EitherBlock None;
      EvUserauthPassword 1000 LIBSSH2_ERROR_EAGAIN;
      EvUserauthPassword 1000 0],
     Returned (RIGHT {| sock := 3; lsession := 1000 |}) [])
  /\ waits_before_retry every_operation []
       (fst (simplessh_authenticate_password
               {| sock := 3; lsession := 1000 |} "user" "secret"
               [LIBSSH2_ERROR_EAGAIN; 0]))
     = false
  /\ simplessh_authenticate_key {| sock := 3; lsession := 1000 |}
       "user" "id.pub" "id" "" [-18]
     = ([EvMalloc EitherBlock None; EvUserauthPublickeyFromfile 1000 (-18)],
        Returned (LEFT AUTHENTICATION) [])
  /\ simplessh_authenticate_memory {| sock := 3; lsession := 1000 |}
       "user" "pub" 3 "priv" 4 "" [0]
     = ([EvMalloc EitherBlock None; EvUserauthPublickeyFrommemory 1000 0],
        Returned (RIGHT {| sock := 3; lsession := 1000 |}) []).
Proof. repeat split. Qed.

Example write_retried_without_wait :
  simplessh_send_file {| sock := 3; lsession := 1000 |} 420 5 "/tmp/x"
    [77; LIBSSH2_ERROR_EAGAIN; 5; 0; 0; 0]
  = ([EvMalloc TransferredCell None; EvStoreInt TransferredCell 0;
      EvMalloc EitherBlock None; EvScpSend 1000 "/tmp/x" 420 5 77;
      EvWrite 77 0 5 LIBSSH2_ERROR_EAGAIN; EvWrite 77 0 5 5;
      EvStoreInt TransferredCell 5;
      EvSendEof 77 0; EvChannelClose 77 0; EvChannelFree 77 (Some 0)],
     Returned (RIGHT 5) [])
  /\ waits_before_retry every_operation []
       (fst (simplessh_send_file {| sock := 3; lsession := 1000 |} 420 5
               "/tmp/x" [77; LIBSSH2_ERROR_EAGAIN; 5; 0; 0; 0]))
     = false.
Proof. split; reflexivity. Qed.

Lemma waits_before_retry_app (w : operation -> bool) (t1 t2 : trace) :
  forall owed,
    waits_before_retry w owed (t1 ++ t2)
    = waits_before_retry w owed t1
      && waits_before_retry w (owed_after w owed t1) t2.
Proof.
  induction t1 as [|e t1 IH]; intros owed; [reflexivity|].
  destruct e; simpl; rewrite ?IH, ?andb_assoc; reflexivity.
Qed.

Lemma owed_after_app (w : operation -> bool) (t1 t2 : trace) :
  forall owed,
    owed_after w owed (t1 ++ t2) = owed_after w (owed_after w owed t1) t2.
Proof.
  induction t1 as [|e t1 IH]; intros owed; [reflexivity|].
  destruct e; simpl; apply IH.
Qed.

Lemma reissues_nil (e : event) : reissues [] e = false.
Proof. unfold reissues. now destruct (issues e). Qed.

Lemma owe_quiet (w : operation -> bool) (owed : list operation) (e : event) :
  quiet w e = true -> owe w owed e = owed.
Proof.
  unfold quiet, owe. destruct (would_block e) as [op|]; [|reflexivity].
  now destruct (w op).
Qed.

Lemma quiet_trace (w : operation -> bool) (tr : trace) :
  forallb (quiet w) tr = true ->
  waits_before_retry w [] tr = true /\ owed_after w [] tr = [].
Proof.
  induction tr as [|e tr IH]; intros H; [now split|].
  simpl in H. apply andb_prop in H. destruct H as [He Htr].
  specialize (IH Htr).
  assert (Hq : negb (reissues [] e) && waits_before_retry w (owe w [] e) tr
               = true
               /\ owed_after w (owe w [] e) tr = []).
  { now rewrite reissues_nil, owe_quiet. }
  destruct e; simpl; auto.
Qed.

Lemma settled_ret {A} (w : operation -> bool) (a : A) (s : script) :
  settled w (ret a s).
Proof. split; reflexivity. Qed.

Lemma settled_blocked {A} (w : operation -> bool) :
  settled w (([], Blocked) : run A).
Proof. split; [reflexivity|discriminate]. Qed.

Lemma settled_prefix {A} (w : operation -> bool) (tr : trace) (r : run A) :
  forallb (quiet w) tr = true -> settled w r -> settled w (prefix tr r).
Proof.
  intros Hq [Hw Ho]. destruct (quiet_trace w tr Hq) as [Hw' Ho'].
  split.
  - rewrite fst_prefix, waits_before_retry_app, Hw', Ho'. exact Hw.
  - intros a rest Hr. rewrite fst_prefix, owed_after_app, Ho'.
    now apply Ho with a rest.
Qed.

Lemma settled_bind {A B} (w : operation -> bool) (c : prog A)
    (k : A -> prog B) (s : script) :
  settled w (c s) -> (forall a s', settled w (k a s')) ->
  settled w (bind c k s).
Proof.
  intros [Hw Ho] Hk. unfold bind.
  destruct (c s) as [tr [a s'| |]]; simpl in *.
  - destruct (Hk a s') as [Hw' Ho']. split.
    + rewrite fst_prefix, waits_before_retry_app, Hw, (Ho a s' eq_refl).
      exact Hw'.
    + intros b rest Hr.
      rewrite fst_prefix, owed_after_app, (Ho a s' eq_refl).
      now apply Ho' with b rest.
  - split; [exact Hw|discriminate].
  - split; [exact Hw|discriminate].
Qed.

Lemma settled_emit (w : operation -> bool) (e : event) (s : script) :
  quiet w e = true -> settled w (emit e s).
Proof.
  intros Hq. rewrite <- (prefix_nil (emit e s)).
  change (settled w (prefix [] (prefix [e] ([], Returned tt s)))).
  rewrite prefix_nil. apply settled_prefix; [simpl; now rewrite Hq|].
  split; reflexivity.
Qed.

Lemma settled_call (w : operation -> bool) (mk : Z -> event) (s : script) :
  (forall a, quiet w (mk a) = true) -> settled w (call mk s).
Proof.
  intros Hq. destruct s as [|a s']; [apply settled_blocked|].
  change (settled w (prefix [mk a] ([], Returned a s'))).
  apply settled_prefix; [simpl; now rewrite Hq|]. split; reflexivity.
Qed.

Lemma settled_spin (w : operation -> bool) (mk : Z -> event) (s : script) :
  (forall a, quiet w (mk a) = true) -> settled w (spin_while_eagain mk s).
Proof.
  intros Hq. induction s as [|a s IH]; [apply settled_blocked|].
  cbn [spin_while_eagain]. apply settled_prefix; [simpl; now rewrite Hq|].
  destruct (a =? LIBSSH2_ERROR_EAGAIN); [exact IH|]. split; reflexivity.
Qed.

Ltac by_event e :=
  destruct e;
  repeat match goal with o : option Z |- _ => destruct o end;
  reflexivity.

(** A wait settles whatever the event before it owed. *)
Lemma settled_owing_wait {A} (w : operation -> bool) (e : event)
    (fd session : Z) (s : script) (k : script -> run A) :
  (forall s', (List.length s' < List.length s)%nat -> settled w (k s')) ->
  settled w (prefix [e] (wait_then fd session s k)).
Proof.
  intros Hk.
  assert (Hsel : forall r : run A,
             settled w r ->
             forall dir rc,
               settled w
                 (prefix [e]
                    (prefix (fst (waitsocket fd session dir rc)) r))).
  { intros r [Hw Ho] dir rc. split.
    - rewrite prefix_prefix, fst_prefix, waits_before_retry_app.
      replace (owed_after w [] ([e] ++ fst (waitsocket fd session dir rc)))
        with (@nil operation) by (by_event e).
      rewrite Hw, andb_true_r. by_event e.
    - intros a rest Hr. rewrite prefix_prefix, fst_prefix, owed_after_app.
      replace (owed_after w [] ([e] ++ fst (waitsocket fd session dir rc)))
        with (@nil operation) by (by_event e).
      now apply Ho with a rest. }
  destruct s as [|dir [|rc s']]; cbn [wait_then].
  - split; [by_event e|discriminate].
  - split; [|discriminate].
    simpl. rewrite reissues_nil. by_event e.
  - apply Hsel. apply Hk. simpl. lia.
Qed.

Ltac settle :=
  repeat first
    [ apply settled_blocked
    | apply settled_ret
    | apply settled_emit; reflexivity
    | apply settled_call; intros; reflexivity
    | apply settled_spin; intros; reflexivity
    | apply settled_bind; [|intros ? ?]
    | progress cbv beta ].

Lemma returnLocalErrorC_settled (w : operation -> bool) (o e : ptr)
    (error : simplessh_error) (s : script) :
  settled w (returnLocalErrorC o e error s).
Proof.
  unfold returnLocalErrorC, free_if_set.
  destruct o, e; settle.
Qed.

Lemma returning_settled {R A} (w : operation -> bool) (c : prog R)
    (s : script) :
  settled w (c s) -> settled w (@returning R A c s).
Proof.
  intros H. unfold returning.
  apply settled_bind; [exact H|intros; apply settled_ret].
Qed.

Lemma quiet_not_eagain (w : operation -> bool) (e : event) (rc : Z)
    (op : operation) :
  would_block e = eagain rc op ->
  (rc =? LIBSSH2_ERROR_EAGAIN) = false ->
  forallb (quiet w) [e] = true.
Proof.
  intros He Hrc. simpl. unfold quiet. rewrite He. unfold eagain.
  now rewrite Hrc.
Qed.

Lemma open_channel_loop_settled (session : simplessh_session) (s : script) :
  settled exec_waits (open_channel_loop session s).
Proof.
  induction s as [s IH] using script_length_ind.
  destruct s as [|channel s1]; [apply settled_blocked|].
  cbn [open_channel_loop]. apply settled_prefix; [reflexivity|].
  destruct (channel =? 0); [|apply (settled_ret _ (Continue channel))].
  destruct s1 as [|e s2]; [apply settled_blocked|].
  destruct (e =? LIBSSH2_ERROR_EAGAIN) eqn:E.
  - apply settled_owing_wait. intros s' Hlt. apply IH. simpl in *. lia.
  - apply settled_prefix.
    + now apply quiet_not_eagain with e OpChannelOpen.
    + apply returning_settled, returnLocalErrorC_settled.
Qed.

Lemma channel_exec_loop_settled (session : simplessh_session) (channel : Z)
    (command : string) (s : script) :
  settled exec_waits (channel_exec_loop session channel command s).
Proof.
  induction s as [s IH] using script_length_ind.
  destruct s as [|rc s1]; [apply settled_blocked|].
  cbn [channel_exec_loop].
  destruct (rc =? LIBSSH2_ERROR_EAGAIN) eqn:E.
  - assert (Hn : negb (rc =? 0) = true)
      by (apply Z.eqb_eq in E; subst rc; reflexivity).
    rewrite Hn.
    apply settled_owing_wait. intros s' Hlt. apply IH. simpl in *. lia.
  - apply settled_prefix; [now apply quiet_not_eagain with rc OpExec|].
    destruct (negb (rc =? 0)).
    + apply returning_settled, returnLocalErrorC_settled.
    + apply (settled_ret _ (Continue tt)).
Qed.

Lemma settled_wait_then {A} (w : operation -> bool) (fd session : Z)
    (s : script) (k : script -> run A) :
  (forall s', (List.length s' < List.length s)%nat -> settled w (k s')) ->
  settled w (wait_then fd session s k).
Proof.
  intros Hk. destruct s as [|dir [|rc s']]; cbn [wait_then].
  - apply settled_blocked.
  - split; [reflexivity|discriminate].
  - apply settled_prefix; [reflexivity|]. apply Hk. simpl. lia.
Qed.

Lemma quiet_unwatched (w : operation -> bool) (e : event) (rc : Z)
    (op : operation) :
  would_block e = eagain rc op -> w op = false -> quiet w e = true.
Proof.
  intros He Hw. unfold quiet. rewrite He. unfold eagain.
  destruct (rc =? LIBSSH2_ERROR_EAGAIN); [now rewrite Hw|reflexivity].
Qed.

Lemma read_loop_settled (session : simplessh_session) (channel : Z)
    (s : script) :
  forall st, settled exec_waits (read_loop session channel st s).
Proof.
  induction s as [s IH] using script_length_ind. intros st.
  destruct s as [|rc [|rc2 s2]]; [apply settled_blocked| |].
  - split; [reflexivity|discriminate].
  - cbn [read_loop]. apply settled_prefix.
    { cbn [forallb].
      rewrite (quiet_unwatched exec_waits _ rc OpRead),
        (quiet_unwatched exec_waits _ rc2 OpReadStderr); reflexivity. }
    destruct ((rc =? 0) && (rc2 =? 0)); [apply (settled_ret _ (Continue st))|].
    destruct ((rc =? LIBSSH2_ERROR_EAGAIN) && (rc2 =? LIBSSH2_ERROR_EAGAIN)).
    { apply settled_wait_then. intros s' Hlt. apply IH. simpl in *. lia. }
    destruct (((rc <? 0) && negb (rc =? LIBSSH2_ERROR_EAGAIN))
              || ((rc2 <? 0) && negb (rc2 =? LIBSSH2_ERROR_EAGAIN))).
    { apply returning_settled, returnLocalErrorC_settled. }
    apply settled_prefix; [|apply IH; simpl; lia].
    unfold store_reads, store_read. cbn [fst].
    destruct (0 <? rc), (0 <? rc2);
      repeat match goal with
             | |- context [if ?c then _ else _] => destruct c
             end; reflexivity.
Qed.

Lemma channel_close_loop_settled (session : simplessh_session) (channel : Z)
    (s : script) :
  settled exec_waits (channel_close_loop session channel s).
Proof.
  induction s as [s IH] using script_length_ind.
  destruct s as [|rc s1]; [apply settled_blocked|].
  cbn [channel_close_loop].
  destruct (rc =? LIBSSH2_ERROR_EAGAIN) eqn:E.
  - apply settled_owing_wait. intros s' Hlt. apply IH. simpl in *. lia.
  - apply settled_prefix; [now apply quiet_not_eagain with rc OpClose|].
    apply settled_ret.
Qed.

Lemma exec_command_settled (session : simplessh_session) (command : string)
    (s : script) :
  settled exec_waits (simplessh_exec_command session command s).
Proof.
  unfold simplessh_exec_command.
  apply settled_bind; [unfold malloc; settle|intros _ s1].
  apply settled_bind; [unfold malloc; settle|intros _ s2].
  apply settled_bind; [apply open_channel_loop_settled|intros opened s3].
  destruct opened as [e|channel]; [apply settled_ret|].
  apply settled_bind; [apply channel_exec_loop_settled|intros sent s4].
  destruct sent as [e|[]]; [apply settled_ret|].
  unfold exec_on_channel.
  apply settled_bind; [|intros read s5].
  - unfold read_result.
    apply settled_bind; [unfold malloc; settle|intros _ s5].
    apply settled_bind; [unfold malloc; settle|intros _ s6].
    apply settled_bind; [apply read_loop_settled|intros r s7].
    destruct r as [e|st]; [apply settled_ret|].
    unfold terminate_buffers. settle.
  - destruct read as [e|result]; [apply settled_ret|].
    unfold close_and_collect.
    apply settled_bind; [apply channel_close_loop_settled|intros rc s6].
    destruct (rc =? 0); settle.
Qed.

Lemma settled_diverged {A} (w : operation -> bool) :
  settled w (([], Diverged) : run A).
Proof. split; [reflexivity|discriminate]. Qed.

Lemma returnLocalErrorS_settled (w : operation -> bool) (channel : Z)
    (error : simplessh_error) (s : script) :
  settled w (returnLocalErrorS channel error s).
Proof.
  unfold returnLocalErrorS. destruct (negb (channel =? 0)); settle.
Qed.

Lemma scp_send_loop_settled (session : simplessh_session) (path : string)
    (mode data_len : Z) (s : script) :
  settled send_waits (scp_send_loop session path mode data_len s).
Proof.
  induction s as [s IH] using script_length_ind.
  destruct s as [|channel s1]; [apply settled_blocked|].
  cbn [scp_send_loop]. apply settled_prefix; [reflexivity|].
  destruct (channel =? 0); [|apply (settled_ret _ (Continue channel))].
  destruct s1 as [|e s2]; [apply settled_blocked|].
  destruct (e =? LIBSSH2_ERROR_EAGAIN) eqn:E.
  - apply settled_owing_wait. intros s' Hlt. apply IH. simpl in *. lia.
  - apply settled_prefix.
    + now apply quiet_not_eagain with e OpChannelOpen.
    + apply returning_settled, returnLocalErrorS_settled.
Qed.

Lemma next_chunk_settled {A} (w : operation -> bool) (data_len transferred : Z)
    (inner : Z -> Z -> run A) (done : run A) :
  (forall n current, settled w (inner n current)) ->
  settled w done ->
  settled w (next_chunk data_len transferred inner done).
Proof.
  intros Hi Hd. unfold next_chunk.
  destruct (transferred <? data_len); [|exact Hd].
  destruct (0 <? _); [apply Hi|apply settled_diverged].
Qed.

Lemma write_loop_settled (channel data_len : Z) (s : script) :
  forall transferred n current,
    settled send_waits (write_loop channel data_len transferred n current s).
Proof.
  induction s as [|rc s IH]; intros transferred n current;
    [apply settled_blocked|].
  cbn [write_loop]. apply settled_prefix.
  { cbn [forallb].
    rewrite (quiet_unwatched send_waits _ rc OpWrite); reflexivity. }
  destruct (rc =? LIBSSH2_ERROR_EAGAIN); [apply IH|].
  destruct (rc <? 0).
  { apply returning_settled, returnLocalErrorS_settled. }
  cbv zeta. apply settled_prefix; [reflexivity|].
  destruct (0 <? _); [apply IH|].
  apply next_chunk_settled; [intros; apply IH|].
  apply (settled_ret _ (Continue _)).
Qed.

Lemma send_file_settled (session : simplessh_session) (mode data_len : Z)
    (path : string) (s : script) :
  settled send_waits (simplessh_send_file session mode data_len path s).
Proof.
  unfold simplessh_send_file.
  apply settled_bind; [unfold malloc; settle|intros _ s1].
  apply settled_bind; [settle|intros _ s2].
  apply settled_bind; [unfold malloc; settle|intros _ s3].
  apply settled_bind; [apply scp_send_loop_settled|intros opened s4].
  destruct opened as [e|channel]; [apply settled_ret|].
  apply settled_bind; [|intros written s5].
  - apply next_chunk_settled; [intros; apply write_loop_settled|].
    apply (settled_ret _ (Continue 0)).
  - destruct written as [e|transferred]; [apply settled_ret|].
    unfold finish_upload.
    apply settled_bind;
      [apply settled_spin; intros a;
       now apply quiet_unwatched with a OpSendEof|intros _ s6].
    apply settled_bind;
      [apply settled_spin; intros a;
       now apply quiet_unwatched with a OpClose|intros _ s7].
    apply settled_bind;
      [apply settled_spin; intros a;
       now apply quiet_unwatched with a OpFree|intros _ s8].
    apply settled_ret.
Qed.

Lemma land_pow2 (a n : Z) :
  0 <= n -> Z.land a (2 ^ n) = if Z.testbit a n then 2 ^ n else 0.
Proof.
  intros Hn. apply Z.bits_inj'. intros m Hm.
  rewrite Z.land_spec, Z.pow2_bits_eqb by exact Hn.
  destruct (Z.eqb_spec n m) as [->|Hne].
  - destruct (Z.testbit a m);
      [now rewrite Z.pow2_bits_eqb, Z.eqb_refl by exact Hm
      |now rewrite Z.bits_0].
  - rewrite andb_false_r.
    destruct (Z.testbit a n); [|now rewrite Z.bits_0].
    rewrite Z.pow2_bits_eqb by exact Hn. symmetry. now apply Z.eqb_neq.
Qed.

(** The directions [waitsocket] passes to [select] are those the engine
    reports blocked, and the wait is bounded by 10 seconds. *)
Lemma waitsocket_directions (fd session dir rc : Z) :
  waitsocket fd session dir rc
  = ([EvBlockDirections session dir;
      EvSelect (wrap_int (fd + 1))
        (Z.testbit dir 0) (Z.testbit dir 1) 10 rc], rc).
Proof.
  unfold waitsocket.
  change LIBSSH2_SESSION_BLOCK_INBOUND with (2 ^ 0).
  change LIBSSH2_SESSION_BLOCK_OUTBOUND with (2 ^ 1).
  rewrite !land_pow2 by lia.
  destruct (Z.testbit dir 0), (Z.testbit dir 1); reflexivity.
Qed.


(** ** The read loop of exec *)

Lemma read_phases_app (t1 t2 : trace) :
  forall p,
    read_phases p (t1 ++ t2)
    = match read_phases p t1 with
      | Some p' => read_phases p' t2
      | None => None
      end.
Proof.
  induction t1 as [|e t1 IH]; intros p; [reflexivity|].
  simpl. destruct (read_step p e); [apply IH|reflexivity].
Qed.

Lemma disciplined_prefix (channel : Z) (pre : trace)
    (r : run (flow (simplessh_either simplessh_result) read_state)) :
  read_phases AtReads pre = Some AtReads ->
  disciplined channel r -> disciplined channel (prefix pre r).
Proof.
  intros Hpre [(p & Hp & Hfin) Hend]. split.
  - exists p. rewrite fst_prefix, snd_prefix, read_phases_app, Hpre.
    now split.
  - intros st' rest Hr. rewrite snd_prefix in Hr.
    destruct (Hend st' rest Hr) as (tr0 & pos & len & pos2 & len2 & Hfst).
    exists (pre ++ tr0), pos, len, pos2, len2.
    now rewrite fst_prefix, Hfst, app_assoc.
Qed.

Lemma store_reads_phases (st : read_state) (rc rc2 : Z) :
  read_phases AtReads (fst (store_reads st rc rc2)) = Some AtReads.
Proof.
  unfold store_reads, store_read. cbn [fst].
  destruct (0 <? rc), (0 <? rc2);
    repeat match goal with
           | |- context [if ?c then _ else _] => destruct c
           end; reflexivity.
Qed.

Lemma read_loop_disciplined (session : simplessh_session) (channel : Z)
    (s : script) :
  forall st, disciplined channel (read_loop session channel st s).
Proof.
  induction s as [s IH] using script_length_ind. intros st.
  destruct s as [|rc [|rc2 s2]].
  - split.
    + exists AtReads. split; [reflexivity|].
      split; [discriminate|intros (? & ? & ?); discriminate].
    + discriminate.
  - split.
    + exists (AfterRead rc). split; [reflexivity|].
      split; [discriminate|intros (? & ? & ?); discriminate].
    + discriminate.
  - cbn [read_loop].
    destruct ((rc =? 0) && (rc2 =? 0)) eqn:Ezero.
    { apply andb_prop in Ezero. destruct Ezero as [E1 E2].
      apply Z.eqb_eq in E1, E2. subst rc rc2. split.
      - exists Finished. split; [reflexivity|].
        split; [intros _; now exists st, s2|reflexivity].
      - intros st' rest _. now exists [], (out_position st),
          (read_buflen (out_size st) (out_position st)), (err_position st),
          (read_buflen (err_size st) (err_position st)). }
    destruct ((rc =? LIBSSH2_ERROR_EAGAIN) && (rc2 =? LIBSSH2_ERROR_EAGAIN))
      eqn:Eagain.
    { destruct s2 as [|dir [|sel s3]]; cbn [wait_then].
      - split; [|discriminate].
        exists NeedDirections. split.
        + cbn. now rewrite Ezero, Eagain.
        + split; [discriminate|intros (? & ? & ?); discriminate].
      - split; [|discriminate].
        exists NeedSelect. split.
        + cbn. now rewrite Ezero, Eagain.
        + split; [discriminate|intros (? & ? & ?); discriminate].
      - rewrite prefix_prefix. apply disciplined_prefix.
        + cbn. now rewrite Ezero, Eagain.
        + apply IH. simpl. lia. }
    fold (hard_error rc). fold (hard_error rc2).
    destruct (hard_error rc || hard_error rc2) eqn:Ehard.
    { split.
      - exists Failed. split.
        + cbn. now rewrite Ezero, Eagain, Ehard.
        + split; [discriminate|intros (? & ? & ?); discriminate].
      - discriminate. }
    rewrite prefix_prefix. apply disciplined_prefix.
    + rewrite read_phases_app. cbn [read_phases read_step].
      rewrite Ezero, Eagain, Ehard. apply store_reads_phases.
    + apply IH. simpl. lia.
Qed.

(** C5: in every turn of the read loop of exec both streams are read, stdout
    then stderr; the loop ends (and exec goes on to close the channel) only
    in a turn whose two reads returned 0; a turn whose two reads both
    would block is followed by waitsocket before the next read. *)
Theorem read_loop_discipline :
  forall session channel st s,
    (exists p,
        read_phases AtReads (fst (read_loop session channel st s)) = Some p
        /\ (p = Finished
            <-> exists st' rest,
                snd (read_loop session channel st s)
                = Returned (Continue st') rest))
    /\ (forall st' rest,
           snd (read_loop session channel st s) = Returned (Continue st') rest ->
           exists tr0 pos len pos2 len2,
             fst (read_loop session channel st s)
             = tr0 ++ [EvRead channel pos len 0;
                       EvReadStderr channel pos2 len2 0]).
Proof. intros. apply read_loop_disciplined. Qed.

(** A run of the loop with a wait, a store and the final turn. *)
Lemma read_loop_discipline_witness :
  fst (read_loop {| sock := 3; lsession := 1000 |} 77 read_init
         [LIBSSH2_ERROR_EAGAIN; LIBSSH2_ERROR_EAGAIN; 1; 1; 5; 0;
          0; LIBSSH2_ERROR_EAGAIN; 0; 0])
  = [EvRead 77 0 127 LIBSSH2_ERROR_EAGAIN;
     EvReadStderr 77 0 127 LIBSSH2_ERROR_EAGAIN;
     EvBlockDirections 1000 1; EvSelect 4 true false 10 1;
     EvRead 77 0 127 5; EvReadStderr 77 0 127 0;
     EvRealloc OutBuffer 256;
     EvRead 77 5 250 0; EvReadStderr 77 0 127 LIBSSH2_ERROR_EAGAIN;
     EvRead 77 5 250 0; EvReadStderr 77 0 127 0]
  /\ exists tr0 pos len pos2 len2,
      fst (read_loop {| sock := 3; lsession := 1000 |} 77 read_init
             [LIBSSH2_ERROR_EAGAIN; LIBSSH2_ERROR_EAGAIN; 1; 1; 5; 0;
              0; LIBSSH2_ERROR_EAGAIN; 0; 0])
      = tr0 ++ [EvRead 77 pos len 0; EvReadStderr 77 pos2 len2 0].
Proof.
  split; [reflexivity|].
  apply (proj2 (read_loop_discipline
                  {| sock := 3; lsession := 1000 |} 77 read_init
                  [LIBSSH2_ERROR_EAGAIN; LIBSSH2_ERROR_EAGAIN; 1; 1; 5; 0;
                   0; LIBSSH2_ERROR_EAGAIN; 0; 0])
           {| out_size := 256; out_position := 5;
              err_size := 128; err_position := 0 |} []).
  reflexivity.
Defined.

(** ** Phases of exec and their events *)

Lemma forallb_impl (p q : event -> bool) (tr : trace) :
  (forall e, p e = true -> q e = true) ->
  forallb p tr = true -> forallb q tr = true.
Proof.
  intros Hpq. induction tr as [|e tr IH]; simpl; [reflexivity|].
  intros H. apply andb_prop in H. destruct H as [He Htr].
  now rewrite (Hpq e He), IH.
Qed.

Lemma staged_prefix {A B} (c : event -> bool) (error : simplessh_error)
    (rel pre : trace) (r : run (flow (simplessh_either A) B)) :
  forallb c pre = true -> staged c error rel r ->
  staged c error rel (prefix pre r).
Proof.
  unfold staged. rewrite snd_prefix, fst_prefix.
  intros Hpre H. destruct (snd r) as [[v|b] rest| |].
  - destruct H as [-> (tr0 & Hfst & Htr0)]. split; [reflexivity|].
    exists (pre ++ tr0). rewrite Hfst, app_assoc, forallb_app, Hpre.
    now split.
  - now rewrite forallb_app, Hpre.
  - now rewrite forallb_app, Hpre.
  - exact H.
Qed.

Lemma staged_blocked {A B} (c : event -> bool) (error : simplessh_error)
    (rel : trace) :
  staged c error rel (([], Blocked) : run (flow (simplessh_either A) B)).
Proof. reflexivity. Qed.

Lemma staged_continue {A B} (c : event -> bool) (error : simplessh_error)
    (rel : trace) (b : B) (s : script) :
  staged c error rel
    (([], Returned (Continue b) s) : run (flow (simplessh_either A) B)).
Proof. reflexivity. Qed.

Lemma staged_wait_then {A B} (c : event -> bool) (error : simplessh_error)
    (rel : trace) (fd session : Z) (s : script)
    (k : script -> run (flow (simplessh_either A) B)) :
  (forall dir, c (EvBlockDirections session dir) = true) ->
  (forall n r w sec rc, c (EvSelect n r w sec rc) = true) ->
  (forall s', (List.length s' < List.length s)%nat ->
              staged c error rel (k s')) ->
  staged c error rel (wait_then fd session s k).
Proof.
  intros Hd Hs Hk. destruct s as [|dir [|rc s']]; cbn [wait_then].
  - apply staged_blocked.
  - unfold staged; simpl. now rewrite Hd.
  - apply staged_prefix; [simpl; now rewrite Hd, Hs|].
    apply Hk. simpl. lia.
Qed.

Lemma staged_returnLocalErrorC {B} (c : event -> bool) (o e : ptr)
    (error : simplessh_error) (s : script) :
  staged c error (released o e)
    (@returning _ B (returnLocalErrorC o e error) s).
Proof.
  assert (H : @returning _ B (returnLocalErrorC o e error) s
              = (released o e, Returned (Return (LEFT error)) s))
    by (destruct o, e; reflexivity).
  rewrite H. split; [reflexivity|]. now exists [].
Qed.

Lemma open_channel_loop_staged (session : simplessh_session) (s : script) :
  staged setup_call CHANNEL_OPEN (released None None)
    (open_channel_loop session s).
Proof.
  induction s as [s IH] using script_length_ind.
  destruct s as [|channel s1]; [apply staged_blocked|].
  cbn [open_channel_loop]. apply staged_prefix; [reflexivity|].
  destruct (channel =? 0); [|apply staged_continue].
  destruct s1 as [|e s2]; [apply staged_blocked|].
  apply staged_prefix; [reflexivity|].
  destruct (e =? LIBSSH2_ERROR_EAGAIN).
  - apply staged_wait_then; try reflexivity.
    intros s' Hlt. apply IH. simpl in *. lia.
  - apply staged_returnLocalErrorC.
Qed.

Lemma channel_exec_loop_staged (session : simplessh_session) (channel : Z)
    (command : string) (s : script) :
  staged setup_call CHANNEL_EXEC (released None None)
    (channel_exec_loop session channel command s).
Proof.
  induction s as [s IH] using script_length_ind.
  destruct s as [|rc s1]; [apply staged_blocked|].
  cbn [channel_exec_loop]. apply staged_prefix; [reflexivity|].
  destruct (negb (rc =? 0)); [|apply staged_continue].
  destruct (rc =? LIBSSH2_ERROR_EAGAIN).
  - apply staged_wait_then; try reflexivity.
    intros s' Hlt. apply IH. simpl in *. lia.
  - apply staged_returnLocalErrorC.
Qed.

Lemma store_reads_calls (st : read_state) (rc rc2 : Z) :
  forallb reading_call (fst (store_reads st rc rc2)) = true.
Proof.
  unfold store_reads, store_read. cbn [fst].
  destruct (0 <? rc), (0 <? rc2);
    repeat match goal with
           | |- context [if ?c then _ else _] => destruct c
           end; reflexivity.
Qed.

Lemma read_loop_staged (session : simplessh_session) (channel : Z)
    (s : script) :
  forall st,
    staged reading_call READ (released (Some OutBuffer) (Some ErrBuffer))
      (read_loop session channel st s).
Proof.
  induction s as [s IH] using script_length_ind. intros st.
  destruct s as [|rc [|rc2 s2]]; [apply staged_blocked|reflexivity|].
  cbn [read_loop]. apply staged_prefix; [reflexivity|].
  destruct ((rc =? 0) && (rc2 =? 0)); [apply staged_continue|].
  destruct ((rc =? LIBSSH2_ERROR_EAGAIN) && (rc2 =? LIBSSH2_ERROR_EAGAIN)).
  { apply staged_wait_then; try reflexivity.
    intros s' Hlt. apply IH. simpl in *. lia. }
  destruct (((rc <? 0) && negb (rc =? LIBSSH2_ERROR_EAGAIN))
            || ((rc2 <? 0) && negb (rc2 =? LIBSSH2_ERROR_EAGAIN))).
  { apply staged_returnLocalErrorC. }
  apply staged_prefix; [apply store_reads_calls|].
  apply IH. simpl. lia.
Qed.

(** A run of exec either ends in the setup of the channel, blocked or with
    CHANNEL_OPEN or CHANNEL_EXEC, or it is the setup followed by
    [exec_on_channel]. *)
Lemma exec_command_setup (session : simplessh_session) (command : string)
    (s : script) :
  (exists tr,
      fst (simplessh_exec_command session command s) = exec_mallocs ++ tr
      /\ forallb (fun e => setup_call e || is_free e) tr = true
      /\ (snd (simplessh_exec_command session command s) = Blocked
          \/ exists e rest,
              snd (simplessh_exec_command session command s)
              = Returned (LEFT e) rest
              /\ (e = CHANNEL_OPEN \/ e = CHANNEL_EXEC)))
  \/ (exists tr channel s',
         forallb setup_call tr = true
         /\ simplessh_exec_command session command s
            = prefix (exec_mallocs ++ tr)
                (exec_on_channel session channel empty_result s')).
Proof.
  assert (Hfree : forall tr0,
             forallb setup_call tr0 = true ->
             forallb (fun e => setup_call e || is_free e)
               (tr0 ++ released None None) = true).
  { intros tr0 H. rewrite forallb_app.
    rewrite (forallb_impl setup_call _ tr0); [reflexivity| |exact H].
    intros e He. now rewrite He. }
  assert (Hcall : forall tr0,
             forallb setup_call tr0 = true ->
             forallb (fun e => setup_call e || is_free e) tr0 = true).
  { intros tr0 H. apply forallb_impl with setup_call; [|exact H].
    intros e He. now rewrite He. }
  unfold simplessh_exec_command. rewrite !bind_malloc. cbv beta zeta.
  pose proof (open_channel_loop_staged session s) as Hopen.
  unfold staged in Hopen.
  split_bind; rewrite Hc in Hopen.
  - destruct x as [v|channel].
    + destruct Hopen as [-> (tr0 & Hfst & Htr0)]. left.
      exists (tr0 ++ released None None). rewrite Hfst. cbn.
      rewrite app_nil_r. repeat split; [now apply Hfree|].
      right. now exists CHANNEL_OPEN, x0; auto.
    + pose proof (channel_exec_loop_staged session channel command x0)
        as Hexec.
      unfold staged in Hexec.
      split_bind; rewrite Hc0 in Hexec.
      * destruct x as [v|[]].
        -- destruct Hexec as [-> (tr0 & Hfst & Htr0)]. left.
           exists (fst (open_channel_loop session s)
                   ++ tr0 ++ released None None).
           rewrite Hfst. cbn. rewrite app_nil_r. repeat split.
           ++ rewrite forallb_app, Hcall by exact Hopen. now apply Hfree.
           ++ right. now exists CHANNEL_EXEC, x1; auto.
        -- right.
           exists (fst (open_channel_loop session s)
                   ++ fst (channel_exec_loop session channel command x0)),
             channel, x1.
           split; [now rewrite forallb_app, Hopen, Hexec|].
           now rewrite !prefix_prefix, app_assoc.
      * left.
        exists (fst (open_channel_loop session s)
                ++ fst (channel_exec_loop session channel command x0)).
        cbn. repeat split; [|now left].
        now rewrite forallb_app, !Hcall.
      * destruct Hexec.
  - left. exists (fst (open_channel_loop session s)). cbn.
    repeat split; [now apply Hcall|now left].
  - destruct Hopen.
Qed.

(** [read_result] by the outcome of its loop. *)
Lemma read_result_cases (session : simplessh_session) (channel : Z)
    (result : simplessh_result) (s : script) :
  read_result session channel result s
  = match snd (read_loop session channel read_init s) with
    | Returned (Return v) rest =>
        (buffer_mallocs ++ fst (read_loop session channel read_init s),
         Returned (Return v) rest)
    | Returned (Continue st) rest =>
        (buffer_mallocs ++ fst (read_loop session channel read_init s)
         ++ terminated st,
         Returned (Continue (with_buffers result)) rest)
    | Blocked =>
        (buffer_mallocs ++ fst (read_loop session channel read_init s),
         Blocked)
    | Diverged =>
        (buffer_mallocs ++ fst (read_loop session channel read_init s),
         Diverged)
    end.
Proof.
  unfold read_result. rewrite !bind_malloc. cbv beta. unfold bind at 1.
  destruct (read_loop session channel read_init s) as [tr [[v|st] rest| |]];
    unfold terminate_buffers, bind, emit, ret, prefix; cbn;
    rewrite ?app_nil_r; reflexivity.
Qed.

(** [exec_on_channel] by the outcome of the read loop. *)
Lemma exec_on_channel_cases (session : simplessh_session) (channel : Z)
    (result : simplessh_result) (s : script) :
  exec_on_channel session channel result s
  = match snd (read_loop session channel read_init s) with
    | Returned (Return v) rest =>
        (buffer_mallocs ++ fst (read_loop session channel read_init s),
         Returned v rest)
    | Returned (Continue st) rest =>
        prefix (buffer_mallocs
                ++ fst (read_loop session channel read_init s)
                ++ terminated st)
          (close_and_collect session channel (with_buffers result) rest)
    | Blocked =>
        (buffer_mallocs ++ fst (read_loop session channel read_init s),
         Blocked)
    | Diverged =>
        (buffer_mallocs ++ fst (read_loop session channel read_init s),
         Diverged)
    end.
Proof.
  unfold exec_on_channel, bind at 1. rewrite read_result_cases.
  destruct (snd (read_loop session channel read_init s)) as [[v|st] rest| |];
    try reflexivity.
  unfold ret, prefix. cbn. now rewrite app_nil_r.
Qed.

(** ** A failed read *)

Lemma read_failed_without_reads (t : trace) :
  forallb (fun e => negb (is_read e)) t = true -> read_failed t = false.
Proof.
  induction t as [|e t IH]; [reflexivity|].
  cbn [forallb]. intros H. apply andb_prop in H. destruct H as [He Ht].
  cbn [read_failed]. rewrite (IH Ht). now destruct e.
Qed.

Lemma read_failed_after (t1 t2 : trace) :
  forallb (fun e => negb (is_read e)) t1 = true ->
  read_failed (t1 ++ t2) = read_failed t2.
Proof.
  induction t1 as [|e t1 IH]; [reflexivity|].
  cbn [forallb]. intros H. apply andb_prop in H. destruct H as [He Ht].
  cbn [app read_failed]. rewrite (IH Ht). now destruct e.
Qed.

Lemma read_failed_before (t1 t2 : trace) :
  forallb (fun e => negb (is_read e)) t2 = true ->
  read_failed (t1 ++ t2) = read_failed t1.
Proof.
  intros H2. induction t1 as [|e t1 IH].
  - now apply read_failed_without_reads.
  - cbn [app read_failed]. rewrite IH. f_equal.
    destruct e; try reflexivity.
    destruct t1 as [|e1 t1]; [|reflexivity].
    destruct t2 as [|e2 t2]; [reflexivity|].
    cbn [forallb] in H2. apply andb_prop in H2. destruct H2 as [He2 _].
    now destruct e2.
Qed.

Lemma setup_has_no_reads (tr : trace) :
  forallb (fun e => setup_call e || is_free e) tr = true ->
  forallb (fun e => negb (is_read e)) tr = true.
Proof. apply forallb_impl. intros e. now destruct e. Qed.

Lemma store_reads_reallocs (st : read_state) (rc rc2 : Z) :
  forallb is_realloc (fst (store_reads st rc rc2)) = true.
Proof.
  unfold store_reads, store_read. cbn [fst].
  destruct (0 <? rc), (0 <? rc2);
    repeat match goal with
           | |- context [if ?c then _ else _] => destruct c
           end; reflexivity.
Qed.

(** A failed turn makes the read loop leave the function. *)
Lemma read_loop_failed (session : simplessh_session) (channel : Z)
    (s : script) :
  forall st,
    read_failed (fst (read_loop session channel st s)) = true ->
    exists v rest,
      snd (read_loop session channel st s) = Returned (Return v) rest.
Proof.
  induction s as [s IH] using script_length_ind. intros st.
  destruct s as [|rc [|rc2 s2]]; [discriminate|discriminate|].
  cbn [read_loop]. rewrite fst_prefix, snd_prefix.
  cbn [app read_failed]. rewrite orb_false_l.
  fold (hard_error rc). fold (hard_error rc2).
  destruct ((rc =? 0) && (rc2 =? 0)) eqn:Ezero.
  { apply andb_prop in Ezero. destruct Ezero as [E1 E2].
    apply Z.eqb_eq in E1, E2. subst. discriminate. }
  destruct ((rc =? LIBSSH2_ERROR_EAGAIN) && (rc2 =? LIBSSH2_ERROR_EAGAIN))
    eqn:Eagain.
  { apply andb_prop in Eagain. destruct Eagain as [E1 E2].
    apply Z.eqb_eq in E1, E2. subst.
    destruct s2 as [|dir [|sel s3]]; [discriminate|discriminate|].
    cbn [wait_then]. rewrite fst_prefix, snd_prefix.
    cbn -[read_loop]. apply IH. simpl. lia. }
  destruct (hard_error rc || hard_error rc2) eqn:Ehard.
  { intros _. now eexists _, _. }
  rewrite fst_prefix, snd_prefix, orb_false_l.
  rewrite read_failed_after.
  - apply IH. simpl. lia.
  - apply forallb_impl with is_realloc.
    + intros e. now destruct e.
    + apply store_reads_reallocs.
Qed.

Lemma live_blocks_app (t1 t2 : trace) :
  forall live,
    live_blocks live (t1 ++ t2) = live_blocks (live_blocks live t1) t2.
Proof.
  induction t1 as [|e t1 IH]; intros live; [reflexivity|].
  destruct e; simpl; apply IH.
Qed.

Lemma live_blocks_kept (tr : trace) :
  forall live, forallb keeps_heap tr = true -> live_blocks live tr = live.
Proof.
  induction tr as [|e tr IH]; intros live H; [reflexivity|].
  cbn [forallb] in H. apply andb_prop in H. destruct H as [He Htr].
  destruct e; try discriminate; simpl; now apply IH.
Qed.

Lemma channel_close_loop_calls (session : simplessh_session) (channel : Z)
    (s : script) :
  forallb closing_call (fst (channel_close_loop session channel s)) = true.
Proof.
  induction s as [s IH] using script_length_ind.
  destruct s as [|rc s1]; [reflexivity|].
  cbn [channel_close_loop]. apply forallb_prefix; [reflexivity|].
  destruct (rc =? LIBSSH2_ERROR_EAGAIN); [|reflexivity].
  apply forallb_wait_then; try reflexivity.
  intros s' Hlt. apply IH. simpl in *. lia.
Qed.

Lemma close_and_collect_calls (session : simplessh_session) (channel : Z)
    (result : simplessh_result) (s : script) :
  forallb closing_call (fst (close_and_collect session channel result s))
  = true.
Proof.
  unfold close_and_collect.
  apply forallb_bind; [apply channel_close_loop_calls|intros rc s1].
  apply forallb_bind; [|intros result' s2].
  - destruct (rc =? 0); [|reflexivity].
    apply forallb_bind; [now apply forallb_call|intros code s2].
    apply forallb_bind; [now apply forallb_call|intros signal s3].
    reflexivity.
  - rewrite bind_emit. apply forallb_prefix; reflexivity.
Qed.



(** ** Closing the channel *)

(** What the close loop leaves: it never diverges; when it returns, its
    code is not the would-block code and is that of its last event; a close
    that did not answer would-block ends the loop; its other events are the
    calls of waitsocket. *)
Lemma channel_close_loop_spec (session : simplessh_session) (channel : Z)
    (s : script) :
  snd (channel_close_loop session channel s) <> Diverged
  /\ (forall rc rest,
         snd (channel_close_loop session channel s) = Returned rc rest ->
         rc <> LIBSSH2_ERROR_EAGAIN
         /\ exists tr0,
             fst (channel_close_loop session channel s)
             = tr0 ++ [EvChannelClose channel rc])
  /\ (forall ch rc,
         In (EvChannelClose ch rc)
            (fst (channel_close_loop session channel s)) ->
         rc <> LIBSSH2_ERROR_EAGAIN ->
         exists rest,
           snd (channel_close_loop session channel s) = Returned rc rest).
Proof.
  induction s as [s IH] using script_length_ind.
  destruct s as [|rc0 s1].
  { repeat split; try discriminate. intros ch rc []. }
  cbn [channel_close_loop]. rewrite fst_prefix, snd_prefix.
  destruct (rc0 =? LIBSSH2_ERROR_EAGAIN) eqn:E.
  - apply Z.eqb_eq in E. subst rc0.
    destruct s1 as [|dir [|sel s2]]; cbn [wait_then].
    + repeat split; try discriminate.
      intros ch rc [H|[]] Hne. inversion H; subst. now elim Hne.
    + repeat split; try discriminate.
      intros ch rc [H|[H|[]]] Hne; [|discriminate].
      inversion H; subst. now elim Hne.
    + rewrite fst_prefix, snd_prefix.
      destruct (IH s2) as (Hdiv & Hret & Hin); [simpl; lia|].
      split; [exact Hdiv|split].
      * intros rc rest Hr. destruct (Hret rc rest Hr) as [Hne [tr0 Htr0]].
        split; [exact Hne|].
        exists ([EvChannelClose channel LIBSSH2_ERROR_EAGAIN]
                ++ fst (waitsocket (sock session) (lsession session) dir sel)
                ++ tr0).
        rewrite Htr0. now rewrite <- !app_assoc.
      * intros ch rc H Hne. apply Hin with ch; [|exact Hne].
        destruct H as [H|[H|[H|H]]]; try discriminate; [|exact H].
        inversion H; subst. now elim Hne.
  - apply Z.eqb_neq in E. split; [discriminate|split].
    + intros rc rest Hr. inversion Hr; subst. split; [exact E|].
      now exists [].
    + intros ch rc [H|[]] _. inversion H; subst. now exists s1.
Qed.

(** [close_and_collect] by the outcome of its loop. *)
Lemma close_and_collect_cases (session : simplessh_session) (channel : Z)
    (result : simplessh_result) (s : script) :
  close_and_collect session channel result s
  = match channel_close_loop session channel s with
    | (tr, Returned rc rest) =>
        if rc =? 0 then
          match rest with
          | status :: signal :: rest' =>
              (tr ++ [EvGetExitStatus channel status;
                      EvGetExitSignal channel signal;
                      EvChannelFree channel None],
               Returned (RIGHT {| out := out result; err := err result;
                                  exit_code := status;
                                  exit_signal := signal |}) rest')
          | [status] => (tr ++ [EvGetExitStatus channel status], Blocked)
          | [] => (tr, Blocked)
          end
        else (tr ++ [EvChannelFree channel None],
              Returned (RIGHT result) rest)
    | (tr, Blocked) => (tr, Blocked)
    | (tr, Diverged) => (tr, Diverged)
    end.
Proof.
  unfold close_and_collect, bind at 1.
  destruct (channel_close_loop session channel s) as [tr [rc rest| |]];
    try reflexivity.
  destruct (rc =? 0); [|reflexivity].
  destruct rest as [|status [|signal rest']];
    unfold bind, call, emit, ret, prefix; cbn;
    rewrite ?app_nil_r; reflexivity.
Qed.

Lemma channel_close_loop_own_calls (session : simplessh_session)
    (channel : Z) (s : script) :
  forallb close_loop_call (fst (channel_close_loop session channel s)) = true.
Proof.
  induction s as [s IH] using script_length_ind.
  destruct s as [|rc s1]; [reflexivity|].
  cbn [channel_close_loop]. apply forallb_prefix; [reflexivity|].
  destruct (rc =? LIBSSH2_ERROR_EAGAIN); [|reflexivity].
  apply forallb_wait_then; try reflexivity.
  intros s' Hlt. apply IH. simpl in *. lia.
Qed.

Lemma In_forallb (p : event -> bool) (e : event) (tr : trace) :
  In e tr -> forallb p tr = true -> p e = true.
Proof. intros Hin H. rewrite forallb_forall in H. now apply H. Qed.

(** From the close loop to the return: the value returned is the success
    side; a close that failed, or a fetched signal, is followed by the
    return without a further answer. *)
Lemma close_and_collect_spec (session : simplessh_session) (channel : Z)
    (result : simplessh_result) (s : script) :
  (forall v rest,
      snd (close_and_collect session channel result s) = Returned v rest ->
      (exists tr0 status signal,
          fst (close_and_collect session channel result s)
          = tr0 ++ [EvChannelClose channel 0;
                    EvGetExitStatus channel status;
                    EvGetExitSignal channel signal;
                    EvChannelFree channel None]
          /\ v = RIGHT {| out := out result; err := err result;
                          exit_code := status; exit_signal := signal |})
      \/ (exists tr0 rc,
             rc <> 0
             /\ fst (close_and_collect session channel result s)
                = tr0 ++ [EvChannelClose channel rc;
                          EvChannelFree channel None]
             /\ v = RIGHT result))
  /\ (forall ch rc,
         In (EvChannelClose ch rc)
            (fst (close_and_collect session channel result s)) ->
         rc <> LIBSSH2_ERROR_EAGAIN -> rc <> 0 ->
         exists rest,
           snd (close_and_collect session channel result s)
           = Returned (RIGHT result) rest)
  /\ (forall ch signal,
         In (EvGetExitSignal ch signal)
            (fst (close_and_collect session channel result s)) ->
         exists status rest,
           snd (close_and_collect session channel result s)
           = Returned (RIGHT {| out := out result; err := err result;
                                exit_code := status;
                                exit_signal := signal |}) rest).
Proof.
  rewrite close_and_collect_cases.
  destruct (channel_close_loop_spec session channel s) as (Hdiv & Hret & Hin).
  pose proof (channel_close_loop_own_calls session channel s) as Hcalls.
  destruct (channel_close_loop session channel s) as [tr [rc0 rest0| |]];
    cbn [fst snd] in *.
  - destruct (Hret rc0 rest0 eq_refl) as [Hne [tr0 ->]].
    destruct (rc0 =? 0) eqn:E0.
    + apply Z.eqb_eq in E0. subst rc0.
      assert (Hclose : forall ch rc t,
                 In (EvChannelClose ch rc)
                    ((tr0 ++ [EvChannelClose channel 0]) ++ t) ->
                 forallb (fun e => negb (close_loop_call e)) t = true ->
                 rc <> LIBSSH2_ERROR_EAGAIN -> rc = 0).
      { intros ch rc t H Ht Hrc. apply in_app_or in H. destruct H as [H|H].
        - destruct (Hin ch rc H Hrc) as [rest H']. now inversion H'.
        - now apply In_forallb with (p := fun e => negb (close_loop_call e))
            in H. }
      assert (Hsig : forall ch signal,
                 ~ In (EvGetExitSignal ch signal)
                      (tr0 ++ [EvChannelClose channel 0])).
      { intros ch signal H.
        now apply In_forallb with (p := close_loop_call) in H. }
      destruct rest0 as [|status [|signal rest']]; cbn [fst snd].
      * split; [discriminate|split].
        -- intros ch rc H Hrc Hz. rewrite <- (app_nil_r (_ ++ _)) in H.
           now elim Hz; apply Hclose with ch [].
        -- intros ch signal H. now apply Hsig in H.
      * split; [discriminate|split].
        -- intros ch rc H Hrc Hz.
           now elim Hz; apply Hclose with ch [EvGetExitStatus channel status].
        -- intros ch signal H. apply in_app_or in H.
           destruct H as [H|[H|[]]]; [now apply Hsig in H|discriminate].
      * split; [|split].
        -- intros v rest Hr. inversion Hr; subst. left.
           exists tr0, status, signal. now rewrite <- app_assoc.
        -- intros ch rc H Hrc Hz.
           now elim Hz; apply Hclose
             with ch [EvGetExitStatus channel status;
                      EvGetExitSignal channel signal;
                      EvChannelFree channel None].
        -- intros ch sig H. apply in_app_or in H.
           destruct H as [H|[H|[H|[H|[]]]]]; try discriminate;
             [now apply Hsig in H|].
           inversion H; subst. now exists status, rest'.
    + apply Z.eqb_neq in E0. cbn [fst snd]. split; [|split].
      * intros v rest Hr. inversion Hr; subst. right.
        exists tr0, rc0. now rewrite <- app_assoc.
      * intros ch rc H Hrc Hz. now exists rest0.
      * intros ch signal H. apply in_app_or in H.
        destruct H as [H|[H|[]]]; [|discriminate].
        now apply In_forallb with (p := close_loop_call) in H.
  - split; [discriminate|split].
    + intros ch rc H Hrc Hz. destruct (Hin ch rc H Hrc). discriminate.
    + intros ch signal H.
      now apply In_forallb with (p := close_loop_call) in H.
  - now elim Hdiv.
Qed.

Lemma before_close_app (t1 t2 : trace) :
  forallb before_close t1 = true -> forallb before_close t2 = true ->
  forallb before_close (t1 ++ t2) = true.
Proof. intros H1 H2. now rewrite forallb_app, H1, H2. Qed.

Lemma setup_before_close (tr : trace) :
  forallb (fun e => setup_call e || is_free e) tr = true ->
  forallb before_close tr = true.
Proof. apply forallb_impl. intros e. now destruct e. Qed.

Lemma setup_calls_before_close (tr : trace) :
  forallb setup_call tr = true -> forallb before_close tr = true.
Proof. apply forallb_impl. intros e. now destruct e. Qed.

Lemma reading_before_close (tr : trace) :
  forallb reading_call tr = true -> forallb before_close tr = true.
Proof. apply forallb_impl. intros e. now destruct e. Qed.

Lemma exit_code_law_before_close (tr : trace)
    (o : outcome (simplessh_either simplessh_result)) :
  forallb before_close tr = true ->
  (forall res rest, o <> Returned (RIGHT res) rest) ->
  exit_code_law (tr, o).
Proof.
  intros Htr Ho. unfold exit_code_law. cbn [fst snd]. split; [|split].
  - intros r rest Hr. now elim (Ho r rest).
  - intros channel rc H. now apply In_forallb with (p := before_close) in H.
  - intros channel signal H.
    now apply In_forallb with (p := before_close) in H.
Qed.

Ltac close_free :=
  repeat first
    [ apply before_close_app
    | reflexivity
    | assumption
    | apply setup_calls_before_close; assumption
    | apply setup_before_close; assumption
    | apply reading_before_close; assumption ].

(** C7: when exec returns the success side, either the channel close
    returned 0 and the exit code and signal of the result are the ones
    fetched right after it, or the close returned another code and the
    result keeps the exit code 127 and no signal.  A close that fails is
    followed by the success return, and so is a fetched signal: the outcome
    of the close never turns the result into an error. *)
Theorem exec_exit_code_is_status_or_127 :
  forall session command s,
    (forall r rest,
        snd (simplessh_exec_command session command s)
        = Returned (RIGHT r) rest ->
        (exists tr0 channel status signal,
            fst (simplessh_exec_command session command s)
            = tr0 ++ [EvChannelClose channel 0;
                      EvGetExitStatus channel status;
                      EvGetExitSignal channel signal;
                      EvChannelFree channel None]
            /\ exit_code r = status /\ exit_signal r = signal)
        \/ (exists tr0 channel rc,
               rc <> 0
               /\ fst (simplessh_exec_command session command s)
                  = tr0 ++ [EvChannelClose channel rc;
                            EvChannelFree channel None]
               /\ exit_code r = 127 /\ exit_signal r = 0))
    /\ (forall channel rc,
           In (EvChannelClose channel rc)
              (fst (simplessh_exec_command session command s)) ->
           rc <> LIBSSH2_ERROR_EAGAIN -> rc <> 0 ->
           exists r rest,
             snd (simplessh_exec_command session command s)
             = Returned (RIGHT r) rest
             /\ exit_code r = 127 /\ exit_signal r = 0)
    /\ (forall channel signal,
           In (EvGetExitSignal channel signal)
              (fst (simplessh_exec_command session command s)) ->
           exists r rest,
             snd (simplessh_exec_command session command s)
             = Returned (RIGHT r) rest
             /\ exit_signal r = signal).
Proof.
  intros session command s.
  change (exit_code_law (simplessh_exec_command session command s)).
  destruct (exec_command_setup session command s)
    as [(tr & Hfst & Htr & Hout)|(tr & channel & s' & Htr & Heq)].
  { destruct (simplessh_exec_command session command s) as [tr' o] eqn:Hrun.
    cbn [fst snd] in Hfst, Hout. subst tr'.
    apply exit_code_law_before_close; [close_free|].
    intros r rest ->. destruct Hout as [H|(e & rest' & H & _)];
      discriminate. }
  pose proof (read_loop_staged session channel s' read_init) as Hst.
  unfold staged in Hst.
  rewrite exec_on_channel_cases in Heq. rewrite Heq. clear Heq.
  destruct (snd (read_loop session channel read_init s'))
    as [[v|st] rest| |].
  - destruct Hst as [-> (tr0 & Hfst & Htr0)].
    unfold prefix; cbn [fst snd].
    apply exit_code_law_before_close; [|discriminate].
    rewrite Hfst. close_free.
  - rewrite prefix_prefix.
    set (pre := (exec_mallocs ++ tr)
                ++ buffer_mallocs
                ++ fst (read_loop session channel read_init s')
                ++ terminated st) in *.
    assert (Hpre : forallb before_close pre = true)
      by (unfold pre; close_free).
    destruct (close_and_collect_spec session channel
                (with_buffers empty_result) rest) as (Hret & Hclose & Hsig).
    unfold exit_code_law.
    rewrite fst_prefix, snd_prefix. split; [|split].
    + intros r rest' Hr.
      destruct (Hret _ _ Hr)
        as [(tr0 & status & signal & Hfst & Hv)
           |(tr0 & rc & Hrc & Hfst & Hv)].
      * left. exists (pre ++ tr0), channel, status, signal.
        rewrite Hfst, app_assoc. inversion Hv; subst. now repeat split.
      * right. exists (pre ++ tr0), channel, rc.
        rewrite Hfst, app_assoc. inversion Hv; subst. now repeat split.
    + intros ch rc H Hrc Hz. apply in_app_or in H. destruct H as [H|H].
      { now apply In_forallb with (p := before_close) in H. }
      destruct (Hclose ch rc H Hrc Hz) as [rest' Hr].
      now exists (with_buffers empty_result), rest'.
    + intros ch signal H. apply in_app_or in H. destruct H as [H|H].
      { now apply In_forallb with (p := before_close) in H. }
      destruct (Hsig ch signal H) as (status & rest' & Hr).
      now eexists _, rest'; split; [exact Hr|].
  - unfold prefix; cbn [fst snd].
    apply exit_code_law_before_close; [close_free|discriminate].
  - destruct Hst.
Qed.

(** A clean close that fetches status 0 and a signal, and a close that
    fails with -7. *)
Lemma exec_exit_code_is_status_or_127_witness :
  (simplessh_exec_command {| sock := 3; lsession := 1000 |} "true"
     [77; 0; 0; 0; 0; 0; 9]
   = ([EvMalloc ResultBlock None; EvMalloc EitherBlock None;
       EvChannelOpenSession 1000 77; EvChannelExec 77 "true" 0;
       EvMalloc OutBuffer (Some 128); EvMalloc ErrBuffer (Some 128);
       EvRead 77 0 127 0; EvReadStderr 77 0 127 0;
       EvStoreByte OutBuffer 0 0; EvRealloc OutBuffer 1;
       EvStoreByte ErrBuffer 0 0; EvRealloc ErrBuffer 1;
       EvChannelClose 77 0; EvGetExitStatus 77 0; EvGetExitSignal 77 9;
       EvChannelFree 77 None],
      Returned (RIGHT {| out := Some OutBuffer; err := Some ErrBuffer;
                         exit_code := 0; exit_signal := 9 |}) []))
  /\ exists r rest,
      snd (simplessh_exec_command {| sock := 3; lsession := 1000 |} "true"
             [77; 0; 0; 0; -7])
      = Returned (RIGHT r) rest
      /\ exit_code r = 127 /\ exit_signal r = 0.
Proof.
  split; [reflexivity|].
  apply (proj1 (proj2 (exec_exit_code_is_status_or_127
                         {| sock := 3; lsession := 1000 |} "true"
                         [77; 0; 0; 0; -7])) 77 (-7));
    [|discriminate|discriminate].
  cbn. tauto.
Defined.

(** ** The output buffers *)

Lemma wrap_int_small (z : Z) : INT_MIN <= z <= INT_MAX -> wrap_int z = z.
Proof.
  unfold INT_MIN, INT_MAX, wrap_int. intros H.
  rewrite Z.mod_small; lia.
Qed.

Lemma wrap_size_small (z : Z) : 0 <= z < 2 ^ 64 -> wrap_size z = z.
Proof. unfold wrap_size. intros H. now apply Z.mod_small. Qed.

Lemma min_spec (a b : Z) : min a b = Z.min a b.
Proof. unfold min. destruct (Z.ltb_spec a b); lia. Qed.

(** The update of one buffer after a read that returned [rc > 0] bytes, no
    more than asked for, while the doubled size is an [int]. *)
Lemma store_read_grows (b : block) (size position rc : Z) :
  0 <= position -> 0 < rc -> rc <= size - position - 1 ->
  2 * size <= INT_MAX ->
  store_read b size position rc
  = if size - (position + rc) <? 1024
    then ([EvRealloc b (Z.min (2 * size) (size + 65536))],
          (Z.min (2 * size) (size + 65536), position + rc))
    else ([], (size, position + rc)).
Proof.
  unfold INT_MAX. intros Hpos Hrc Hlen Hsize. unfold store_read.
  assert (Hlt : (0 <? rc) = true) by now apply Z.ltb_lt.
  rewrite Hlt.
  rewrite (wrap_int_small (position + rc)) by (unfold INT_MIN, INT_MAX; lia).
  rewrite (wrap_int_small (size - (position + rc)))
    by (unfold INT_MIN, INT_MAX; lia).
  destruct (size - (position + rc) <? 1024); [|reflexivity].
  rewrite (wrap_int_small (size * 2)) by (unfold INT_MIN, INT_MAX; lia).
  rewrite (wrap_int_small (size + 65536)) by (unfold INT_MIN, INT_MAX; lia).
  rewrite min_spec. replace (size * 2) with (2 * size) by lia.
  rewrite wrap_size_small; [reflexivity|]. lia.
Qed.

Lemma store_read_inv (b : block) (size position rc : Z) :
  buffer_inv size position -> 0 < rc -> rc <= size - position - 1 ->
  position + rc < output_limit ->
  buffer_inv (fst (snd (store_read b size position rc)))
             (snd (snd (store_read b size position rc)))
  /\ snd (snd (store_read b size position rc)) = position + rc.
Proof.
  unfold output_limit. intros (Hmin & Hpos & Hmax) Hrc Hlen Hlim.
  rewrite store_read_grows by (unfold INT_MAX; lia).
  unfold buffer_inv.
  destruct (Z.ltb_spec (size - (position + rc)) 1024); cbn [fst snd]; lia.
Qed.

Lemma monitor_app (ok : capacities -> event -> bool) (t1 t2 : trace) :
  forall caps,
    monitor ok caps (t1 ++ t2)
    = monitor ok caps t1 && monitor ok (capacities_after caps t1) t2.
Proof.
  induction t1 as [|e t1 IH]; intros caps; [reflexivity|].
  cbn [app monitor]. rewrite IH, andb_assoc. reflexivity.
Qed.

Lemma capacities_after_app (t1 t2 : trace) (caps : capacities) :
  capacities_after caps (t1 ++ t2)
  = capacities_after (capacities_after caps t1) t2.
Proof. apply fold_left_app. Qed.

Lemma received_out_app (t1 t2 : trace) :
  received_out (t1 ++ t2) = received_out t1 + received_out t2.
Proof.
  induction t1 as [|e t1 IH]; [reflexivity|].
  destruct e; cbn [app received_out]; lia.
Qed.

Lemma received_err_app (t1 t2 : trace) :
  received_err (t1 ++ t2) = received_err t1 + received_err t2.
Proof.
  induction t1 as [|e t1 IH]; [reflexivity|].
  destruct e; cbn [app received_err]; lia.
Qed.

Lemma received_out_nonneg (tr : trace) : 0 <= received_out tr.
Proof.
  induction tr as [|e tr IH]; [reflexivity|].
  destruct e; cbn [received_out]; lia.
Qed.

Lemma received_err_nonneg (tr : trace) : 0 <= received_err tr.
Proof.
  induction tr as [|e tr IH]; [reflexivity|].
  destruct e; cbn [received_err]; lia.
Qed.

Lemma read_buflen_inv (size position : Z) :
  buffer_inv size position ->
  read_buflen size position = size - position - 1
  /\ 0 <= size - position - 1.
Proof.
  intros (Hmin & Hpos & Hmax). unfold read_buflen.
  rewrite wrap_int_small by (unfold INT_MIN, INT_MAX; lia).
  rewrite wrap_size_small by lia. lia.
Qed.

(** One buffer's update in a turn that stores: the position advances by the
    bytes received, the invariant is kept, and the capacity stays or is
    reallocated by the policy. *)
Lemma store_read_step (b : block) (size position rc : Z) :
  buffer_inv size position -> rc <= size - position - 1 ->
  position + Z.max 0 rc < output_limit ->
  buffer_inv (fst (snd (store_read b size position rc)))
             (snd (snd (store_read b size position rc)))
  /\ snd (snd (store_read b size position rc)) = position + Z.max 0 rc
  /\ (fst (store_read b size position rc) = []
      /\ fst (snd (store_read b size position rc)) = size
      \/ fst (store_read b size position rc)
         = [EvRealloc b (Z.min (2 * size) (size + 65536))]
         /\ fst (snd (store_read b size position rc))
            = Z.min (2 * size) (size + 65536)).
Proof.
  intros Hinv Hlen Hlim. destruct (Z.ltb_spec 0 rc) as [Hrc|Hrc].
  - rewrite Z.max_r in * by lia.
    destruct (store_read_inv b size position rc Hinv Hrc Hlen Hlim)
      as [Hinv' Hpos'].
    split; [exact Hinv'|split; [exact Hpos'|]].
    destruct Hinv as (Hmin & Hpos & Hmax). unfold output_limit in Hlim.
    rewrite store_read_grows by (unfold INT_MAX; lia).
    destruct (size - (position + rc) <? 1024); cbn [fst snd]; auto.
  - unfold store_read. apply Z.ltb_ge in Hrc. rewrite Hrc. cbn [fst snd].
    apply Z.ltb_ge in Hrc. rewrite Z.max_l by lia.
    split; [exact Hinv|split; [lia|auto]].
Qed.

Lemma store_reads_step (st : read_state) (rc rc2 : Z) :
  state_inv st ->
  rc <= out_size st - out_position st - 1 ->
  rc2 <= err_size st - err_position st - 1 ->
  out_position st + Z.max 0 rc < output_limit ->
  err_position st + Z.max 0 rc2 < output_limit ->
  state_inv (snd (store_reads st rc rc2))
  /\ out_position (snd (store_reads st rc rc2))
     = out_position st + Z.max 0 rc
  /\ err_position (snd (store_reads st rc rc2))
     = err_position st + Z.max 0 rc2
  /\ monitor within_buffer (capacities_of st) (fst (store_reads st rc rc2))
     = true
  /\ monitor grown_by_policy (capacities_of st) (fst (store_reads st rc rc2))
     = true
  /\ capacities_after (capacities_of st) (fst (store_reads st rc rc2))
     = capacities_of (snd (store_reads st rc rc2))
  /\ forallb is_realloc (fst (store_reads st rc rc2)) = true.
Proof.
  intros [Ho He] Hlo Hle Hmo Hme.
  destruct (store_read_step OutBuffer _ _ rc Ho Hlo Hmo)
    as (Ho' & Hpo & Hso).
  destruct (store_read_step ErrBuffer _ _ rc2 He Hle Hme)
    as (He' & Hpe & Hse).
  unfold store_reads, state_inv, capacities_of.
  cbn [fst snd out_size out_position err_size err_position].
  split; [now split|]. split; [exact Hpo|]. split; [exact Hpe|].
  split; [|split; [|split]].
  - destruct Hso as [[-> _]|[-> _]], Hse as [[-> _]|[-> _]]; reflexivity.
  - destruct Hso as [[-> _]|[-> _]], Hse as [[-> _]|[-> _]];
      cbn; rewrite ?Z.eqb_refl; reflexivity.
  - destruct Hso as [[-> ->]|[-> ->]], Hse as [[-> ->]|[-> ->]]; reflexivity.
  - destruct Hso as [[-> _]|[-> _]], Hse as [[-> _]|[-> _]]; reflexivity.
Qed.

Lemma buffers_ok_prefix (st st1 : read_state) (pre : trace)
    (r : run (flow (simplessh_either simplessh_result) read_state)) :
  monitor within_buffer (capacities_of st) pre = true ->
  monitor grown_by_policy (capacities_of st) pre = true ->
  capacities_after (capacities_of st) pre = capacities_of st1 ->
  out_position st1 = out_position st + received_out pre ->
  err_position st1 = err_position st + received_err pre ->
  buffers_ok st1 r -> buffers_ok st (prefix pre r).
Proof.
  intros Hw Hg Hcaps Hpo Hpe (Hw1 & Hg1 & Hret). unfold buffers_ok.
  rewrite fst_prefix, snd_prefix, !monitor_app, Hw, Hg, Hcaps.
  split; [exact Hw1|split; [exact Hg1|]].
  intros st' rest Hr. destruct (Hret st' rest Hr) as (Hinv & Hc & Ho & He).
  rewrite capacities_after_app, Hcaps, received_out_app, received_err_app.
  split; [exact Hinv|]. split; [exact Hc|]. split; lia.
Qed.

Lemma reallocs_receive_nothing (tr : trace) :
  forallb is_realloc tr = true ->
  received_out tr = 0 /\ received_err tr = 0
  /\ forallb read_within_buflen tr = true.
Proof.
  induction tr as [|e tr IH]; [now repeat split|].
  cbn [forallb]. intros H. apply andb_prop in H. destruct H as [He Htr].
  destruct e; try discriminate. cbn. now apply IH.
Qed.

Lemma turn_within_buffer (st : read_state) (channel rc rc2 : Z) :
  state_inv st ->
  within_buffer (capacities_of st)
    (EvRead channel (out_position st)
       (read_buflen (out_size st) (out_position st)) rc) = true
  /\ within_buffer (capacities_of st)
       (EvReadStderr channel (err_position st)
          (read_buflen (err_size st) (err_position st)) rc2) = true.
Proof.
  intros [Ho He].
  destruct (read_buflen_inv _ _ Ho) as [-> Hno].
  destruct (read_buflen_inv _ _ He) as [-> Hne].
  destruct Ho as (_ & Hpo & _), He as (_ & Hpe & _).
  unfold within_buffer, capacities_of. cbn [fst snd].
  rewrite !Z.eqb_refl.
  split; repeat (apply andb_true_intro; split);
    try reflexivity; apply Z.leb_le; lia.
Qed.

(** Along an admissible run of the read loop from a state that satisfies
    the invariant, every read and store is within its buffer, every
    capacity change follows the policy, and the state the loop hands over
    satisfies the invariant, with positions equal to the bytes received. *)
Lemma read_loop_buffers (session : simplessh_session) (channel : Z)
    (s : script) :
  forall st,
    state_inv st ->
    admissible st (fst (read_loop session channel st s)) ->
    buffers_ok st (read_loop session channel st s).
Proof.
  induction s as [s IH] using script_length_ind. intros st Hinv Hadm.
  destruct s as [|rc [|rc2 s2]].
  - split; [reflexivity|split; [reflexivity|discriminate]].
  - destruct (turn_within_buffer st channel rc 0 Hinv) as [Hr _].
    split; [|split; [reflexivity|discriminate]].
    cbn [read_loop fst monitor]. now rewrite Hr.
  - destruct (turn_within_buffer st channel rc rc2 Hinv) as [Hr Hrs].
    pose proof Hinv as [Ho He].
    destruct (read_buflen_inv _ _ Ho) as [Hlo _].
    destruct (read_buflen_inv _ _ He) as [Hle _].
    cbn [read_loop] in *. destruct Hadm as (Hc & Hmo & Hme).
    rewrite fst_prefix in Hc, Hmo, Hme.
    cbn [app forallb read_within_buflen received_out received_err]
      in Hc, Hmo, Hme.
    apply andb_prop in Hc. destruct Hc as [Hc1 Hc].
    apply andb_prop in Hc. destruct Hc as [Hc2 Hc].
    rewrite Hlo in Hc1. rewrite Hle in Hc2.
    apply Z.leb_le in Hc1, Hc2.
    set (R := EvRead channel (out_position st)
                (read_buflen (out_size st) (out_position st)) rc) in *.
    set (RS := EvReadStderr channel (err_position st)
                 (read_buflen (err_size st) (err_position st)) rc2) in *.
    assert (Hturn : forall ok,
               ok (capacities_of st) R = true ->
               ok (capacities_of st) RS = true ->
               forall t, monitor ok (capacities_of st) (R :: RS :: t)
                         = monitor ok (capacities_of st) t).
    { intros ok H1 H2 t. cbn [monitor capacity_step R RS].
      fold R. fold RS. now rewrite H1, H2. }
    destruct ((rc =? 0) && (rc2 =? 0)) eqn:Ezero.
    { apply andb_prop in Ezero. destruct Ezero as [E1 E2].
      apply Z.eqb_eq in E1, E2. subst rc rc2.
      unfold buffers_ok. cbn [prefix fst snd app].
      rewrite !Hturn by (assumption || reflexivity).
      split; [reflexivity|split; [reflexivity|]].
      intros st' rest Hret. inversion Hret; subst st' rest.
      split; [exact Hinv|]. split; [reflexivity|].
      subst R RS. cbn [received_out received_err]. split; lia. }
    destruct ((rc =? LIBSSH2_ERROR_EAGAIN) && (rc2 =? LIBSSH2_ERROR_EAGAIN))
      eqn:Eagain.
    { apply andb_prop in Eagain. destruct Eagain as [E1 E2].
      apply Z.eqb_eq in E1, E2.
      destruct s2 as [|dir [|sel s3]]; cbn [wait_then] in *.
      - unfold buffers_ok. cbn [prefix fst snd app].
        rewrite !Hturn by (assumption || reflexivity).
        split; [reflexivity|split; [reflexivity|discriminate]].
      - unfold buffers_ok. cbn [prefix fst snd app].
        rewrite !Hturn by (assumption || reflexivity).
        split; [reflexivity|split; [reflexivity|discriminate]].
      - rewrite prefix_prefix.
        rewrite fst_prefix in Hc, Hmo, Hme.
        cbn [waitsocket fst app forallb read_within_buflen
               received_out received_err] in Hc, Hmo, Hme.
        apply buffers_ok_prefix with st.
        + cbn [waitsocket fst app]. now rewrite Hturn.
        + cbn [waitsocket fst app]. now rewrite Hturn.
        + reflexivity.
        + subst R RS rc. cbn [waitsocket fst app received_out].
          unfold LIBSSH2_ERROR_EAGAIN. lia.
        + subst R RS rc2. cbn [waitsocket fst app received_err].
          unfold LIBSSH2_ERROR_EAGAIN. lia.
        + apply IH; [simpl; lia|exact Hinv|].
          subst rc rc2. unfold LIBSSH2_ERROR_EAGAIN in Hmo, Hme.
          repeat split; [exact Hc|lia|lia]. }
    fold (hard_error rc) in *. fold (hard_error rc2) in *.
    destruct (hard_error rc || hard_error rc2) eqn:Ehard.
    { unfold buffers_ok. cbn [prefix fst snd app].
      rewrite !Hturn by (assumption || reflexivity).
      split; [reflexivity|split; [reflexivity|discriminate]]. }
    rewrite fst_prefix in Hc, Hmo, Hme.
    rewrite forallb_app in Hc. apply andb_prop in Hc.
    destruct Hc as [_ Hc].
    rewrite received_out_app in Hmo. rewrite received_err_app in Hme.
    pose proof (received_out_nonneg
                  (fst (read_loop session channel
                          (snd (store_reads st rc rc2)) s2))) as Hpo.
    pose proof (received_err_nonneg
                  (fst (read_loop session channel
                          (snd (store_reads st rc rc2)) s2))) as Hpe.
    pose proof (received_out_nonneg (fst (store_reads st rc rc2))) as Hgo.
    pose proof (received_err_nonneg (fst (store_reads st rc rc2))) as Hge.
    destruct (store_reads_step st rc rc2 Hinv)
      as (Hinv' & Hpo' & Hpe' & Hw & Hg & Hcaps & Hre); try lia.
    destruct (reallocs_receive_nothing _ Hre) as (Hro & Hrer & _).
    rewrite prefix_prefix. apply buffers_ok_prefix
      with (snd (store_reads st rc rc2)).
    + cbn [app]. now rewrite Hturn.
    + cbn [app]. now rewrite Hturn.
    + exact Hcaps.
    + rewrite received_out_app, Hro. subst R RS. cbn [received_out]. lia.
    + rewrite received_err_app, Hrer. subst R RS. cbn [received_err]. lia.
    + apply IH; [simpl; lia|exact Hinv'|].
      repeat split; [exact Hc|lia|lia].
Qed.

Lemma read_init_inv : state_inv read_init.
Proof. unfold state_inv, buffer_inv, read_init; cbn. lia. Qed.

Lemma read_loop_stdout_turn (session : simplessh_session) (channel : Z)
    (st : read_state) (rc : Z) (s : script) :
  0 < rc ->
  read_loop session channel st (rc :: 0 :: s)
  = prefix
      ([EvRead channel (out_position st)
          (read_buflen (out_size st) (out_position st)) rc;
        EvReadStderr channel (err_position st)
          (read_buflen (err_size st) (err_position st)) 0]
       ++ fst (store_reads st rc 0))
      (read_loop session channel (snd (store_reads st rc 0)) s).
Proof.
  intro Hrc. cbn [read_loop].
  replace (rc =? 0) with false by (symmetry; apply Z.eqb_neq; lia).
  replace (rc =? LIBSSH2_ERROR_EAGAIN) with false
    by (symmetry; apply Z.eqb_neq; unfold LIBSSH2_ERROR_EAGAIN; lia).
  replace (rc <? 0) with false by (symmetry; apply Z.ltb_ge; lia).
  cbn [andb orb Z.ltb Z.compare]. cbv zeta. now rewrite prefix_prefix.
Qed.

Lemma linear_turn (session : simplessh_session) (channel m : Z)
    (s : script) :
  2 <= m <= 16383 ->
  read_loop session channel (linear_state m) (65536 :: 0 :: s)
  = prefix (linear_turns channel m 1)
      (read_loop session channel (linear_state (m + 1)) s).
Proof.
  intro Hm. rewrite read_loop_stdout_turn by lia.
  unfold store_reads, linear_state.
  cbn [out_size out_position err_size err_position].
  rewrite store_read_grows by (unfold INT_MAX; lia).
  replace (65536 * m - (65536 * (m - 1) - 1 + 65536) <? 1024) with true
    by (symmetry; apply Z.ltb_lt; lia).
  change (store_read ErrBuffer 128 0 0) with (@nil event, (128, 0)).
  cbn [fst snd app linear_turns]. unfold read_buflen.
  replace (65536 * m - (65536 * (m - 1) - 1) - 1) with 65536 by lia.
  replace (Z.min (2 * (65536 * m)) (65536 * m + 65536))
    with (65536 * (m + 1)) by lia.
  replace (65536 * (m - 1) - 1 + 65536) with (65536 * (m + 1 - 1) - 1)
    by lia.
  reflexivity.
Qed.

Lemma linear_phase (session : simplessh_session) (channel : Z) (n : nat) :
  forall m s,
    2 <= m -> m + Z.of_nat n <= 16384 ->
    read_loop session channel (linear_state m)
      (answers_of (stdout_only (repeat 65536 n)) ++ s)
    = prefix (linear_turns channel m n)
        (read_loop session channel (linear_state (m + Z.of_nat n)) s).
Proof.
  induction n as [|n IH]; intros m s Hm Hn.
  { cbn [repeat stdout_only map answers_of flat_map app linear_turns].
    now rewrite prefix_nil, Z.add_0_r. }
  cbn [repeat stdout_only map answers_of flat_map app fst snd].
  fold (stdout_only (repeat 65536 n)).
  fold (answers_of (stdout_only (repeat 65536 n))).
  rewrite linear_turn by lia.
  rewrite IH by lia. rewrite prefix_prefix.
  replace (m + 1 + Z.of_nat n) with (m + Z.of_nat (S n)) by lia.
  reflexivity.
Qed.

(** What [n] such turns from [linear_state m] amount to. *)
Lemma linear_turns_spec (channel : Z) (n : nat) :
  forall m,
    2 <= m ->
    forallb read_within_buflen (linear_turns channel m n) = true
    /\ received_out (linear_turns channel m n) = 65536 * Z.of_nat n
    /\ received_err (linear_turns channel m n) = 0
    /\ monitor grown_by_policy (65536 * m, 128) (linear_turns channel m n)
       = true
    /\ monitor within_buffer (65536 * m, 128) (linear_turns channel m n)
       = true
    /\ capacities_after (65536 * m, 128) (linear_turns channel m n)
       = (65536 * (m + Z.of_nat n), 128).
Proof.
  induction n as [|n IH]; intros m Hm.
  { cbn. rewrite Z.add_0_r. repeat split. }
  destruct (IH (m + 1)) as (Hc & Ho & He & Hg & Hw & Hcaps); [lia|].
  cbn [linear_turns app forallb read_within_buflen received_out
         received_err monitor grown_by_policy within_buffer capacity_step
         capacities_after fold_left set_capacity capacity_of fst snd].
  fold (capacities_after (65536 * (m + 1), 128)
          (linear_turns channel (m + 1) n)).
  rewrite Hc, Ho, He, Hg, Hw, Hcaps.
  replace (65536 * (m + 1) =? Z.min (2 * (65536 * m)) (65536 * m + 65536))
    with true by (symmetry; apply Z.eqb_eq; lia).
  replace (0 <=? 65536 * (m - 1) - 1) with true
    by (symmetry; apply Z.leb_le; lia).
  replace (65536 =? 65536 * m - (65536 * (m - 1) - 1) - 1) with true
    by (symmetry; apply Z.eqb_eq; lia).
  rewrite Nat2Z.inj_succ. cbn [andb Z.leb Z.compare Z.max].
  change (65536 <=? 65536) with true. change (0 <=? 127) with true.
  change (0 <=? 0) with true. change (127 =? 128 - 0 - 1) with true.
  change (0 <=? 65536) with true. cbn [andb].
  repeat split; try reflexivity; try lia.
  f_equal. lia.
Qed.

(** The ten turns in which the capacity doubles. *)
Lemma doubling_phase (session : simplessh_session) (channel : Z)
    (s : script) :
  exists tr,
    read_loop session channel read_init
      (answers_of (stdout_only doubling_reads) ++ s)
    = prefix tr (read_loop session channel (linear_state 2) s)
    /\ forallb read_within_buflen tr = true
    /\ received_out tr = 65535 /\ received_err tr = 0
    /\ monitor grown_by_policy (capacities_of read_init) tr = true
    /\ monitor within_buffer (capacities_of read_init) tr = true
    /\ capacities_after (capacities_of read_init) tr = (65536 * 2, 128).
Proof.
  eexists. split.
  - cbn [doubling_reads stdout_only map answers_of flat_map app fst snd].
    do 10 (rewrite read_loop_stdout_turn by lia;
           match goal with
           | |- context [store_reads ?st ?rc 0] =>
               let g := eval vm_compute in (store_reads st rc 0) in
               change (store_reads st rc 0) with g
           end;
           cbn [fst snd app out_size out_position err_size err_position]).
    rewrite !prefix_prefix. reflexivity.
  - vm_compute. repeat split.
Qed.

(** The turn that fills the buffer of 2^30 bytes: the doubled capacity does
    not fit in an [int]. *)
Lemma overflow_step (session : simplessh_session) (channel : Z)
    (s : script) :
  read_loop session channel (linear_state 16384) (65536 :: 0 :: s)
  = prefix (overflow_turn channel)
      (read_loop session channel overflowed s).
Proof.
  rewrite read_loop_stdout_turn by lia. reflexivity.
Qed.

Lemma big_output_parts :
  big_output
  = answers_of (stdout_only doubling_reads)
    ++ answers_of (stdout_only (repeat 65536 (Z.to_nat 16382)))
    ++ [65536; 0].
Proof.
  unfold big_output, stdout_only, answers_of.
  replace (Z.to_nat 16383) with (S (Z.to_nat 16382))
    by (rewrite <- Z2Nat.inj_succ by lia; reflexivity).
  generalize (Z.to_nat 16382). intro n.
  cbn [repeat]. rewrite repeat_cons, !map_app, !flat_map_app.
  reflexivity.
Qed.

(** The run of the loop on [big_output], up to the call that comes next. *)
Lemma big_output_run (session : simplessh_session) (channel : Z)
    (s : script) :
  exists tr,
    read_loop session channel read_init (big_output ++ s)
    = prefix (tr ++ overflow_turn channel)
        (read_loop session channel overflowed s)
    /\ forallb read_within_buflen tr = true
    /\ received_out tr = 2 ^ 30 - 65537 /\ received_err tr = 0
    /\ monitor grown_by_policy (capacities_of read_init) tr = true
    /\ monitor within_buffer (capacities_of read_init) tr = true
    /\ capacities_after (capacities_of read_init) tr = (2 ^ 30, 128).
Proof.
  rewrite big_output_parts.
  assert (Hn : Z.of_nat (Z.to_nat 16382) = 16382) by now apply Z2Nat.id.
  generalize dependent (Z.to_nat 16382). intros n Hn.
  destruct (doubling_phase session channel
              (answers_of (stdout_only (repeat 65536 n)) ++ [65536; 0] ++ s))
    as (tr1 & Hrun & Hc1 & Ho1 & He1 & Hg1 & Hw1 & Hcaps1).
  destruct (linear_turns_spec channel n 2)
    as (Hc2 & Ho2 & He2 & Hg2 & Hw2 & Hcaps2); [lia|].
  rewrite Hn in Ho2, Hcaps2.
  exists (tr1 ++ linear_turns channel 2 n). split.
  - rewrite <- !app_assoc, Hrun.
    rewrite linear_phase by lia. rewrite Hn.
    change (2 + 16382) with 16384. cbn [app].
    now rewrite overflow_step, !prefix_prefix, <- app_assoc.
  - rewrite forallb_app, received_out_app, received_err_app, !monitor_app,
      capacities_after_app, Hcaps1, Hc1, Hc2, Ho1, Ho2, He1, He2, Hg1, Hg2,
      Hw1, Hw2, Hcaps2.
    repeat split.
Qed.

(** The update of a buffer of 2^30 bytes after a read that leaves less than
    1024 bytes of headroom: [size * 2] wraps to [INT_MIN], the lesser of the
    two candidates. *)
Lemma store_read_overflows (b : block) (position rc : Z) :
  0 <= position -> 0 < rc -> rc <= 2 ^ 30 - position - 1 ->
  2 ^ 30 - (position + rc) < 1024 ->
  store_read b (2 ^ 30) position rc
  = ([EvRealloc b (2 ^ 64 - 2 ^ 31)], (INT_MIN, position + rc)).
Proof.
  intros Hpos Hrc Hlen Hroom. unfold store_read.
  replace (0 <? rc) with true by (symmetry; apply Z.ltb_lt; lia).
  rewrite (wrap_int_small (position + rc)) by (unfold INT_MIN, INT_MAX; lia).
  rewrite (wrap_int_small (2 ^ 30 - (position + rc)))
    by (unfold INT_MIN, INT_MAX; lia).
  replace (2 ^ 30 - (position + rc) <? 1024) with true
    by (symmetry; apply Z.ltb_lt; lia).
  reflexivity.
Qed.

(** C8: each buffer is allocated with 128 bytes.  After a read that
    returned [rc > 0] bytes, no more than asked for, the capacity becomes
    [min (2 * old) (old + 65536)] when the headroom [size - position] has
    dropped below 1024 and stays as it is otherwise, as long as [2 * old]
    fits in an [int]; along every run of the loop whose reads keep the
    engine contract and whose streams stay below [output_limit], every
    allocation is of 128 bytes and every reallocation sets the capacity by
    that rule.  At a capacity of 2^30 bytes the rule is not kept: [size * 2]
    does not fit in an [int], the product wraps to [INT_MIN], the lesser of
    the two candidates, and realloc is called with 2^64 - 2^31, [INT_MIN] as
    a [size_t], where the rule gives 2^30 + 65536.  The loop reaches that
    capacity: on the run [big_output], whose reads keep the engine contract
    and deliver 2^30 - 1 bytes on stdout, every reallocation follows the
    rule until the capacity is 2^30, and the one after the next read does
    not. *)
Theorem buffer_growth_policy :
  (forall session channel result s,
      exists tr,
        fst (read_result session channel result s)
        = EvMalloc OutBuffer (Some 128) :: EvMalloc ErrBuffer (Some 128)
          :: tr)
  /\ (forall b size position rc,
         0 <= position -> 0 < rc -> rc <= size - position - 1 ->
         2 * size <= INT_MAX ->
         store_read b size position rc
         = if size - (position + rc) <? 1024
           then ([EvRealloc b (Z.min (2 * size) (size + 65536))],
                 (Z.min (2 * size) (size + 65536), position + rc))
           else ([], (size, position + rc)))
  /\ (forall session channel s,
         forallb read_within_buflen
           (fst (read_loop session channel read_init s)) = true ->
         received_out (fst (read_loop session channel read_init s))
         < output_limit ->
         received_err (fst (read_loop session channel read_init s))
         < output_limit ->
         monitor grown_by_policy (0, 0)
           (buffer_mallocs ++ fst (read_loop session channel read_init s))
         = true)
  /\ (forall b position rc,
         0 <= position -> 0 < rc -> rc <= 2 ^ 30 - position - 1 ->
         2 ^ 30 - (position + rc) < 1024 ->
         store_read b (2 ^ 30) position rc
         = ([EvRealloc b (2 ^ 64 - 2 ^ 31)], (INT_MIN, position + rc)))
  /\ (forall session channel,
         exists tr,
           fst (read_loop session channel read_init big_output)
           = tr ++ overflow_turn channel
           /\ forallb read_within_buflen (tr ++ overflow_turn channel) = true
           /\ received_out (tr ++ overflow_turn channel) = 2 ^ 30 - 1
           /\ received_err (tr ++ overflow_turn channel) = 0
           /\ monitor grown_by_policy (capacities_of read_init) tr = true
           /\ capacities_after (capacities_of read_init) tr = (2 ^ 30, 128)
           /\ monitor grown_by_policy (capacities_of read_init)
                (tr ++ overflow_turn channel) = false).
Proof.
  split; [|split; [|split; [|split]]].
  - intros session channel result s. rewrite read_result_cases.
    destruct (snd (read_loop session channel read_init s))
      as [[v|st] rest| |]; cbn [fst buffer_mallocs app]; eexists;
      reflexivity.
  - apply store_read_grows.
  - intros session channel s Hc Ho He.
    destruct (read_loop_buffers session channel s read_init read_init_inv)
      as (_ & Hg & _); [now repeat split|].
    exact Hg.
  - apply store_read_overflows.
  - intros session channel.
    destruct (big_output_run session channel [])
      as (tr & Hrun & Hc & Ho & He & Hg & _ & Hcaps).
    rewrite app_nil_r in Hrun. exists tr. rewrite Hrun.
    split; [cbn [read_loop prefix fst]; now rewrite app_nil_r|].
    rewrite forallb_app, received_out_app, received_err_app, monitor_app,
      Hc, Ho, He, Hg, Hcaps.
    repeat split.
Qed.

(** The first growth, 128 to 256; a growth capped at +65536; a run; and the
    growth that fails, from 2^30 bytes. *)
Lemma buffer_growth_policy_witness :
  store_read OutBuffer 128 0 127 = ([EvRealloc OutBuffer 256], (256, 127))
  /\ store_read ErrBuffer 131072 129000 1500
     = ([EvRealloc ErrBuffer 196608], (196608, 130500))
  /\ monitor grown_by_policy (0, 0)
       (buffer_mallocs
        ++ fst (read_loop {| sock := 3; lsession := 1000 |} 77 read_init
                  [100; LIBSSH2_ERROR_EAGAIN; 150; 0; 0; 0]))
     = true
  /\ store_read OutBuffer 1073741824 1073676287 65536
     = ([EvRealloc OutBuffer 18446744071562067968],
        (-2147483648, 1073741823)).
Proof.
  destruct buffer_growth_policy as (_ & Hstep & Hrun & Hover & _).
  split; [|split; [|split]].
  - apply (Hstep OutBuffer 128 0 127); unfold INT_MAX; lia.
  - apply (Hstep ErrBuffer 131072 129000 1500); unfold INT_MAX; lia.
  - apply (Hrun {| sock := 3; lsession := 1000 |} 77
             [100; LIBSSH2_ERROR_EAGAIN; 150; 0; 0; 0]);
      reflexivity.
  - apply (Hover OutBuffer 1073676287 65536); lia.
Defined.

(** C9: along every run of the reading part of exec whose reads keep the
    engine contract (no more bytes than asked) and whose streams stay below
    [output_limit], every read is issued at a position inside its buffer
    with the length [capacity - position - 1], which is not negative, the
    two terminators are stored inside the buffers, and the buffers are then
    shrunk to the bytes received plus one.  With 2^30 - 1 bytes of output
    this is not so: on the run [big_output] followed by the end of both
    streams, whose reads keep the engine contract, the loop ends with
    [out_size] at [INT_MIN] and [out_position] at 2^30 - 1, above
    [out_size - 1]; every event up to the reallocation of the turn that
    fills the buffer of 2^30 bytes is within the buffers, and the read that
    follows is issued at 2^30 - 1 with the length 2^30, which is what
    [out_size - out_position - 1] wraps to and not the room left in a
    buffer; the terminator of stdout is then stored at 2^30 - 1. *)
Theorem read_result_within_buffers :
  (forall session channel result s,
      forallb read_within_buflen
        (fst (read_result session channel result s)) = true ->
      received_out (fst (read_result session channel result s))
      < output_limit ->
      received_err (fst (read_result session channel result s))
      < output_limit ->
      monitor within_buffer (0, 0)
        (fst (read_result session channel result s)) = true
      /\ (forall v rest,
             snd (read_result session channel result s)
             = Returned (Continue v) rest ->
             exists tr0,
               fst (read_result session channel result s)
               = tr0
                 ++ [EvStoreByte OutBuffer
                       (received_out
                          (fst (read_result session channel result s))) 0;
                     EvRealloc OutBuffer
                       (received_out
                          (fst (read_result session channel result s)) + 1);
                     EvStoreByte ErrBuffer
                       (received_err
                          (fst (read_result session channel result s))) 0;
                     EvRealloc ErrBuffer
                       (received_err
                          (fst (read_result session channel result s))
                        + 1)]))
  /\ (forall session channel result,
         snd (read_loop session channel read_init (big_output ++ [0; 0]))
         = Returned (Continue overflowed) []
         /\ (out_position overflowed <=? out_size overflowed - 1) = false
         /\ snd (read_result session channel result (big_output ++ [0; 0]))
            = Returned (Continue (with_buffers result)) []
         /\ forallb read_within_buflen
              (fst (read_result session channel result
                      (big_output ++ [0; 0]))) = true
         /\ received_out
              (fst (read_result session channel result
                      (big_output ++ [0; 0]))) = 2 ^ 30 - 1
         /\ received_err
              (fst (read_result session channel result
                      (big_output ++ [0; 0]))) = 0
         /\ (exists tr,
                fst (read_result session channel result
                       (big_output ++ [0; 0]))
                = tr ++ last_turn channel ++ terminated overflowed
                /\ monitor within_buffer (0, 0) tr = true
                /\ capacities_after (0, 0) tr = (2 ^ 64 - 2 ^ 31, 128))
         /\ monitor within_buffer (0, 0)
              (fst (read_result session channel result
                      (big_output ++ [0; 0]))) = false).
Proof.
  split.
  { intros session channel result s.
    rewrite read_result_cases.
    pose proof (read_loop_buffers session channel s read_init read_init_inv)
      as Hloop.
    unfold admissible, buffers_ok in Hloop.
    assert (Hbm : forall ok t,
               ok (0, 0) (EvMalloc OutBuffer (Some 128)) = true ->
               ok (128, 0) (EvMalloc ErrBuffer (Some 128)) = true ->
               monitor ok (0, 0) (buffer_mallocs ++ t)
               = monitor ok (capacities_of read_init) t).
    { intros ok t H1 H2. cbn [buffer_mallocs app monitor capacity_step
                               set_capacity fst snd].
      now rewrite H1, H2. }
    destruct (snd (read_loop session channel read_init s))
      as [[v|st] rest| |]; cbn [fst snd].
    - intros Hc Ho He. split; [|discriminate].
      rewrite Hbm by reflexivity. now apply Hloop.
    - rewrite !forallb_app, !received_out_app, !received_err_app.
      intros Hc Ho He.
      apply andb_prop in Hc. destruct Hc as [_ Hc].
      apply andb_prop in Hc. destruct Hc as [Hc _].
      change (received_out buffer_mallocs) with 0 in Ho.
      change (received_err buffer_mallocs) with 0 in He.
      change (received_out (terminated st)) with 0 in Ho |- *.
      change (received_err (terminated st)) with 0 in He |- *.
      change (received_out buffer_mallocs) with 0.
      change (received_err buffer_mallocs) with 0.
      cbn [read_init out_position err_position] in Hloop.
      destruct Hloop as (Hw & _ & Hret); [repeat split; [exact Hc|lia|lia]|].
      destruct (Hret st rest eq_refl) as ([Hio Hie] & Hcaps & Hpo & Hpe).
      rewrite Z.add_0_l in Hpo, Hpe.
      rewrite !Z.add_0_l, !Z.add_0_r. rewrite <- Hpo, <- Hpe.
      destruct Hio as (Hmo & Hposo & Hmaxo), Hie as (Hme & Hpose & Hmaxe).
      unfold output_limit in Ho, He.
      assert (Hso : wrap_size (wrap_int (out_position st + 1))
                    = out_position st + 1).
      { rewrite wrap_int_small by (unfold INT_MIN, INT_MAX; lia).
        apply wrap_size_small. lia. }
      assert (Hse : wrap_size (wrap_int (err_position st + 1))
                    = err_position st + 1).
      { rewrite wrap_int_small by (unfold INT_MIN, INT_MAX; lia).
        apply wrap_size_small. lia. }
      split.
      + rewrite Hbm by reflexivity. rewrite monitor_app, Hw, Hcaps.
        unfold terminated, capacities_of.
        cbn [monitor within_buffer capacity_step set_capacity capacity_of
               fst snd andb].
        repeat (apply andb_true_intro; split); try reflexivity;
          try (apply Z.leb_le; lia); apply Z.ltb_lt; lia.
      + intros v rest' _.
        exists (buffer_mallocs
                ++ fst (read_loop session channel read_init s)).
        unfold terminated. now rewrite Hso, Hse, <- app_assoc.
    - intros Hc Ho He. split; [|discriminate].
      rewrite Hbm by reflexivity. now apply Hloop.
    - intros Hc Ho He. split; [|discriminate].
      rewrite Hbm by reflexivity. now apply Hloop. }
  intros session channel result.
  destruct (big_output_run session channel [0; 0])
    as (tr & Hrun & Hc & Ho & He & Hg & Hw & Hcaps).
  assert (Hlast : read_loop session channel overflowed [0; 0]
                  = (last_turn channel, Returned (Continue overflowed) []))
    by reflexivity.
  rewrite Hlast in Hrun. unfold prefix in Hrun. cbn [fst snd] in Hrun.
  rewrite read_result_cases, Hrun. cbn [fst snd].
  assert (Hpre : monitor within_buffer (0, 0)
                   (buffer_mallocs ++ tr ++ overflow_turn channel) = true
                 /\ capacities_after (0, 0)
                      (buffer_mallocs ++ tr ++ overflow_turn channel)
                    = (2 ^ 64 - 2 ^ 31, 128)).
  { rewrite monitor_app, !capacities_after_app.
    change (capacities_after (0, 0) buffer_mallocs)
      with (capacities_of read_init).
    rewrite monitor_app, Hw, Hcaps. split; reflexivity. }
  destruct Hpre as [Hwpre Hcpre].
  split; [reflexivity|]. split; [reflexivity|]. split; [reflexivity|].
  split.
  { rewrite !forallb_app, Hc. reflexivity. }
  split.
  { rewrite !received_out_app, Ho. reflexivity. }
  split.
  { rewrite !received_err_app, He. reflexivity. }
  split.
  { exists (buffer_mallocs ++ tr ++ overflow_turn channel).
    split; [now rewrite <- !app_assoc|]. split; assumption. }
  replace (buffer_mallocs
           ++ ((tr ++ overflow_turn channel) ++ last_turn channel)
           ++ terminated overflowed)
    with ((buffer_mallocs ++ tr ++ overflow_turn channel)
          ++ last_turn channel ++ terminated overflowed)
    by now rewrite <- !app_assoc.
  rewrite monitor_app, Hwpre, Hcpre. reflexivity.
Qed.

(** A run that receives 250 bytes on stdout and 7 on stderr. *)
Lemma read_result_within_buffers_witness :
  (forallb read_within_buflen
     (fst (read_result {| sock := 3; lsession := 1000 |} 77 empty_result
             [100; LIBSSH2_ERROR_EAGAIN; 150; 7; 0; 0])) = true
   /\ received_out
        (fst (read_result {| sock := 3; lsession := 1000 |} 77 empty_result
                [100; LIBSSH2_ERROR_EAGAIN; 150; 7; 0; 0])) < output_limit
   /\ received_err
        (fst (read_result {| sock := 3; lsession := 1000 |} 77 empty_result
                [100; LIBSSH2_ERROR_EAGAIN; 150; 7; 0; 0])) < output_limit)
  /\ monitor within_buffer (0, 0)
       (fst (read_result {| sock := 3; lsession := 1000 |} 77 empty_result
               [100; LIBSSH2_ERROR_EAGAIN; 150; 7; 0; 0])) = true
  /\ (forall v rest,
         snd (read_result {| sock := 3; lsession := 1000 |} 77 empty_result
                [100; LIBSSH2_ERROR_EAGAIN; 150; 7; 0; 0])
         = Returned (Continue v) rest ->
         exists tr0,
           fst (read_result {| sock := 3; lsession := 1000 |} 77 empty_result
                  [100; LIBSSH2_ERROR_EAGAIN; 150; 7; 0; 0])
           = tr0 ++ [EvStoreByte OutBuffer 250 0; EvRealloc OutBuffer 251;
                     EvStoreByte ErrBuffer 7 0; EvRealloc ErrBuffer 8]).
Proof.
  split; [repeat split|].
  apply (proj1 read_result_within_buffers
           {| sock := 3; lsession := 1000 |} 77 empty_result
           [100; LIBSSH2_ERROR_EAGAIN; 150; 7; 0; 0]);
    reflexivity.
Defined.

(** ** The upload *)

(** send_file by the outcomes of its parts. *)
Lemma send_file_cases (session : simplessh_session) (mode data_len : Z)
    (path : string) (s : script) :
  simplessh_send_file session mode data_len path s
  = prefix send_mallocs
      (match scp_send_loop session path mode data_len s with
       | (tr, Returned (Return e) rest) => (tr, Returned e rest)
       | (tr, Returned (Continue channel) rest) =>
           prefix tr
             (match transfer channel data_len rest with
              | (tr2, Returned (Return e) rest2) => (tr2, Returned e rest2)
              | (tr2, Returned (Continue transferred) rest2) =>
                  prefix tr2 (finish_upload channel transferred rest2)
              | (tr2, Blocked) => (tr2, Blocked)
              | (tr2, Diverged) => (tr2, Diverged)
              end)
       | (tr, Blocked) => (tr, Blocked)
       | (tr, Diverged) => (tr, Diverged)
       end).
Proof.
  unfold simplessh_send_file.
  rewrite bind_malloc, bind_emit, bind_malloc, !prefix_prefix.
  cbv beta. f_equal. unfold bind at 1.
  destruct (scp_send_loop session path mode data_len s)
    as [tr [[e|channel] rest| |]]; try reflexivity.
  - unfold ret, prefix. cbn. now rewrite app_nil_r.
  - f_equal. unfold bind at 1.
    destruct (transfer channel data_len rest)
      as [tr2 [[e|transferred] rest2| |]]; try reflexivity.
    unfold ret, prefix. cbn. now rewrite app_nil_r.
Qed.

Lemma scp_send_loop_spec (session : simplessh_session) (path : string)
    (mode data_len : Z) (s : script) :
  forallb off_transfer (fst (scp_send_loop session path mode data_len s))
  = true
  /\ (forall e rest,
         snd (scp_send_loop session path mode data_len s)
         = Returned (Return e) rest ->
         e = LEFT CHANNEL_OPEN).
Proof.
  induction s as [s IH] using script_length_ind.
  destruct s as [|channel s1]; [split; [reflexivity|discriminate]|].
  cbn [scp_send_loop]. rewrite fst_prefix, snd_prefix.
  cbn [app forallb off_transfer andb].
  destruct (channel =? 0); [|split; [reflexivity|discriminate]].
  destruct s1 as [|e1 s2]; [split; [reflexivity|discriminate]|].
  rewrite fst_prefix, snd_prefix. cbn [app forallb off_transfer andb].
  destruct (e1 =? LIBSSH2_ERROR_EAGAIN).
  - destruct s2 as [|dir [|sel s3]]; cbn [wait_then];
      try (split; [reflexivity|discriminate]).
    rewrite fst_prefix, snd_prefix. apply IH. simpl. lia.
  - unfold returning, returnLocalErrorS, bind, emit, ret, prefix.
    destruct (negb (channel =? 0)); cbn; split; try reflexivity;
      intros e rest H; now inversion H.
Qed.

Lemma finish_upload_spec (channel transferred : Z) (s : script) :
  forallb off_transfer (fst (finish_upload channel transferred s)) = true
  /\ (forall v rest,
         snd (finish_upload channel transferred s) = Returned v rest ->
         v = RIGHT transferred).
Proof.
  unfold finish_upload. split.
  - repeat (apply forallb_bind; [now apply forallb_spin|intros ? ?]).
    reflexivity.
  - intros v rest.
    repeat (split_bind; [rewrite snd_prefix|discriminate|discriminate]).
    intros H. now inversion H.
Qed.

Lemma counted_off_transfer (data_len t : Z) (due : option Z) (tr : trace) :
  forallb off_transfer tr = true -> counted data_len t due tr = true.
Proof.
  induction tr as [|e tr IH]; [reflexivity|].
  cbn [forallb]. intros H. apply andb_prop in H. destruct H as [He Htr].
  destruct e; try discriminate; cbn [counted]; now apply IH.
Qed.

Lemma counted_after (data_len t : Z) (due : option Z) (t1 t2 : trace) :
  forallb off_transfer t1 = true ->
  counted data_len t due (t1 ++ t2) = counted data_len t due t2.
Proof.
  induction t1 as [|e t1 IH]; [reflexivity|].
  cbn [forallb]. intros H. apply andb_prop in H. destruct H as [He Htr].
  destruct e; try discriminate; cbn [app counted]; now apply IH.
Qed.

Lemma returnLocalErrorS_run (channel : Z) (error : simplessh_error)
    (s : script) :
  exists tr,
    @returning _ Z (returnLocalErrorS channel error) s
    = (tr, Returned (Return (LEFT error)) s)
    /\ forallb off_transfer tr = true
    /\ forallb write_within_buflen tr = true.
Proof.
  unfold returning, returnLocalErrorS, bind, emit, ret, prefix.
  destruct (negb (channel =? 0)); cbn; eexists; repeat split.
Qed.

(** Along a run of the transfer whose writes keep the engine contract, the
    accounting holds, and the transfer ends with the counter at
    [data_len]. *)
Lemma write_loop_counted (channel data_len : Z) (s : script) :
  forall t n current,
    chunk_inv data_len t n current ->
    forallb write_within_buflen
      (fst (write_loop channel data_len t n current s)) = true ->
    (forall post,
        forallb off_transfer post = true ->
        counted data_len t None
          (fst (write_loop channel data_len t n current s) ++ post) = true)
    /\ (forall v rest,
           snd (write_loop channel data_len t n current s)
           = Returned (Continue v) rest ->
           v = data_len).
Proof.
  induction s as [|rc s IH]; intros t n current Hinv Hc.
  { split; [|discriminate]. intros post Hp. now apply counted_off_transfer. }
  destruct Hinv as (Ht & Hn & Hfit & -> & Hmax). unfold INT_MAX in Hmax.
  cbn [write_loop] in *. rewrite fst_prefix in Hc.
  cbn [app forallb write_within_buflen] in Hc.
  apply andb_prop in Hc. destruct Hc as [Hrc Hc]. apply Z.leb_le in Hrc.
  assert (Hhead : forall X,
             counted data_len t None (EvWrite channel t n rc :: X)
             = counted data_len t (if 0 <=? rc then Some rc else None) X).
  { intros X. cbn [counted]. rewrite Z.eqb_refl.
    replace (0 <? n) with true by (symmetry; apply Z.ltb_lt; lia).
    replace (n <=? Z.min (data_len - t) 16384) with true
      by (symmetry; apply Z.leb_le; lia).
    reflexivity. }
  rewrite fst_prefix, snd_prefix.
  destruct (rc =? LIBSSH2_ERROR_EAGAIN) eqn:E.
  { apply Z.eqb_eq in E. subst rc.
    destruct (IH t n t) as [Hcnt Hret]; [unfold chunk_inv, INT_MAX; lia|exact Hc|].
    split; [|exact Hret].
    intros post Hp. cbn [app]. rewrite Hhead. now apply Hcnt. }
  destruct (rc <? 0) eqn:Eneg.
  { destruct (returnLocalErrorS_run channel WRITE s) as (tr & -> & Htr & _).
    split; [|discriminate].
    intros post Hp. cbn [app fst]. rewrite Hhead.
    apply Z.ltb_lt in Eneg.
    replace (0 <=? rc) with false by (symmetry; apply Z.leb_gt; lia).
    apply counted_off_transfer. now rewrite forallb_app, Htr, Hp. }
  apply Z.ltb_ge in Eneg.
  rewrite (wrap_size_small (n - rc)) in * by lia.
  rewrite (wrap_int_small (t + rc)) in * by (unfold INT_MIN, INT_MAX; lia).
  rewrite fst_prefix in Hc. cbn [app forallb write_within_buflen] in Hc.
  rewrite fst_prefix, snd_prefix.
  assert (Hstore : forall X,
             counted data_len t None
               (EvWrite channel t n rc
                :: EvStoreInt TransferredCell (t + rc) :: X)
             = counted data_len (t + rc) None X).
  { intros X. rewrite Hhead.
    replace (0 <=? rc) with true by (symmetry; apply Z.leb_le; lia).
    cbn [counted]. rewrite Z.eqb_refl.
    replace (t + rc <=? data_len) with true
      by (symmetry; apply Z.leb_le; lia).
    reflexivity. }
  destruct (0 <? n - rc) eqn:Emore.
  { apply Z.ltb_lt in Emore.
    destruct (IH (t + rc) (n - rc) (t + rc)) as [Hcnt Hret];
      [unfold chunk_inv, INT_MAX; lia|exact Hc|].
    split; [|exact Hret].
    intros post Hp. cbn [app]. rewrite Hstore. now apply Hcnt. }
  apply Z.ltb_ge in Emore. unfold next_chunk in *.
  destruct (t + rc <? data_len) eqn:Eleft.
  - apply Z.ltb_lt in Eleft.
    rewrite (wrap_int_small (data_len - (t + rc))) in *
      by (unfold INT_MIN, INT_MAX; lia).
    rewrite min_spec in *.
    rewrite (wrap_size_small (Z.min (data_len - (t + rc)) (16 * 1024))) in *
      by lia.
    replace (0 <? Z.min (data_len - (t + rc)) (16 * 1024)) with true in *
      by (symmetry; apply Z.ltb_lt; lia).
    destruct (IH (t + rc) (Z.min (data_len - (t + rc)) (16 * 1024)) (t + rc))
      as [Hcnt Hret]; [unfold chunk_inv, INT_MAX; lia|exact Hc|].
    split; [|exact Hret].
    intros post Hp. cbn [app]. rewrite Hstore. now apply Hcnt.
  - apply Z.ltb_ge in Eleft. split.
    + intros post Hp. cbn [app fst]. rewrite Hstore.
      now apply counted_off_transfer.
    + intros v rest H. inversion H. lia.
Qed.

(** The transfer leaves the function only with WRITE. *)
Lemma write_loop_returns (channel data_len : Z) (s : script) :
  forall t n current e rest,
    snd (write_loop channel data_len t n current s)
    = Returned (Return e) rest ->
    e = LEFT WRITE.
Proof.
  induction s as [|rc s IH]; intros t n current e rest; [discriminate|].
  cbn [write_loop]. rewrite snd_prefix.
  destruct (rc =? LIBSSH2_ERROR_EAGAIN); [apply IH|].
  destruct (rc <? 0).
  { destruct (returnLocalErrorS_run channel WRITE s) as (tr & -> & _).
    intros H. now inversion H. }
  rewrite snd_prefix. destruct (0 <? _); [apply IH|].
  unfold next_chunk. destruct (_ <? data_len); [|discriminate].
  destruct (0 <? _); [apply IH|discriminate].
Qed.

Lemma transfer_returns (channel data_len : Z) (s : script) :
  forall e rest,
    snd (transfer channel data_len s) = Returned (Return e) rest ->
    e = LEFT WRITE.
Proof.
  intros e rest. unfold transfer, next_chunk.
  destruct (0 <? data_len); [|discriminate].
  destruct (0 <? _); [apply write_loop_returns|discriminate].
Qed.

Lemma transfer_counted (channel data_len : Z) (s : script) :
  0 <= data_len <= INT_MAX ->
  forallb write_within_buflen (fst (transfer channel data_len s)) = true ->
  (forall post,
      forallb off_transfer post = true ->
      counted data_len 0 None (fst (transfer channel data_len s) ++ post)
      = true)
  /\ (forall v rest,
         snd (transfer channel data_len s) = Returned (Continue v) rest ->
         v = data_len).
Proof.
  unfold INT_MAX. intros Hlen. unfold transfer, next_chunk.
  destruct (0 <? data_len) eqn:E.
  - apply Z.ltb_lt in E.
    rewrite (wrap_int_small (data_len - 0)) by (unfold INT_MIN, INT_MAX; lia).
    rewrite min_spec.
    rewrite (wrap_size_small (Z.min (data_len - 0) (16 * 1024))) by lia.
    replace (0 <? Z.min (data_len - 0) (16 * 1024)) with true
      by (symmetry; apply Z.ltb_lt; lia).
    apply write_loop_counted. unfold chunk_inv, INT_MAX. lia.
  - apply Z.ltb_ge in E. intros _. split.
    + intros post Hp. now apply counted_off_transfer.
    + intros v rest H. inversion H. lia.
Qed.

(** ** A failed write *)

Lemma off_transfer_spec (tr : trace) :
  forallb off_transfer tr = true ->
  write_failed tr = false /\ accepted tr = 0
  /\ forall v, counter_after v tr = v.
Proof.
  induction tr as [|e tr IH]; [now repeat split|].
  cbn [forallb]. intros H. apply andb_prop in H. destruct H as [He Htr].
  destruct (IH Htr) as (Hf & Ha & Hc).
  destruct e; try discriminate; cbn; auto.
Qed.

Lemma accepted_app (t1 t2 : trace) :
  accepted (t1 ++ t2) = accepted t1 + accepted t2.
Proof.
  induction t1 as [|e t1 IH]; [reflexivity|].
  destruct e; cbn [app accepted]; lia.
Qed.

Lemma counter_after_app (t1 t2 : trace) :
  forall v, counter_after v (t1 ++ t2)
            = counter_after (counter_after v t1) t2.
Proof.
  induction t1 as [|e t1 IH]; intros v; [reflexivity|].
  destruct e as [| | | |b x| | | | | | | | | | | | | | | | | | | | | | | | | |
                 | | | | | | | | |]; cbn [app counter_after]; try apply IH.
  destruct b; apply IH.
Qed.

Lemma wrap_int_range (z : Z) : int_range (wrap_int z).
Proof.
  unfold int_range, INT_MIN, INT_MAX, wrap_int.
  pose proof (Z.mod_pos_bound (z + 2 ^ 31) (2 ^ 32) ltac:(lia)). lia.
Qed.

Lemma wrap_int_add_l (a b : Z) : wrap_int (wrap_int a + b) = wrap_int (a + b).
Proof.
  unfold wrap_int. f_equal.
  replace ((a + 2 ^ 31) mod 2 ^ 32 - 2 ^ 31 + b + 2 ^ 31)
    with ((a + 2 ^ 31) mod 2 ^ 32 + b) by lia.
  rewrite Z.add_mod_idemp_l by lia. f_equal. lia.
Qed.

Lemma hard_error_eagain : hard_error LIBSSH2_ERROR_EAGAIN = false.
Proof. reflexivity. Qed.

(** A hard write error makes the transfer leave the function with WRITE;
    the counter then holds, as an [int], what it held plus the bytes
    accepted. *)
Lemma write_loop_failure (channel data_len : Z) (s : script) :
  forall t n current,
    int_range t ->
    write_failed (fst (write_loop channel data_len t n current s)) = true ->
    exists rest,
      snd (write_loop channel data_len t n current s)
      = Returned (Return (LEFT WRITE)) rest
      /\ counter_after (Some t)
           (fst (write_loop channel data_len t n current s))
         = Some (wrap_int
                   (t + accepted
                          (fst (write_loop channel data_len t n current s)))).
Proof.
  unfold write_failed.
  induction s as [|rc s IH]; intros t n current Ht; [discriminate|].
  cbn [write_loop]. rewrite fst_prefix, snd_prefix.
  cbn [app existsb hard_write accepted counter_after].
  destruct (rc =? LIBSSH2_ERROR_EAGAIN) eqn:E.
  { apply Z.eqb_eq in E. subst rc. rewrite hard_error_eagain, orb_false_l.
    intros H. destruct (IH t n current Ht H) as (rest & Hr & Hcnt).
    exists rest. split; [exact Hr|]. rewrite Hcnt. reflexivity. }
  destruct (rc <? 0) eqn:Eneg.
  { intros _.
    destruct (returnLocalErrorS_run channel WRITE s) as (tr & -> & Htr & _).
    destruct (off_transfer_spec tr Htr) as (_ & Ha & Hc).
    exists s. split; [reflexivity|]. cbn [fst]. rewrite Hc, Ha.
    apply Z.ltb_lt in Eneg. rewrite Z.max_l, !Z.add_0_r by lia.
    now rewrite wrap_int_small. }
  apply Z.ltb_ge in Eneg.
  unfold hard_error.
  replace (rc <? 0) with false by (symmetry; apply Z.ltb_ge; lia).
  cbn [andb orb]. rewrite fst_prefix, snd_prefix.
  cbn [app existsb hard_write accepted counter_after orb].
  rewrite Z.max_r by lia.
  assert (Hrec : forall n' current',
             existsb hard_write
               (fst (write_loop channel data_len (wrap_int (t + rc))
                       n' current' s)) = true ->
             exists rest,
               snd (write_loop channel data_len (wrap_int (t + rc))
                      n' current' s)
               = Returned (Return (LEFT WRITE)) rest
               /\ counter_after (Some (wrap_int (t + rc)))
                    (fst (write_loop channel data_len (wrap_int (t + rc))
                            n' current' s))
                  = Some (wrap_int
                            (t + (rc + accepted
                                         (fst (write_loop channel data_len
                                                 (wrap_int (t + rc))
                                                 n' current' s)))))).
  { intros n' current' H.
    destruct (IH (wrap_int (t + rc)) n' current' (wrap_int_range _) H)
      as (rest & Hr & Hcnt).
    exists rest. split; [exact Hr|]. rewrite Hcnt, wrap_int_add_l.
    do 2 f_equal. lia. }
  destruct (0 <? wrap_size (n - rc)); [apply Hrec|].
  unfold next_chunk. destruct (_ <? data_len); [|discriminate].
  destruct (0 <? _); [apply Hrec|discriminate].
Qed.

(** With the engine contract kept, the bytes accepted never exceed what is
    left of the data. *)
Lemma write_loop_accepted (channel data_len : Z) (s : script) :
  forall t n current,
    chunk_inv data_len t n current ->
    forallb write_within_buflen
      (fst (write_loop channel data_len t n current s)) = true ->
    t + accepted (fst (write_loop channel data_len t n current s))
    <= data_len.
Proof.
  induction s as [|rc s IH]; intros t n current Hinv Hc.
  { unfold chunk_inv in Hinv. cbn. lia. }
  destruct Hinv as (Ht & Hn & Hfit & -> & Hmax). unfold INT_MAX in Hmax.
  cbn [write_loop] in *. rewrite fst_prefix in *.
  cbn [app forallb write_within_buflen accepted] in *.
  apply andb_prop in Hc. destruct Hc as [Hrc Hc]. apply Z.leb_le in Hrc.
  destruct (rc =? LIBSSH2_ERROR_EAGAIN) eqn:E.
  { apply Z.eqb_eq in E. subst rc.
    change (Z.max 0 LIBSSH2_ERROR_EAGAIN) with 0. rewrite Z.add_0_l.
    apply IH; [unfold chunk_inv, INT_MAX; lia|exact Hc]. }
  destruct (rc <? 0) eqn:Eneg.
  { destruct (returnLocalErrorS_run channel WRITE s) as (tr & -> & Htr & _).
    destruct (off_transfer_spec tr Htr) as (_ & Ha & _).
    cbn [fst]. rewrite Ha. apply Z.ltb_lt in Eneg. lia. }
  apply Z.ltb_ge in Eneg.
  rewrite (wrap_size_small (n - rc)) in * by lia.
  rewrite (wrap_int_small (t + rc)) in * by (unfold INT_MIN, INT_MAX; lia).
  rewrite fst_prefix in *.
  cbn [app forallb write_within_buflen accepted] in *.
  rewrite Z.max_r by lia.
  destruct (0 <? n - rc) eqn:Emore.
  { apply Z.ltb_lt in Emore.
    specialize (IH (t + rc) (n - rc) (t + rc)).
    rewrite Z.add_assoc. apply IH; [unfold chunk_inv, INT_MAX; lia|exact Hc]. }
  apply Z.ltb_ge in Emore. unfold next_chunk in *.
  destruct (t + rc <? data_len) eqn:Eleft.
  - apply Z.ltb_lt in Eleft.
    rewrite (wrap_int_small (data_len - (t + rc))) in *
      by (unfold INT_MIN, INT_MAX; lia).
    rewrite min_spec in *.
    rewrite (wrap_size_small (Z.min (data_len - (t + rc)) (16 * 1024))) in *
      by lia.
    replace (0 <? Z.min (data_len - (t + rc)) (16 * 1024)) with true in *
      by (symmetry; apply Z.ltb_lt; lia).
    rewrite Z.add_assoc.
    apply IH; [unfold chunk_inv, INT_MAX; lia|exact Hc].
  - apply Z.ltb_ge in Eleft. cbn [fst accepted]. lia.
Qed.

Lemma transfer_accepted (channel data_len : Z) (s : script) :
  0 <= data_len <= INT_MAX ->
  forallb write_within_buflen (fst (transfer channel data_len s)) = true ->
  accepted (fst (transfer channel data_len s)) <= data_len.
Proof.
  unfold INT_MAX. intros Hlen. unfold transfer, next_chunk.
  destruct (0 <? data_len) eqn:E.
  - apply Z.ltb_lt in E.
    rewrite (wrap_int_small (data_len - 0)) by (unfold INT_MIN, INT_MAX; lia).
    rewrite min_spec.
    rewrite (wrap_size_small (Z.min (data_len - 0) (16 * 1024))) by lia.
    replace (0 <? Z.min (data_len - 0) (16 * 1024)) with true
      by (symmetry; apply Z.ltb_lt; lia).
    intros Hc.
    apply (write_loop_accepted channel data_len s 0); [|exact Hc].
    unfold chunk_inv, INT_MAX. lia.
  - intros _. cbn. lia.
Qed.

Lemma transfer_failure (channel data_len : Z) (s : script) :
  write_failed (fst (transfer channel data_len s)) = true ->
  exists rest,
    snd (transfer channel data_len s) = Returned (Return (LEFT WRITE)) rest
    /\ counter_after (Some 0) (fst (transfer channel data_len s))
       = Some (wrap_int (accepted (fst (transfer channel data_len s)))).
Proof.
  unfold transfer, next_chunk.
  destruct (0 <? data_len); [|discriminate].
  destruct (0 <? _); [|discriminate].
  apply write_loop_failure. unfold int_range, INT_MIN, INT_MAX. lia.
Qed.

(** C3, as stated, fails: after one write of 3 bytes and a hard error of the
    next write, send_file returns the error side tagged WRITE, and the
    either holds the error kind only; the 3 bytes accepted are in the
    counter cell, which the returned value does not reach. *)
Lemma write_error_carries_no_byte_count :
  simplessh_send_file {| sock := 3; lsession := 1000 |} 420 5 "/tmp/x"
    [77; 3; -1]
  = ([EvMalloc TransferredCell None; EvStoreInt TransferredCell 0;
      EvMalloc EitherBlock None; EvScpSend 1000 "/tmp/x" 420 5 77;
      EvWrite 77 0 5 3; EvStoreInt TransferredCell 3;
      EvWrite 77 3 2 (-1); EvChannelFree 77 None],
     Returned (LEFT WRITE) [])
  /\ carried_value (LEFT WRITE : simplessh_either Z) = None
  /\ accepted
       (fst (simplessh_send_file {| sock := 3; lsession := 1000 |} 420 5
               "/tmp/x" [77; 3; -1])) = 3.
Proof. repeat split. Qed.

(** C3, amended: when a write returns a hard error, send_file returns the
    error side tagged WRITE, which holds the error kind and no value; the
    counter cell then holds, as an [int], the sum of the bytes accepted by
    the writes before, and that sum itself when the length fits in an [int]
    and the writes keep the engine contract. *)
Theorem send_file_write_failure_returns_WRITE :
  forall session mode data_len path s,
    write_failed (fst (simplessh_send_file session mode data_len path s))
    = true ->
    exists rest,
      snd (simplessh_send_file session mode data_len path s)
      = Returned (LEFT WRITE) rest
      /\ carried_value (LEFT WRITE : simplessh_either Z) = None
      /\ counter_after None
           (fst (simplessh_send_file session mode data_len path s))
         = Some (wrap_int
                   (accepted
                      (fst (simplessh_send_file session mode data_len
                              path s))))
      /\ (0 <= data_len <= INT_MAX ->
          forallb write_within_buflen
            (fst (simplessh_send_file session mode data_len path s))
          = true ->
          counter_after None
            (fst (simplessh_send_file session mode data_len path s))
          = Some (accepted
                    (fst (simplessh_send_file session mode data_len
                            path s)))).
Proof.
  intros session mode data_len path s.
  rewrite send_file_cases.
  destruct (scp_send_loop_spec session path mode data_len s) as [Hscp _].
  destruct (off_transfer_spec _ Hscp) as (Hfs & Has & Hcs).
  assert (Hfail : forall X,
             write_failed (send_mallocs ++ X) = write_failed X)
    by reflexivity.
  assert (Hacc : forall X, accepted (send_mallocs ++ X) = accepted X)
    by reflexivity.
  assert (Hcell : forall X,
             counter_after None (send_mallocs ++ X)
             = counter_after (Some 0) X) by reflexivity.
  unfold write_failed in *.
  destruct (scp_send_loop session path mode data_len s)
    as [tr [[e|channel] rest| |]]; cbn [fst snd] in *;
    rewrite fst_prefix, Hfail; cbn [fst];
    try (rewrite Hfs; discriminate).
  rewrite fst_prefix, snd_prefix, existsb_app, Hfs, orb_false_l.
  rewrite Hacc, Hcell, accepted_app, Has, Z.add_0_l.
  rewrite counter_after_app, Hcs, !forallb_app.
  pose proof (transfer_failure channel data_len rest) as Htf.
  pose proof (transfer_accepted channel data_len rest) as Hta.
  unfold write_failed in Htf.
  destruct (existsb hard_write (fst (transfer channel data_len rest)))
    eqn:Ew.
  - destruct (Htf eq_refl) as (rest2 & Hr & Hcnt).
    destruct (transfer channel data_len rest) as [tr2 o].
    cbn [fst snd] in *. subst o. intros _. exists rest2.
    cbn [fst snd]. split; [reflexivity|split; [reflexivity|]].
    split; [exact Hcnt|].
    intros Hlen Hc. rewrite Hcnt.
    apply andb_prop in Hc. destruct Hc as [_ Hc].
    apply andb_prop in Hc. destruct Hc as [_ Hc].
    rewrite wrap_int_small; [reflexivity|].
    specialize (Hta Hlen Hc).
    assert (Hnn : 0 <= accepted tr2).
    { clear. induction tr2 as [|e tr2 IH]; [reflexivity|].
      destruct e; cbn [accepted]; lia. }
    unfold INT_MIN, INT_MAX in *. lia.
  - destruct (transfer channel data_len rest)
      as [tr2 [[e|transferred] rest2| |]]; cbn [fst snd] in *;
      try (rewrite Ew; discriminate).
    rewrite fst_prefix, existsb_app, Ew, orb_false_l.
    destruct (finish_upload_spec channel transferred rest2) as [Hfin _].
    destruct (off_transfer_spec _ Hfin) as (Hff & _).
    unfold write_failed in Hff. rewrite Hff. discriminate.
Qed.

(** The run of the counterexample: 3 bytes accepted, then a hard error. *)
Lemma send_file_write_failure_returns_WRITE_witness :
  write_failed
    (fst (simplessh_send_file {| sock := 3; lsession := 1000 |} 420 5
            "/tmp/x" [77; 3; -1])) = true
  /\ exists rest,
      snd (simplessh_send_file {| sock := 3; lsession := 1000 |} 420 5
             "/tmp/x" [77; 3; -1])
      = Returned (LEFT WRITE) rest
      /\ carried_value (LEFT WRITE : simplessh_either Z) = None
      /\ counter_after None
           (fst (simplessh_send_file {| sock := 3; lsession := 1000 |} 420 5
                   "/tmp/x" [77; 3; -1]))
         = Some (wrap_int
                   (accepted
                      (fst (simplessh_send_file
                              {| sock := 3; lsession := 1000 |} 420 5
                              "/tmp/x" [77; 3; -1]))))
      /\ (0 <= 5 <= INT_MAX ->
          forallb write_within_buflen
            (fst (simplessh_send_file {| sock := 3; lsession := 1000 |} 420 5
                    "/tmp/x" [77; 3; -1]))
          = true ->
          counter_after None
            (fst (simplessh_send_file {| sock := 3; lsession := 1000 |} 420 5
                    "/tmp/x" [77; 3; -1]))
          = Some (accepted
                    (fst (simplessh_send_file
                            {| sock := 3; lsession := 1000 |} 420 5
                            "/tmp/x" [77; 3; -1])))).
Proof.
  split; [reflexivity|].
  apply (send_file_write_failure_returns_WRITE
           {| sock := 3; lsession := 1000 |} 420 5 "/tmp/x" [77; 3; -1]).
  reflexivity.
Defined.

(** * Further properties *)

(** ** Retry loops with an empty body *)

Lemma spin_while_eagain_cases (mk : Z -> event) (s : script) :
  (exists k rc rest,
      s = would_blocks k ++ rc :: rest
      /\ (rc =? LIBSSH2_ERROR_EAGAIN) = false
      /\ spin_while_eagain mk s
         = (map mk (would_blocks k ++ [rc]), Returned rc rest))
  \/ (exists k,
         s = would_blocks k /\ spin_while_eagain mk s = (map mk s, Blocked)).
Proof.
  induction s as [|a s IH].
  - right. exists 0%nat. split; reflexivity.
  - cbn [spin_while_eagain]. destruct (a =? LIBSSH2_ERROR_EAGAIN) eqn:Ha.
    + apply Z.eqb_eq in Ha. subst a.
      destruct IH as [(k & rc & rest & -> & Hrc & ->)|(k & -> & ->)].
      * left. exists (S k), rc, rest. repeat split; assumption.
      * right. exists (S k). split; reflexivity.
    + left. exists 0%nat, a, s. repeat split. exact Ha.
Qed.

Lemma spin_while_eagain_returns (mk : Z -> event) (s : script) :
  snd (spin_while_eagain mk s) <> Diverged.
Proof.
  induction s as [|a s IH]; [discriminate|].
  cbn [spin_while_eagain]. rewrite snd_prefix.
  destruct (a =? LIBSSH2_ERROR_EAGAIN); [exact IH|discriminate].
Qed.

Lemma authenticate_law (mk : Z -> event) (session : simplessh_session)
    (s : script) :
  authentication_law mk session s (authenticate mk session s).
Proof.
  unfold authenticate. rewrite bind_malloc.
  destruct (spin_while_eagain_cases mk s)
    as [(k & rc & rest & Hs & Hrc & Hrun)|(k & Hs & Hrun)].
  - left. exists k, rc, rest. repeat split; try assumption.
    unfold bind. rewrite Hrun.
    destruct (rc =? 0); unfold prefix, ret; cbn; rewrite app_nil_r;
      reflexivity.
  - right. exists k. split; [assumption|].
    unfold bind. rewrite Hrun. reflexivity.
Qed.

(** X1: each of the three authentication functions allocates its either and
    issues its engine call once per answer up to the first answer that is not
    the would-block code; it returns the value side holding the session it
    was given when that answer is 0 and the error side tagged AUTHENTICATION
    for any other answer, and it calls nothing else.  While every answer is
    the would-block code it goes on retrying, however many there are. *)
Theorem authentication_decided_by_first_final_answer :
  (forall session username password s,
      authentication_law (EvUserauthPassword (lsession session)) session s
        (simplessh_authenticate_password session username password s))
  /\ (forall session username public_key_path private_key_path passphrase s,
         authentication_law (EvUserauthPublickeyFromfile (lsession session))
           session s
           (simplessh_authenticate_key session username public_key_path
              private_key_path passphrase s))
  /\ (forall session username public_key public_key_len private_key
             private_key_len passphrase s,
         authentication_law (EvUserauthPublickeyFrommemory (lsession session))
           session s
           (simplessh_authenticate_memory session username public_key
              public_key_len private_key private_key_len passphrase s)).
Proof.
  repeat split; intros; apply authenticate_law.
Qed.

(** ** The connector *)

(** One turn of the candidate loop, by the answers it reads. *)
Lemma connect_loop_turn (res a : addrinfo) (ai_next : list addrinfo)
    (timeout : Z) (s : script) :
  connect_loop res (a :: ai_next) timeout s
  = match socket_loop res s with
    | (tr, Returned sock s1) =>
        if sock =? -1 then prefix tr (connect_loop res ai_next timeout s1)
        else
          match s1 with
          | [] => (tr ++ [EvConnect sock (ai_addr res)], Blocked)
          | rc :: s2 =>
              let polled :=
                [EvConnect sock (ai_addr res);
                 EvPoll sock POLLIN (wrap_int (timeout * 1000)) rc] in
              if (rc =? 0) || (rc =? -1) then
                prefix (tr ++ polled ++ [EvCloseFd sock])
                  (connect_loop res ai_next timeout s2)
              else
                match s2 with
                | [] => (tr ++ polled, Blocked)
                | revents :: s3 =>
                    if negb (Z.land revents (Z.lor POLLIN POLLPRI) =? 0) then
                      match s3 with
                      | [] =>
                          (tr ++ polled ++ [EvRevents revents; EvFreeaddrinfo],
                           Blocked)
                      | flags :: s4 =>
                          (tr ++ polled
                           ++ [EvRevents revents; EvFreeaddrinfo;
                               EvFcntlGetfl sock flags;
                               EvFcntlSetfl sock
                                 (Z.land flags (Z.lnot O_NONBLOCK))],
                           Returned sock s4)
                      end
                    else
                      prefix (tr ++ polled ++ [EvRevents revents;
                                               EvCloseFd sock])
                        (connect_loop res ai_next timeout s3)
                end
          end
    | (tr, Blocked) => (tr, Blocked)
    | (tr, Diverged) => (tr, Diverged)
    end.
Proof.
  cbn [connect_loop]. unfold bind at 1.
  destruct (socket_loop res s) as [tr [sock s1| |]]; try reflexivity.
  destruct (sock =? -1); [reflexivity|].
  rewrite bind_emit. unfold bind at 1, call.
  destruct s1 as [|rc s2].
  { unfold prefix; cbn. reflexivity. }
  cbn zeta. destruct ((rc =? 0) || (rc =? -1)).
  { rewrite bind_emit, !prefix_prefix, <- !app_assoc. reflexivity. }
  unfold bind at 1.
  destruct s2 as [|revents s3].
  { unfold prefix; cbn. reflexivity. }
  destruct (negb (Z.land revents (Z.lor POLLIN POLLPRI) =? 0)).
  - rewrite bind_emit. unfold bind at 1.
    destruct s3 as [|flags s4].
    + unfold prefix; cbn. reflexivity.
    + rewrite bind_emit. unfold ret, prefix; cbn. reflexivity.
  - rewrite bind_emit, !prefix_prefix, <- !app_assoc. reflexivity.
Qed.

Lemma open_fds_app (t1 t2 : trace) :
  forall fds, open_fds fds (t1 ++ t2) = open_fds (open_fds fds t1) t2.
Proof.
  induction t1 as [|e t1 IH]; intro fds; [reflexivity|].
  destruct e; cbn; apply IH.
Qed.

Lemma remove_fd_head (fd : Z) (fds : list Z) : remove_fd fd (fd :: fds) = fds.
Proof. cbn. now rewrite Z.eqb_refl. Qed.

Lemma socket_loop_spec (res : addrinfo) (s : script) :
  forallb attempt_call (fst (socket_loop res s)) = true
  /\ (forall fds,
         match snd (socket_loop res s) with
         | Returned sock _ =>
             open_fds fds (fst (socket_loop res s))
             = if sock =? -1 then fds else sock :: fds
         | Blocked => open_fds fds (fst (socket_loop res s)) = fds
         | Diverged => False
         end)
  /\ (forall sock rest,
         snd (socket_loop res s) = Returned sock rest ->
         (sock =? -1) = false ->
         In (EvSocket (ai_family res) (ai_socktype res) (ai_protocol res) sock)
            (fst (socket_loop res s))).
Proof.
  induction s as [s IH] using script_length_ind.
  destruct s as [|sock s1];
    [cbn; repeat split; auto; intros; discriminate|].
  cbn [socket_loop]. destruct (sock =? -1) eqn:Hs.
  - destruct s1 as [|errno s2]; [cbn; rewrite Hs; repeat split; auto;
                                  intros; discriminate|].
    destruct (errno =? EINTR).
    + destruct (IH s2) as (Hc & Hf & Hi); [cbn; lia|].
      rewrite !prefix_prefix. repeat split.
      * rewrite fst_prefix, forallb_app, Hc. reflexivity.
      * intro fds. rewrite snd_prefix, fst_prefix, open_fds_app.
        cbn [app open_fds]. rewrite Hs. apply Hf.
      * intros v rest Hv Hne. rewrite snd_prefix in Hv.
        rewrite fst_prefix. apply in_or_app. right. eauto.
    + cbn. rewrite Hs. repeat split; auto.
      intros v rest Hv Hne. injection Hv as <- _. congruence.
  - cbn. rewrite Hs. repeat split; auto.
    intros v rest Hv Hne. injection Hv as <- _. now left.
Qed.

(** The cases of one turn of the candidate loop, with what is known of the
    socket loop that starts it. *)
Ltac connect_turn res s :=
  rewrite connect_loop_turn;
  let Hsc := fresh "Hsc" in
  let Hsf := fresh "Hsf" in
  let Hsi := fresh "Hsi" in
  destruct (socket_loop_spec res s) as (Hsc & Hsf & Hsi);
  let tr := fresh "tr" in
  let sock := fresh "fd" in
  let s1 := fresh "s1" in
  destruct (socket_loop res s) as [tr [sock s1| |]];
  cbn [fst snd] in Hsc, Hsf, Hsi;
  [ let Hsock := fresh "Hfd" in
    destruct (sock =? -1) eqn:Hsock;
    [ | let rc := fresh "rc" in
        let s2 := fresh "s2" in
        destruct s1 as [|rc s2];
        [ | let Hrc := fresh "Hrc" in
            cbn zeta; destruct ((rc =? 0) || (rc =? -1)) eqn:Hrc;
            [ | let revents := fresh "revents" in
                let s3 := fresh "s3" in
                destruct s2 as [|revents s3];
                [ | let Hrev := fresh "Hrev" in
                    destruct (negb (Z.land revents (Z.lor POLLIN POLLPRI)
                                    =? 0)) eqn:Hrev;
                    [ let flags := fresh "flags" in
                      let s4 := fresh "s4" in
                      destruct s3 as [|flags s4] | ] ] ] ] ]
  | | exfalso; exact (Hsf []) ].

Lemma attempt_is_connector_call (ms : Z) (e : event) :
  attempt_call e = true -> connector_call ms e = true.
Proof. destruct e; cbn; congruence. Qed.

Lemma connect_loop_calls (res : addrinfo) (timeout : Z)
    (current : list addrinfo) :
  forall s,
    forallb (connector_call (wrap_int (timeout * 1000)))
      (fst (connect_loop res current timeout s)) = true.
Proof.
  induction current as [|a ai_next IH]; intro s; [reflexivity|].
  connect_turn res s;
    rewrite ?fst_prefix; cbn [fst]; rewrite ?forallb_app, ?IH;
    rewrite (forallb_impl _ _ _ (attempt_is_connector_call _) Hsc);
    unfold connector_call; cbn; rewrite ?Hfd, ?Z.eqb_refl; reflexivity.
Qed.

Lemma count_app (p : event -> bool) (t1 t2 : trace) :
  count p (t1 ++ t2) = (count p t1 + count p t2)%nat.
Proof. unfold count. now rewrite filter_app, length_app. Qed.

Lemma count_none (p q : event -> bool) (tr : trace) :
  (forall e, q e = true -> p e = false) ->
  forallb q tr = true -> count p tr = 0%nat.
Proof.
  intros Hpq. induction tr as [|e tr IH]; [reflexivity|].
  cbn. intros [He Htr]%andb_true_iff. unfold count in *. cbn.
  rewrite (Hpq e He). auto.
Qed.

Lemma attempt_not_connect (e : event) :
  attempt_call e = true -> is_connect e = false.
Proof. destruct e; cbn; congruence. Qed.

Lemma attempt_not_poll (e : event) :
  attempt_call e = true -> is_poll e = false.
Proof. destruct e; cbn; congruence. Qed.

Lemma attempt_not_freeaddrinfo (e : event) :
  attempt_call e = true -> is_freeaddrinfo e = false.
Proof. destruct e; cbn; congruence. Qed.

Lemma connect_loop_counts (res : addrinfo) (timeout : Z)
    (current : list addrinfo) :
  forall s,
    (count is_connect (fst (connect_loop res current timeout s))
     <= List.length current)%nat
    /\ (count is_poll (fst (connect_loop res current timeout s))
        <= count is_connect (fst (connect_loop res current timeout s)))%nat.
Proof.
  induction current as [|a ai_next IH]; intro s; [cbn; lia|].
  connect_turn res s;
    try (destruct (IH s1) as [IH1 IH2]);
    try (destruct (IH s2) as [IH1 IH2]);
    try (destruct (IH s3) as [IH1 IH2]);
    rewrite ?fst_prefix; cbn [fst]; rewrite ?count_app;
    rewrite (count_none _ _ _ attempt_not_connect Hsc);
    rewrite (count_none _ _ _ attempt_not_poll Hsc);
    cbn [List.length]; unfold count in *; cbn; lia.
Qed.

Lemma list_used_live_app (t1 t2 : trace) :
  forall b,
    list_used_live b (t1 ++ t2)
    = list_used_live b t1
      && list_used_live (b || existsb is_freeaddrinfo t1) t2.
Proof.
  induction t1 as [|e t1 IH]; intro b.
  - cbn. now rewrite orb_false_r.
  - destruct e; cbn [app list_used_live existsb is_freeaddrinfo];
      rewrite ?IH, ?orb_false_l, ?orb_true_l, ?orb_true_r;
      try reflexivity.
    + destruct b; cbn; [reflexivity|].
      destruct (existsb is_freeaddrinfo t1); reflexivity.
    + now rewrite andb_assoc.
    + now rewrite andb_assoc.
Qed.

Lemma attempts_use_list_live (tr : trace) :
  forallb attempt_call tr = true ->
  list_used_live false tr = true /\ existsb is_freeaddrinfo tr = false.
Proof.
  induction tr as [|e tr IH]; [auto|].
  cbn [forallb]. intros [He Htr]%andb_true_iff.
  destruct (IH Htr) as [IH1 IH2].
  destruct e; try discriminate He; cbn; auto.
Qed.

Lemma connect_loop_list (res : addrinfo) (timeout : Z)
    (current : list addrinfo) :
  forall s,
    list_used_live false (fst (connect_loop res current timeout s)) = true
    /\ (forall v rest,
           snd (connect_loop res current timeout s) = Returned v rest ->
           count is_freeaddrinfo (fst (connect_loop res current timeout s))
           = 1%nat).
Proof.
  induction current as [|a ai_next IH]; intro s.
  { cbn. split; [reflexivity|]. intros; reflexivity. }
  connect_turn res s;
    try (destruct (IH s1) as [IH1 IH2]);
    try (destruct (IH s2) as [IH1 IH2]);
    try (destruct (IH s3) as [IH1 IH2]);
    destruct (attempts_use_list_live _ Hsc) as [Hl He];
    rewrite ?fst_prefix, ?snd_prefix; cbn [fst snd];
    rewrite ?list_used_live_app, ?existsb_app, ?count_app, ?Hl, ?He;
    rewrite (count_none _ _ _ attempt_not_freeaddrinfo Hsc);
    cbn; rewrite ?IH1; (split; [reflexivity|]);
    try (intros; discriminate);
    try (intros v rest Hv; rewrite (IH2 v rest Hv); reflexivity).
  intros; reflexivity.
Qed.

Lemma connect_loop_fds (res : addrinfo) (timeout : Z)
    (current : list addrinfo) :
  forall s fds v rest,
    snd (connect_loop res current timeout s) = Returned v rest ->
    open_fds fds (fst (connect_loop res current timeout s))
    = (if v =? -1 then fds else v :: fds)
    /\ ((v =? -1) = false ->
        In (EvSocket (ai_family res) (ai_socktype res) (ai_protocol res) v)
           (fst (connect_loop res current timeout s))
        /\ exists tr0 rc revents flags,
            fst (connect_loop res current timeout s)
            = tr0 ++ [EvConnect v (ai_addr res);
                      EvPoll v POLLIN (wrap_int (timeout * 1000)) rc;
                      EvRevents revents; EvFreeaddrinfo;
                      EvFcntlGetfl v flags;
                      EvFcntlSetfl v (Z.land flags (Z.lnot O_NONBLOCK))]
            /\ (rc =? 0) || (rc =? -1) = false
            /\ (Z.land revents (Z.lor POLLIN POLLPRI) =? 0) = false).
Proof.
  induction current as [|a ai_next IH]; intros s fds v rest.
  { cbn. intros [= <- _]. cbn. split; [reflexivity|discriminate]. }
  connect_turn res s; try (intros; discriminate);
    rewrite ?fst_prefix, ?snd_prefix; cbn [fst snd].
  - (* no socket: next candidate *)
    intro Hv. destruct (IH s1 fds v rest Hv) as [IH1 IH2].
    rewrite open_fds_app, Hsf. split; [exact IH1|].
    intro Hne.
    destruct (IH2 Hne) as (Hin & tr0 & prc & prev & flags & Heq & Hok).
    split; [apply in_or_app; now right|].
    exists (tr ++ tr0), prc, prev, flags.
    split; [now rewrite Heq, app_assoc|exact Hok].
  - (* the poll failed or timed out *)
    intro Hv. destruct (IH s2 fds v rest Hv) as [IH1 IH2].
    rewrite !open_fds_app, Hsf. cbn [open_fds]. rewrite remove_fd_head.
    split; [exact IH1|].
    intro Hne.
    destruct (IH2 Hne) as (Hin & tr0 & prc & prev & flags & Heq & Hok).
    split; [apply in_or_app; now right|].
    exists ((tr ++ [EvConnect fd (ai_addr res);
                    EvPoll fd POLLIN (wrap_int (timeout * 1000)) rc]
                ++ [EvCloseFd fd]) ++ tr0), prc, prev, flags.
    split; [now rewrite Heq, app_assoc|exact Hok].
  - (* connected *)
    intros [= <- <-].
    rewrite !open_fds_app, Hsf. cbn [open_fds]. rewrite Hfd.
    split; [reflexivity|]. intros _. split.
    + apply in_or_app. left. eapply Hsi; eauto.
    + exists tr, rc, revents, flags.
      split; [reflexivity|]. split; [exact Hrc|].
      now apply negb_true_iff in Hrev.
  - (* no input on the socket *)
    intro Hv. destruct (IH s3 fds v rest Hv) as [IH1 IH2].
    rewrite !open_fds_app, Hsf. cbn [open_fds]. rewrite remove_fd_head.
    split; [exact IH1|].
    intro Hne.
    destruct (IH2 Hne) as (Hin & tr0 & prc & prev & flags & Heq & Hok).
    split; [apply in_or_app; now right|].
    exists ((tr ++ [EvConnect fd (ai_addr res);
                    EvPoll fd POLLIN (wrap_int (timeout * 1000)) rc]
                ++ [EvRevents revents; EvCloseFd fd]) ++ tr0),
      prc, prev, flags.
    split; [now rewrite Heq, app_assoc|exact Hok].
Qed.

Lemma get_socket_cases (getaddrinfo : string -> Z -> resolution)
    (hostname : string) (port timeout : Z) (s : script) :
  get_socket getaddrinfo hostname port timeout s
  = prefix [EvGetaddrinfo hostname port (gai_rc (getaddrinfo hostname port))]
      (if negb (gai_rc (getaddrinfo hostname port) =? 0) then
         (match gai_res (getaddrinfo hostname port) with
          | [] => []
          | _ :: _ => [EvFreeaddrinfo]
          end, Returned (-1) s)
       else
         match gai_res (getaddrinfo hostname port) with
         | [] => ([EvFreeaddrinfo], Returned (-1) s)
         | res :: _ =>
             connect_loop res (gai_res (getaddrinfo hostname port)) timeout s
         end).
Proof.
  unfold get_socket. cbv zeta. rewrite bind_emit. f_equal.
  destruct (negb (gai_rc (getaddrinfo hostname port) =? 0)).
  - destruct (gai_res (getaddrinfo hostname port)); reflexivity.
  - destruct (gai_res (getaddrinfo hostname port)); reflexivity.
Qed.

Lemma connect_loop_returns (res : addrinfo) (timeout : Z)
    (current : list addrinfo) :
  forall s, snd (connect_loop res current timeout s) <> Diverged.
Proof.
  induction current as [|a ai_next IH]; intro s; [discriminate|].
  connect_turn res s; rewrite ?snd_prefix; cbn [snd];
    try discriminate; apply IH.
Qed.

Lemma connector_call_on_descriptor (ms : Z) (tr : trace) :
  forallb (connector_call ms) tr = true -> forallb on_descriptor tr = true.
Proof.
  apply forallb_impl. intros e He. unfold connector_call in He.
  apply andb_true_iff in He as [He _].
  apply andb_true_iff in He as [_ He]. exact He.
Qed.

Lemma connector_call_socket_call (ms : Z) (tr : trace) :
  forallb (connector_call ms) tr = true -> forallb socket_call tr = true.
Proof.
  apply forallb_impl. intros e He. unfold connector_call in He.
  apply andb_true_iff in He as [He _].
  apply andb_true_iff in He as [He _]. exact He.
Qed.

Lemma connector_call_polls_for (ms : Z) (tr : trace) :
  forallb (connector_call ms) tr = true -> forallb (polls_for ms) tr = true.
Proof.
  apply forallb_impl. intros e He. unfold connector_call in He.
  apply andb_true_iff in He as [_ He]. exact He.
Qed.

(** The connector as a whole: its calls, and the descriptors it leaves
    open. *)
Lemma get_socket_run (getaddrinfo : string -> Z -> resolution)
    (hostname : string) (port timeout : Z) (s : script) :
  forallb (connector_call (wrap_int (timeout * 1000)))
    (fst (get_socket getaddrinfo hostname port timeout s)) = true
  /\ match snd (get_socket getaddrinfo hostname port timeout s) with
     | Returned v _ =>
         open_fds [] (fst (get_socket getaddrinfo hostname port timeout s))
         = (if v =? -1 then [] else [v])
         /\ ((v =? -1) = false ->
             exists family type protocol,
               In (EvSocket family type protocol v)
                  (fst (get_socket getaddrinfo hostname port timeout s)))
     | Blocked => True
     | Diverged => False
     end.
Proof.
  rename getaddrinfo into g, hostname into h, port into p, timeout into t.
  rewrite get_socket_cases.
  destruct (negb (gai_rc (g h p) =? 0)).
  { destruct (gai_res (g h p)); cbn; (split; [reflexivity|]);
      (split; [reflexivity|discriminate]). }
  destruct (gai_res (g h p)) as [|res l] eqn:Hres.
  { cbn. split; [reflexivity|]. split; [reflexivity|discriminate]. }
  rewrite <- Hres. rewrite fst_prefix, snd_prefix. split.
  - rewrite forallb_app, connect_loop_calls. reflexivity.
  - pose proof (connect_loop_returns res t (gai_res (g h p)) s) as Hnd.
    pose proof (connect_loop_fds res t (gai_res (g h p)) s []) as Hfds.
    destruct (snd (connect_loop res (gai_res (g h p)) t s))
      as [v rest| |]; [|exact I|congruence].
    destruct (Hfds v rest eq_refl) as [H1 H2].
    cbn [app open_fds]. split; [exact H1|].
    intro Hne. destruct (H2 Hne) as [Hin _].
    exists (ai_family res), (ai_socktype res), (ai_protocol res).
    now right.
Qed.

(** X2: every descriptor that [get_socket] obtains from [socket] and does not
    return is closed before it returns: at a return of -1 none is left open,
    and a return of another value leaves open that descriptor only, which
    is one that [socket] delivered.  No connect, poll or close is ever given
    the -1 of a failed [socket]. *)
Theorem get_socket_closes_what_it_does_not_return :
  forall getaddrinfo hostname port timeout s,
    forallb on_descriptor
      (fst (get_socket getaddrinfo hostname port timeout s)) = true
    /\ match snd (get_socket getaddrinfo hostname port timeout s) with
       | Returned v _ =>
           open_fds [] (fst (get_socket getaddrinfo hostname port timeout s))
           = (if v =? -1 then [] else [v])
           /\ ((v =? -1) = false ->
               exists family type protocol,
                 In (EvSocket family type protocol v)
                    (fst (get_socket getaddrinfo hostname port timeout s)))
       | Blocked => True
       | Diverged => False
       end.
Proof.
  intros g h p t s. destruct (get_socket_run g h p t s) as [Hc Hr].
  split; [|exact Hr]. eapply connector_call_on_descriptor, Hc.
Qed.

Lemma clear_nonblock_bits (flags : Z) :
  Z.testbit (Z.land flags (Z.lnot O_NONBLOCK)) 11 = false
  /\ forall i, i <> 11 ->
       Z.testbit (Z.land flags (Z.lnot O_NONBLOCK)) i = Z.testbit flags i.
Proof.
  change O_NONBLOCK with (2 ^ 11). split.
  - rewrite Z.land_spec, Z.lnot_spec, Z.pow2_bits_true by lia.
    apply andb_false_r.
  - intros i Hi. destruct (Z.neg_nonneg_cases i) as [Hneg|Hpos].
    + now rewrite !Z.testbit_neg_r.
    + rewrite Z.land_spec, Z.lnot_spec, Z.pow2_bits_false by lia.
      apply andb_true_r.
Qed.

Lemma input_reported (revents : Z) :
  (Z.land revents (Z.lor POLLIN POLLPRI) =? 0) = false ->
  Z.testbit revents 0 || Z.testbit revents 1 = true.
Proof.
  intro H. apply Z.eqb_neq in H.
  destruct (Z.testbit revents 0) eqn:H0; [reflexivity|].
  destruct (Z.testbit revents 1) eqn:H1; [reflexivity|].
  exfalso. apply H. apply Z.bits_inj'. intros n Hn.
  rewrite Z.land_spec, Z.bits_0.
  change (Z.lor POLLIN POLLPRI) with 3.
  destruct (Z.eq_dec n 0) as [->|Hn0]; [now rewrite H0|].
  destruct (Z.eq_dec n 1) as [->|Hn1]; [now rewrite H1|].
  replace (Z.testbit 3 n) with false; [apply andb_false_r|].
  symmetry. change 3 with (Z.ones 2). apply Z.ones_spec_high. lia.
Qed.

(** X3: a descriptor that [get_socket] returns is one it connected, on
    which [poll] returned neither 0 nor -1 and reported input (POLLIN or
    POLLPRI), and which it put back into blocking mode: the last calls before
    the return are the connect, the poll, the release of the address list,
    the read of the descriptor's status flags and their write-back with the
    O_NONBLOCK bit cleared and every other bit as it was read. *)
Theorem get_socket_returns_blocking_descriptor :
  forall getaddrinfo hostname port timeout s,
    match snd (get_socket getaddrinfo hostname port timeout s) with
    | Returned v _ =>
        v = -1
        \/ exists tr0 addr rc revents flags,
            fst (get_socket getaddrinfo hostname port timeout s)
            = tr0 ++ [EvConnect v addr;
                      EvPoll v POLLIN (wrap_int (timeout * 1000)) rc;
                      EvRevents revents; EvFreeaddrinfo;
                      EvFcntlGetfl v flags;
                      EvFcntlSetfl v (Z.land flags (Z.lnot O_NONBLOCK))]
            /\ (rc =? 0) || (rc =? -1) = false
            /\ (Z.testbit revents 0 || Z.testbit revents 1) = true
            /\ Z.testbit (Z.land flags (Z.lnot O_NONBLOCK)) 11 = false
            /\ forall i, i <> 11 ->
                 Z.testbit (Z.land flags (Z.lnot O_NONBLOCK)) i
                 = Z.testbit flags i
    | Blocked => True
    | Diverged => False
    end.
Proof.
  intros g h p t s. rewrite get_socket_cases.
  destruct (negb (gai_rc (g h p) =? 0)).
  { destruct (gai_res (g h p)); cbn; now left. }
  destruct (gai_res (g h p)) as [|res l] eqn:Hres; [cbn; now left|].
  rewrite <- Hres. rewrite fst_prefix, snd_prefix.
  pose proof (connect_loop_returns res t (gai_res (g h p)) s) as Hnd.
  pose proof (connect_loop_fds res t (gai_res (g h p)) s []) as Hfds.
  destruct (snd (connect_loop res (gai_res (g h p)) t s))
    as [v rest| |]; [|exact I|congruence].
  destruct (Hfds v rest eq_refl) as [_ H2].
  destruct (v =? -1) eqn:Hv; [left; now apply Z.eqb_eq|right].
  destruct (H2 eq_refl) as (_ & tr0 & rc & revents & flags & Heq & Hrc & Hrev).
  exists ([EvGetaddrinfo h p (gai_rc (g h p))] ++ tr0), (ai_addr res), rc,
    revents, flags.
  rewrite Heq, <- app_assoc. split; [reflexivity|].
  split; [exact Hrc|]. split; [|apply clear_nonblock_bits].
  apply input_reported. exact Hrev.
Qed.

(** X4: [get_socket] releases the address list exactly once on every return,
    except after a failed resolution that delivered no list, where there is
    nothing to release; and no [socket] or [connect], which read the head of
    the list, comes after the release. *)
Theorem get_socket_releases_address_list_once :
  forall getaddrinfo hostname port timeout s,
    list_used_live false
      (fst (get_socket getaddrinfo hostname port timeout s)) = true
    /\ match snd (get_socket getaddrinfo hostname port timeout s) with
       | Returned _ _ =>
           count is_freeaddrinfo
             (fst (get_socket getaddrinfo hostname port timeout s))
           = match gai_res (getaddrinfo hostname port) with
             | [] => if gai_rc (getaddrinfo hostname port) =? 0
                     then 1%nat else 0%nat
             | _ :: _ => 1%nat
             end
       | Blocked => True
       | Diverged => False
       end.
Proof.
  intros g h p t s. rewrite get_socket_cases.
  destruct (gai_rc (g h p) =? 0); cbn [negb].
  2:{ destruct (gai_res (g h p)); cbn; auto. }
  destruct (gai_res (g h p)) as [|res l] eqn:Hres; [cbn; auto|].
  rewrite <- Hres. rewrite fst_prefix, snd_prefix.
  pose proof (connect_loop_returns res t (gai_res (g h p)) s) as Hnd.
  destruct (connect_loop_list res t (gai_res (g h p)) s) as [Hl Hc].
  split; [exact Hl|].
  destruct (snd (connect_loop res (gai_res (g h p)) t s))
    as [v rest| |]; [|exact I|congruence].
  rewrite count_app, (Hc v rest eq_refl). reflexivity.
Qed.

(** X5: [get_socket] connects at most once per candidate of the list and
    polls at most once per connect; every poll waits for input only and is
    given the whole timeout, [timeout * 1000] as an [int], so the timeout
    bounds the wait for one candidate, not the call. *)
Theorem get_socket_attempts_bounded_by_candidates :
  forall getaddrinfo hostname port timeout s,
    (count is_connect (fst (get_socket getaddrinfo hostname port timeout s))
     <= List.length (gai_res (getaddrinfo hostname port)))%nat
    /\ (count is_poll (fst (get_socket getaddrinfo hostname port timeout s))
        <= count is_connect
             (fst (get_socket getaddrinfo hostname port timeout s)))%nat
    /\ forallb (polls_for (wrap_int (timeout * 1000)))
         (fst (get_socket getaddrinfo hostname port timeout s)) = true.
Proof.
  intros g h p t s. rewrite get_socket_cases.
  destruct (negb (gai_rc (g h p) =? 0)).
  { destruct (gai_res (g h p)); cbn; repeat split; lia. }
  destruct (gai_res (g h p)) as [|res l] eqn:Hres.
  { cbn; repeat split; lia. }
  rewrite <- Hres. rewrite fst_prefix, !count_app.
  destruct (connect_loop_counts res t (gai_res (g h p)) s) as [H1 H2].
  repeat split; [exact H1|exact H2|].
  cbn [app forallb polls_for andb].
  eapply connector_call_polls_for, connect_loop_calls.
Qed.

(** ** What a function holds when it returns *)

Lemma holds_nothing_spec (tr : trace) :
  forallb holds_nothing tr = true ->
  (forall live, live_blocks live tr = live)
  /\ (forall fds, open_fds fds tr = fds)
  /\ library_uses tr = 0 /\ engine_sessions tr = 0 /\ engine_channels tr = 0.
Proof.
  intro H. unfold library_uses, engine_sessions, engine_channels.
  rewrite (count_none is_lib_init holds_nothing tr),
    (count_none is_lib_exit holds_nothing tr),
    (count_none is_session_init holds_nothing tr),
    (count_none is_session_free holds_nothing tr),
    (count_none is_channel_opened holds_nothing tr),
    (count_none is_channel_freed holds_nothing tr);
    try exact H; try (intros []; cbn; congruence).
  - repeat split.
    + intro live. apply live_blocks_kept. revert H. apply forallb_impl.
      intros []; cbn; congruence.
    + induction tr as [|e tr IH]; intro fds; [reflexivity|].
      cbn [forallb] in H. apply andb_true_iff in H as [He Htr].
      destruct e; try discriminate He; cbn; now apply IH.
  - intros e He. destruct e; try reflexivity.
    destruct rc as [rc|]; [|reflexivity].
    cbn [holds_nothing is_channel_opened is_channel_free_call andb negb]
      in He.
    destruct (Z.eqb_spec rc LIBSSH2_ERROR_EAGAIN) as [Heq|Hne];
      [now rewrite Heq|discriminate].
  - intros e He. destruct e; try reflexivity; cbn in He |- *.
    + now destruct (channel =? 0).
    + now destruct (channel =? 0).
Qed.

Lemma holdings_after_app (t1 t2 : trace) :
  holdings_after (t1 ++ t2)
  = {| held_blocks := live_blocks (held_blocks (holdings_after t1)) t2;
       held_fds := open_fds (held_fds (holdings_after t1)) t2;
       held_library := held_library (holdings_after t1) + library_uses t2;
       held_sessions :=
         held_sessions (holdings_after t1) + engine_sessions t2;
       held_channels :=
         held_channels (holdings_after t1) + engine_channels t2 |}.
Proof.
  unfold holdings_after, library_uses, engine_sessions, engine_channels.
  cbn [held_blocks held_fds held_library held_sessions held_channels].
  rewrite live_blocks_app, open_fds_app, !count_app. f_equal; lia.
Qed.

(** Calls that hold nothing leave the holdings as they are. *)
Lemma holdings_kept (t1 t2 : trace) :
  forallb holds_nothing t2 = true ->
  holdings_after (t1 ++ t2) = holdings_after t1.
Proof.
  intro H. rewrite holdings_after_app.
  destruct (holds_nothing_spec t2 H) as (Hb & Hf & Hl & Hs & Hc).
  rewrite Hb, Hf, Hl, Hs, Hc, !Z.add_0_r. reflexivity.
Qed.

Lemma channel_state_after_app (st : channel_state) (t1 t2 : trace) :
  channel_state_after st (t1 ++ t2)
  = channel_state_after (channel_state_after st t1) t2.
Proof. apply fold_left_app. Qed.

(** Calls that hold nothing leave the channel in the state it was in. *)
Lemma channel_state_kept (st : channel_state) (tr : trace) :
  forallb holds_nothing tr = true -> channel_state_after st tr = st.
Proof.
  induction tr as [|e tr IH]; intro H; [reflexivity|].
  cbn [forallb] in H. apply andb_true_iff in H as [He Htr].
  change (channel_state_after (channel_step st e) tr = st).
  assert (Hst : channel_step st e = st).
  { destruct e; try reflexivity; cbn in He |- *.
    - now destruct (channel =? 0).
    - destruct rc as [rc|]; [|discriminate].
      now destruct (rc =? LIBSSH2_ERROR_EAGAIN).
    - now destruct (channel =? 0). }
  rewrite Hst. now apply IH.
Qed.

Lemma account_app (t1 t2 : trace) :
  account (t1 ++ t2)
  = ({| held_blocks := live_blocks (held_blocks (fst (account t1))) t2;
        held_fds := open_fds (held_fds (fst (account t1))) t2;
        held_library := held_library (fst (account t1)) + library_uses t2;
        held_sessions :=
          held_sessions (fst (account t1)) + engine_sessions t2;
        held_channels :=
          held_channels (fst (account t1)) + engine_channels t2 |},
     channel_state_after (snd (account t1)) t2).
Proof.
  unfold account. cbn [fst snd].
  now rewrite holdings_after_app, channel_state_after_app.
Qed.

Lemma account_kept (t1 t2 : trace) :
  forallb holds_nothing t2 = true -> account (t1 ++ t2) = account t1.
Proof.
  intro H. unfold account.
  now rewrite holdings_kept, channel_state_after_app, channel_state_kept.
Qed.

Lemma socket_call_holdings (t1 tr : trace) :
  forallb socket_call tr = true ->
  holdings_after (t1 ++ tr)
  = {| held_blocks := held_blocks (holdings_after t1);
       held_fds := open_fds (held_fds (holdings_after t1)) tr;
       held_library := held_library (holdings_after t1);
       held_sessions := held_sessions (holdings_after t1);
       held_channels := held_channels (holdings_after t1) |}.
Proof.
  intro H. rewrite holdings_after_app.
  unfold library_uses, engine_sessions, engine_channels.
  rewrite (count_none is_lib_init socket_call tr),
    (count_none is_lib_exit socket_call tr),
    (count_none is_session_init socket_call tr),
    (count_none is_session_free socket_call tr),
    (count_none is_channel_opened socket_call tr),
    (count_none is_channel_freed socket_call tr);
    try exact H; try (intros []; cbn; congruence).
  rewrite live_blocks_kept.
  - f_equal; lia.
  - revert H. apply forallb_impl. intros []; cbn; congruence.
Qed.

Lemma handshakes_hold_nothing (handle fd : Z) (s : script) :
  forallb holds_nothing (fst (spin_while_eagain (EvHandshake handle fd) s))
  = true.
Proof. apply forallb_spin. reflexivity. Qed.

Lemma open_session_cases (getaddrinfo : string -> Z -> resolution)
    (hostname : string) (port timeout : Z) (s : script) :
  simplessh_open_session getaddrinfo hostname port timeout s
  = prefix open_mallocs
      (match get_socket getaddrinfo hostname port timeout s with
       | (tr, Returned fd s1) =>
           if fd =? -1 then (tr, Returned (LEFT CONNECT) s1)
           else
             match s1 with
             | [] => (tr, Blocked)
             | handle :: s2 =>
                 let session := {| sock := fd; lsession := handle |} in
                 prefix (tr ++ [EvSessionInit handle; EvSetBlocking handle 0;
                                EvSetTimeout handle
                                  (wrap_int (timeout * 1000))])
                   (match spin_while_eagain (EvHandshake handle fd) s2 with
                    | (tr2, Returned rc s3) =>
                        if negb (rc =? 0) then
                          (tr2 ++ teardown session,
                           Returned (LEFT HANDSHAKE) s3)
                        else (tr2, Returned (RIGHT session) s3)
                    | (tr2, Blocked) => (tr2, Blocked)
                    | (tr2, Diverged) => (tr2, Diverged)
                    end)
             end
       | (tr, Blocked) => (tr, Blocked)
       | (tr, Diverged) => (tr, Diverged)
       end).
Proof.
  unfold simplessh_open_session.
  rewrite bind_emit, !bind_malloc, !prefix_prefix. cbv beta. f_equal.
  unfold bind at 1.
  destruct (get_socket getaddrinfo hostname port timeout s)
    as [tr [fd s1| |]]; try reflexivity.
  destruct (fd =? -1).
  { unfold ret, prefix. cbn. now rewrite app_nil_r. }
  unfold bind at 1, call. destruct s1 as [|handle s2].
  { unfold prefix. cbn. now rewrite app_nil_r. }
  cbn [is_null]. cbv zeta. rewrite !bind_emit, !prefix_prefix.
  rewrite <- !app_assoc. cbn [app]. f_equal.
  unfold bind at 1.
  destruct (spin_while_eagain (EvHandshake handle fd) s2)
    as [tr2 [rc s3| |]]; try reflexivity.
  destruct (negb (rc =? 0)).
  - unfold returnLocalErrorSP, simplessh_close_session.
    unfold bind, emit, ret, prefix. cbn. reflexivity.
  - unfold ret, prefix. cbn. now rewrite app_nil_r.
Qed.

Lemma open_session_holdings (getaddrinfo : string -> Z -> resolution)
    (hostname : string) (port timeout : Z) (s : script) :
  open_session_holds
    (simplessh_open_session getaddrinfo hostname port timeout s).
Proof.
  unfold open_session_holds. rewrite open_session_cases.
  destruct (get_socket_run getaddrinfo hostname port timeout s) as [Hc Hr].
  apply connector_call_socket_call in Hc.
  destruct (get_socket getaddrinfo hostname port timeout s)
    as [tr [fd s1| |]]; cbn [fst snd] in Hc, Hr;
    [|exact I|destruct Hr].
  destruct Hr as [Hfds Hin].
  assert (Hconn : holdings_after (open_mallocs ++ tr)
                  = {| held_blocks := [EitherBlock; SessionBlock];
                       held_fds := if fd =? -1 then [] else [fd];
                       held_library := 1; held_sessions := 0;
                       held_channels := 0 |}).
  { rewrite (socket_call_holdings _ _ Hc). cbn. now rewrite Hfds. }
  destruct (fd =? -1) eqn:Hfd.
  { cbn [prefix fst snd]. left. split; [reflexivity|exact Hconn]. }
  destruct s1 as [|handle s2]; [exact I|].
  cbv zeta. rewrite prefix_prefix, snd_prefix, fst_prefix.
  pose proof (handshakes_hold_nothing handle fd s2) as Hh.
  pose proof (spin_while_eagain_returns (EvHandshake handle fd) s2) as Hnd.
  destruct (spin_while_eagain (EvHandshake handle fd) s2)
    as [tr2 [rc s3| |]]; cbn [fst snd] in Hh, Hnd |- *;
    [|exact I|congruence].
  assert (Hinit : holdings_after
                    ((open_mallocs
                      ++ tr ++ [EvSessionInit handle; EvSetBlocking handle 0;
                                EvSetTimeout handle
                                  (wrap_int (timeout * 1000))]) ++ tr2)
                  = {| held_blocks := [EitherBlock; SessionBlock];
                       held_fds := [fd];
                       held_library := 1; held_sessions := 1;
                       held_channels := 0 |}).
  { rewrite (holdings_kept _ _ Hh), app_assoc, holdings_after_app, Hconn.
    reflexivity. }
  destruct (negb (rc =? 0)); cbn [fst snd].
  - right. split; [reflexivity|].
    rewrite app_assoc, holdings_after_app, Hinit.
    cbn. rewrite Z.eqb_refl. reflexivity.
  - split; [exact Hinit|].
    cbn [lsession]. apply in_or_app. left. apply in_or_app. right.
    apply in_or_app. right. now left.
Qed.

(** X6: what [simplessh_open_session] holds at each return.  It returns
    CONNECT, HANDSHAKE or a session, never another error.  At a CONNECT
    return the session block is still allocated and [libssh2_init] is not
    matched by [libssh2_exit], with no descriptor open and no engine session.
    At a HANDSHAKE return only the either is left: the engine session is
    freed, the descriptor closed, the session block released and the library
    exited.  At a success return the caller holds the either, the session
    block, the descriptor stored in the session, one use of the library and
    the engine session whose handle is stored in the session. *)
Theorem open_session_holdings_at_return :
  forall getaddrinfo hostname port timeout s,
    open_session_holds
      (simplessh_open_session getaddrinfo hostname port timeout s).
Proof. exact open_session_holdings. Qed.

(** X7: open then close.  [simplessh_close_session] on the session that a
    successful [simplessh_open_session] returned releases all that the open
    left held but the either: the session block is freed, the descriptor
    closed, the engine session freed and the library exited. *)
Theorem close_session_releases_what_open_holds :
  forall getaddrinfo hostname port timeout s,
    match snd (simplessh_open_session getaddrinfo hostname port timeout s)
    with
    | Returned (RIGHT session) rest =>
        snd (simplessh_close_session session rest) = Returned tt rest
        /\ holdings_after
             (fst (simplessh_open_session getaddrinfo hostname port timeout s)
              ++ fst (simplessh_close_session session rest))
           = only_blocks [EitherBlock]
    | _ => True
    end.
Proof.
  intros g h p t s.
  pose proof (open_session_holdings g h p t s) as H.
  unfold open_session_holds in H.
  destruct (snd (simplessh_open_session g h p t s))
    as [[e|session] rest| |]; try exact I.
  destruct H as [H _]. split; [reflexivity|].
  rewrite holdings_after_app, H.
  cbn. rewrite Z.eqb_refl. reflexivity.
Qed.

(** X8: without a candidate, because the resolution failed or delivered an
    empty list, [get_socket] returns -1 at once: it creates no socket and
    reads no answer, whatever the script; [simplessh_open_session] then
    returns the error side tagged CONNECT after nothing but its allocations
    and the calls of [get_socket]. *)
Theorem open_session_without_candidates :
  forall getaddrinfo hostname port timeout s,
    gai_rc (getaddrinfo hostname port) <> 0
    \/ gai_res (getaddrinfo hostname port) = [] ->
    snd (get_socket getaddrinfo hostname port timeout s) = Returned (-1) s
    /\ count is_socket (fst (get_socket getaddrinfo hostname port timeout s))
       = 0%nat
    /\ simplessh_open_session getaddrinfo hostname port timeout s
       = (open_mallocs
          ++ fst (get_socket getaddrinfo hostname port timeout s),
          Returned (LEFT CONNECT) s).
Proof.
  intros g h p t s H.
  assert (Hrun : snd (get_socket g h p t s) = Returned (-1) s
                 /\ count is_socket (fst (get_socket g h p t s)) = 0%nat).
  { rewrite get_socket_cases.
    destruct (gai_rc (g h p) =? 0) eqn:Hrc; cbn [negb].
    - destruct H as [H|H]; [apply Z.eqb_eq in Hrc; contradiction|].
      rewrite H. split; reflexivity.
    - destruct (gai_res (g h p)); split; reflexivity. }
  destruct Hrun as [Hret Hcount]. repeat split; [exact Hret|exact Hcount|].
  rewrite open_session_cases.
  destruct (get_socket g h p t s) as [tr o]. cbn [snd fst] in *.
  subst o. reflexivity.
Qed.

Lemma open_session_without_candidates_witness :
  (gai_rc (no_such_host "nowhere" 22) <> 0
   \/ gai_res (no_such_host "nowhere" 22) = [])
  /\ snd (get_socket no_such_host "nowhere" 22 5 [7; 1; 1])
     = Returned (-1) [7; 1; 1]
  /\ count is_socket (fst (get_socket no_such_host "nowhere" 22 5 [7; 1; 1]))
     = 0%nat
  /\ simplessh_open_session no_such_host "nowhere" 22 5 [7; 1; 1]
     = (open_mallocs ++ fst (get_socket no_such_host "nowhere" 22 5 [7; 1; 1]),
        Returned (LEFT CONNECT) [7; 1; 1]).
Proof.
  assert (H : gai_rc (no_such_host "nowhere" 22) <> 0
              \/ gai_res (no_such_host "nowhere" 22) = []).
  { right. reflexivity. }
  split; [exact H|].
  exact (open_session_without_candidates no_such_host "nowhere" 22 5
           [7; 1; 1] H).
Defined.

Lemma exec_command_cases (session : simplessh_session) (command : string)
    (s : script) :
  simplessh_exec_command session command s
  = prefix exec_mallocs
      (match open_channel_loop session s with
       | (tr, Returned (Return e) rest) => (tr, Returned e rest)
       | (tr, Returned (Continue channel) rest) =>
           prefix tr
             (match channel_exec_loop session channel command rest with
              | (tr2, Returned (Return e) rest2) => (tr2, Returned e rest2)
              | (tr2, Returned (Continue _) rest2) =>
                  prefix tr2
                    (exec_on_channel session channel empty_result rest2)
              | (tr2, Blocked) => (tr2, Blocked)
              | (tr2, Diverged) => (tr2, Diverged)
              end)
       | (tr, Blocked) => (tr, Blocked)
       | (tr, Diverged) => (tr, Diverged)
       end).
Proof.
  unfold simplessh_exec_command.
  rewrite !bind_malloc, !prefix_prefix. cbv beta zeta. f_equal.
  unfold bind at 1.
  destruct (open_channel_loop session s)
    as [tr [[e|channel] rest| |]]; try reflexivity.
  - unfold ret, prefix. cbn. now rewrite app_nil_r.
  - f_equal. unfold bind at 1.
    destruct (channel_exec_loop session channel command rest)
      as [tr2 [[e|[]] rest2| |]]; try reflexivity.
    unfold ret, prefix. cbn. now rewrite app_nil_r.
Qed.

Lemma staged_impl {A B} (c c' : event -> bool) (error : simplessh_error)
    (rel : trace) (r : run (flow (simplessh_either A) B)) :
  (forall e, c e = true -> c' e = true) ->
  staged c error rel r -> staged c' error rel r.
Proof.
  intros Hcc. unfold staged. destruct (snd r) as [[v|b] rest| |].
  - intros [-> (tr0 & Hfst & Htr0)]. split; [reflexivity|].
    exists tr0. split; [exact Hfst|]. revert Htr0. now apply forallb_impl.
  - now apply forallb_impl.
  - now apply forallb_impl.
  - auto.
Qed.

(** The open loop hands over the channel that its last call returned, which
    is not NULL. *)
Lemma open_channel_loop_holds (session : simplessh_session) (s : script) :
  match snd (open_channel_loop session s) with
  | Returned (Continue channel) _ =>
      (channel =? 0) = false
      /\ exists tr0,
          fst (open_channel_loop session s)
          = tr0 ++ [EvChannelOpenSession (lsession session) channel]
          /\ forallb holds_nothing tr0 = true
  | Returned (Return v) _ =>
      v = LEFT CHANNEL_OPEN
      /\ exists tr0,
          fst (open_channel_loop session s) = tr0 ++ released None None
          /\ forallb holds_nothing tr0 = true
  | Blocked => True
  | Diverged => False
  end.
Proof.
  induction s as [s IH] using script_length_ind.
  destruct s as [|channel s1]; [exact I|].
  cbn [open_channel_loop]. rewrite snd_prefix, fst_prefix.
  destruct (channel =? 0) eqn:Hch.
  2:{ cbn. split; [exact Hch|]. now exists []. }
  destruct s1 as [|e s2]; [exact I|].
  rewrite snd_prefix, fst_prefix.
  assert (Hpre : forallb holds_nothing
                   [EvChannelOpenSession (lsession session) channel;
                    EvLastErrno (lsession session) e] = true).
  { cbn. now rewrite Hch. }
  destruct (e =? LIBSSH2_ERROR_EAGAIN).
  - destruct s2 as [|dir [|rc s3]]; cbn [wait_then]; try exact I.
    rewrite snd_prefix, fst_prefix.
    specialize (IH s3). 
    destruct (snd (open_channel_loop session s3))
      as [[v|ch] rest| |]; try exact I.
    + destruct IH as [-> (tr0 & -> & Htr0)]; [cbn; lia|].
      split; [reflexivity|].
      exists ([EvChannelOpenSession (lsession session) channel;
               EvLastErrno (lsession session) e]
              ++ fst (waitsocket (sock session) (lsession session) dir rc)
              ++ tr0).
      split; [now rewrite <- !app_assoc|].
      rewrite !forallb_app, Hpre, Htr0. reflexivity.
    + destruct IH as [Hne (tr0 & -> & Htr0)]; [cbn; lia|].
      split; [exact Hne|].
      exists ([EvChannelOpenSession (lsession session) channel;
               EvLastErrno (lsession session) e]
              ++ fst (waitsocket (sock session) (lsession session) dir rc)
              ++ tr0).
      split; [now rewrite <- !app_assoc|].
      rewrite !forallb_app, Hpre, Htr0. reflexivity.
    + apply IH. cbn; lia.
  - cbn. split; [reflexivity|].
    exists [EvChannelOpenSession (lsession session) channel;
            EvLastErrno (lsession session) e].
    split; [reflexivity|exact Hpre].
Qed.

Lemma channel_exec_loop_holds (session : simplessh_session) (channel : Z)
    (command : string) (s : script) :
  staged holds_nothing CHANNEL_EXEC (released None None)
    (channel_exec_loop session channel command s).
Proof.
  induction s as [s IH] using script_length_ind.
  destruct s as [|rc s1]; [apply staged_blocked|].
  cbn [channel_exec_loop]. apply staged_prefix; [reflexivity|].
  destruct (negb (rc =? 0)); [|apply staged_continue].
  destruct (rc =? LIBSSH2_ERROR_EAGAIN).
  - apply staged_wait_then; try reflexivity.
    intros s' Hlt. apply IH. simpl in *. lia.
  - apply staged_returnLocalErrorC.
Qed.

Lemma read_loop_holds (session : simplessh_session) (channel : Z)
    (st : read_state) (s : script) :
  staged holds_nothing READ (released (Some OutBuffer) (Some ErrBuffer))
    (read_loop session channel st s).
Proof.
  apply staged_impl with (c := reading_call); [|apply read_loop_staged].
  intros []; cbn; congruence.
Qed.

Lemma close_and_collect_holds (session : simplessh_session) (channel : Z)
    (result : simplessh_result) (s : script) :
  match snd (close_and_collect session channel result s) with
  | Returned v _ =>
      (exists result',
          v = RIGHT result'
          /\ out result' = out result /\ err result' = err result)
      /\ exists tr0,
          fst (close_and_collect session channel result s)
          = tr0 ++ [EvChannelFree channel None]
          /\ forallb holds_nothing tr0 = true
  | Blocked => True
  | Diverged => False
  end.
Proof.
  rewrite close_and_collect_cases.
  pose proof (channel_close_loop_own_calls session channel s) as Hcalls.
  destruct (channel_close_loop_spec session channel s) as (Hnd & _ & _).
  assert (Hhold : forallb holds_nothing
                    (fst (channel_close_loop session channel s)) = true).
  { revert Hcalls. apply forallb_impl. intros []; cbn; congruence. }
  destruct (channel_close_loop session channel s) as [tr [rc rest| |]];
    cbn [fst snd] in *; [|exact I|congruence].
  destruct (rc =? 0).
  - destruct rest as [|status [|signal rest']]; try exact I.
    cbn [fst snd]. split; [eexists; repeat split|].
    exists (tr ++ [EvGetExitStatus channel status;
                   EvGetExitSignal channel signal]).
    split; [now rewrite <- app_assoc|].
    rewrite forallb_app, Hhold. reflexivity.
  - cbn [fst snd]. split; [eexists; repeat split|].
    exists tr. split; [reflexivity|exact Hhold].
Qed.


Lemma chunk_is_not_empty (data_len transferred : Z) :
  int_range data_len -> int_range transferred ->
  transferred < data_len ->
  0 < wrap_size (min (wrap_int (data_len - transferred)) (16 * 1024)).
Proof.
  unfold int_range, INT_MIN, INT_MAX, wrap_size, wrap_int, min.
  intros Hd Ht Hlt.
  destruct ((data_len - transferred + 2 ^ 31) mod 2 ^ 32 - 2 ^ 31
            <? 16 * 1024) eqn:Hmin.
  - apply Z.ltb_lt in Hmin. Z.to_euclidean_division_equations. lia.
  - Z.to_euclidean_division_equations. lia.
Qed.

Lemma next_chunk_staged {A B} (c : event -> bool) (error : simplessh_error)
    (rel : trace) (data_len transferred : Z)
    (inner : Z -> Z -> run (flow (simplessh_either A) B))
    (done : run (flow (simplessh_either A) B)) :
  int_range data_len -> int_range transferred ->
  (forall n current, staged c error rel (inner n current)) ->
  staged c error rel done ->
  staged c error rel (next_chunk data_len transferred inner done).
Proof.
  intros Hd Ht Hinner Hdone. unfold next_chunk.
  destruct (transferred <? data_len) eqn:Hlt; [|exact Hdone].
  apply Z.ltb_lt in Hlt.
  pose proof (chunk_is_not_empty data_len transferred Hd Ht Hlt) as Hn.
  apply Z.ltb_lt in Hn. cbv zeta. rewrite Hn. apply Hinner.
Qed.

Lemma write_loop_holds (channel data_len : Z) (s : script) :
  (channel =? 0) = false -> int_range data_len ->
  forall t n current,
    int_range t ->
    staged holds_nothing WRITE [EvChannelFree channel None]
      (write_loop channel data_len t n current s).
Proof.
  intros Hch Hd. induction s as [|rc s1 IH]; intros t n current Ht;
    [apply staged_blocked|].
  cbn [write_loop]. apply staged_prefix; [reflexivity|].
  destruct (rc =? LIBSSH2_ERROR_EAGAIN); [now apply IH|].
  destruct (rc <? 0).
  { unfold returning, returnLocalErrorS, bind, emit, ret, prefix.
    rewrite Hch. cbn. split; [reflexivity|]. now exists []. }
  apply staged_prefix; [reflexivity|].
  destruct (0 <? wrap_size (n - rc)).
  - apply IH. apply wrap_int_range.
  - apply next_chunk_staged; [exact Hd|apply wrap_int_range| |].
    + intros n' current'. apply IH. apply wrap_int_range.
    + apply staged_continue.
Qed.

Lemma transfer_holds (channel data_len : Z) (s : script) :
  (channel =? 0) = false -> int_range data_len ->
  staged holds_nothing WRITE [EvChannelFree channel None]
    (transfer channel data_len s).
Proof.
  intros Hch Hd. unfold transfer.
  apply next_chunk_staged; [exact Hd|unfold int_range, INT_MIN, INT_MAX; lia
                            | |apply staged_continue].
  intros n current. apply write_loop_holds; try assumption.
  unfold int_range, INT_MIN, INT_MAX; lia.
Qed.

Lemma scp_send_loop_holds (session : simplessh_session) (path : string)
    (mode data_len : Z) (s : script) :
  match snd (scp_send_loop session path mode data_len s) with
  | Returned (Continue channel) _ =>
      (channel =? 0) = false
      /\ exists tr0,
          fst (scp_send_loop session path mode data_len s)
          = tr0 ++ [EvScpSend (lsession session) path (Z.land mode 511)
                      (wrap_size data_len) channel]
          /\ forallb holds_nothing tr0 = true
  | Returned (Return v) _ =>
      v = LEFT CHANNEL_OPEN
      /\ forallb holds_nothing
           (fst (scp_send_loop session path mode data_len s)) = true
  | Blocked => True
  | Diverged => False
  end.
Proof.
  induction s as [s IH] using script_length_ind.
  destruct s as [|channel s1]; [exact I|].
  cbn [scp_send_loop]. rewrite snd_prefix, fst_prefix.
  destruct (channel =? 0) eqn:Hch.
  2:{ cbn. split; [exact Hch|]. now exists []. }
  destruct s1 as [|e s2]; [exact I|].
  rewrite snd_prefix, fst_prefix.
  assert (Hpre : forallb holds_nothing
                   [EvScpSend (lsession session) path (Z.land mode 511)
                      (wrap_size data_len) channel;
                    EvLastErrno (lsession session) e] = true).
  { cbn. now rewrite Hch. }
  destruct (e =? LIBSSH2_ERROR_EAGAIN).
  - destruct s2 as [|dir [|rc s3]]; cbn [wait_then]; try exact I.
    rewrite snd_prefix, fst_prefix.
    specialize (IH s3).
    destruct (snd (scp_send_loop session path mode data_len s3))
      as [[v|ch] rest| |]; try exact I.
    + destruct IH as [-> Htr0]; [cbn; lia|].
      split; [reflexivity|].
      rewrite !forallb_app, Htr0. cbn. rewrite Hch. reflexivity.
    + destruct IH as [Hne (tr0 & -> & Htr0)]; [cbn; lia|].
      split; [exact Hne|].
      exists ([EvScpSend (lsession session) path (Z.land mode 511)
                 (wrap_size data_len) channel;
               EvLastErrno (lsession session) e]
              ++ fst (waitsocket (sock session) (lsession session) dir rc)
              ++ tr0).
      split; [now rewrite <- !app_assoc|].
      rewrite !forallb_app, Hpre, Htr0. reflexivity.
    + apply IH. cbn; lia.
  - unfold returning, returnLocalErrorS, bind, emit, ret, prefix.
    rewrite Hch. cbn. rewrite Hch. split; reflexivity.
Qed.

Lemma retried_frees_hold_nothing (channel : Z) (k : nat) :
  forallb holds_nothing
    (map (fun rc => EvChannelFree channel (Some rc)) (would_blocks k)) = true.
Proof. induction k as [|k IH]; [reflexivity|exact IH]. Qed.

Lemma finish_upload_holds (channel transferred : Z) (s : script) :
  match snd (finish_upload channel transferred s) with
  | Returned v _ =>
      v = RIGHT transferred
      /\ exists tr0 rc,
          fst (finish_upload channel transferred s)
          = tr0 ++ [EvChannelFree channel (Some rc)]
          /\ (rc =? LIBSSH2_ERROR_EAGAIN) = false
          /\ forallb holds_nothing tr0 = true
  | Blocked => True
  | Diverged => False
  end.
Proof.
  unfold finish_upload, bind.
  pose proof (forallb_spin holds_nothing (EvSendEof channel) s
                (fun _ => eq_refl)) as Heof.
  destruct (spin_while_eagain_cases (EvSendEof channel) s)
    as [(k & rc & s1 & _ & _ & Hrun)|(k & _ & Hrun)];
    rewrite Hrun in Heof |- *; cbv iota beta; [|exact I].
  cbn [fst] in Heof.
  pose proof (forallb_spin holds_nothing (EvChannelClose channel) s1
                (fun _ => eq_refl)) as Hclose.
  destruct (spin_while_eagain_cases (EvChannelClose channel) s1)
    as [(k1 & rc1 & s2 & _ & _ & Hrun1)|(k1 & _ & Hrun1)];
    rewrite Hrun1 in Hclose |- *; cbv iota beta; [|exact I].
  cbn [fst] in Hclose.
  destruct (spin_while_eagain_cases
              (fun rc => EvChannelFree channel (Some rc)) s2)
    as [(k2 & rc2 & s3 & _ & Hrc2 & Hrun2)|(k2 & _ & Hrun2)];
    rewrite Hrun2; cbv iota beta; [|exact I].
  cbn [prefix ret fst snd]. split; [reflexivity|].
  exists (map (EvSendEof channel) (would_blocks k ++ [rc])
          ++ map (EvChannelClose channel) (would_blocks k1 ++ [rc1])
          ++ map (fun rc => EvChannelFree channel (Some rc))
               (would_blocks k2)), rc2.
  split; [|split; [exact Hrc2|]].
  - rewrite (map_app (fun rc => EvChannelFree channel (Some rc))
               (would_blocks k2)), app_nil_r, <- !app_assoc.
    reflexivity.
  - rewrite !forallb_app, Heof, Hclose, retried_frees_hold_nothing.
    reflexivity.
Qed.



(** ** Turns of the read loop that make no progress *)

Lemma store_reads_half_open (st : read_state) (rc rc2 : Z) :
  half_open (rc, rc2) = true -> store_reads st rc rc2 = ([], st).
Proof.
  unfold half_open, store_reads, store_read. cbn [fst snd].
  intros H. apply orb_true_iff in H as [H|H];
    apply andb_true_iff in H as [H1 H2];
    apply Z.eqb_eq in H1, H2; subst rc rc2; cbn; now destruct st.
Qed.

(** X11: while one stream is at its end and the other has nothing yet, the
    read loop does not wait: for every such turn it issues its two reads
    again at once, with no [select] between the turns, and its positions and
    capacities stay as they are.  However many such turns the engine answers,
    the loop is then where it was. *)
Theorem read_loop_spins_while_half_open :
  forall session channel st turns s,
    forallb half_open turns = true ->
    read_loop session channel st (answers_of turns ++ s)
    = prefix (reads_of channel st turns) (read_loop session channel st s).
Proof.
  intros session channel st turns s.
  induction turns as [|[rc rc2] turns IH]; intro H.
  { cbn. now rewrite prefix_nil. }
  cbn [forallb] in H. apply andb_true_iff in H as [Hturn Hturns].
  cbn [answers_of reads_of flat_map app fst snd read_loop].
  fold (answers_of turns). fold (reads_of channel st turns).
  rewrite (store_reads_half_open st rc rc2 Hturn).
  unfold half_open in Hturn. cbn [fst snd] in Hturn.
  assert (Hbranch :
            (rc =? 0) && (rc2 =? 0) = false
            /\ (rc =? LIBSSH2_ERROR_EAGAIN) && (rc2 =? LIBSSH2_ERROR_EAGAIN)
               = false
            /\ ((rc <? 0) && negb (rc =? LIBSSH2_ERROR_EAGAIN))
               || ((rc2 <? 0) && negb (rc2 =? LIBSSH2_ERROR_EAGAIN))
               = false).
  { apply orb_true_iff in Hturn as [H|H];
      apply andb_true_iff in H as [H1 H2];
      apply Z.eqb_eq in H1, H2; subst rc rc2; repeat split; reflexivity. }
  destruct Hbranch as (-> & -> & ->).
  cbn [fst snd]. rewrite prefix_nil, (IH Hturns), prefix_prefix.
  reflexivity.
Qed.

Lemma read_loop_spins_while_half_open_witness :
  forallb half_open [(0, LIBSSH2_ERROR_EAGAIN); (LIBSSH2_ERROR_EAGAIN, 0);
                     (0, LIBSSH2_ERROR_EAGAIN)] = true
  /\ read_loop {| sock := 3; lsession := 1000 |} 77 read_init
       (answers_of [(0, LIBSSH2_ERROR_EAGAIN); (LIBSSH2_ERROR_EAGAIN, 0);
                    (0, LIBSSH2_ERROR_EAGAIN)] ++ [])
     = prefix
         (reads_of 77 read_init
            [(0, LIBSSH2_ERROR_EAGAIN); (LIBSSH2_ERROR_EAGAIN, 0);
             (0, LIBSSH2_ERROR_EAGAIN)])
         (read_loop {| sock := 3; lsession := 1000 |} 77 read_init []).
Proof.
  split; [reflexivity|].
  apply (read_loop_spins_while_half_open {| sock := 3; lsession := 1000 |}
           77 read_init).
  reflexivity.
Defined.

(** ** The room kept in the output buffers *)

(** X12: when the read loop ends, under the hypotheses of the growth policy
    (no read returns more than asked, each stream below the limit), each
    buffer has room for what its stream delivered and for the terminating
    byte, and at most 66560 bytes more than what was delivered: the loop
    never holds more than 65 KiB of unused capacity per stream, and never
    less than the initial 128 bytes. *)
Theorem read_loop_capacity_overhead :
  forall session channel s,
    forallb read_within_buflen
      (fst (read_loop session channel read_init s)) = true ->
    received_out (fst (read_loop session channel read_init s))
    < output_limit ->
    received_err (fst (read_loop session channel read_init s))
    < output_limit ->
    match snd (read_loop session channel read_init s) with
    | Returned (Continue st') _ =>
        capacities_after (128, 128)
          (fst (read_loop session channel read_init s))
        = (out_size st', err_size st')
        /\ Z.max 128
             (received_out (fst (read_loop session channel read_init s)) + 1)
           <= out_size st'
           <= received_out (fst (read_loop session channel read_init s))
              + 66560
        /\ Z.max 128
             (received_err (fst (read_loop session channel read_init s)) + 1)
           <= err_size st'
           <= received_err (fst (read_loop session channel read_init s))
              + 66560
    | _ => True
    end.
Proof.
  intros session channel s Hc Ho He.
  assert (Hadm : admissible read_init
                   (fst (read_loop session channel read_init s))).
  { repeat split; assumption. }
  destruct (read_loop_buffers session channel s read_init read_init_inv Hadm)
    as (_ & _ & Hend).
  destruct (snd (read_loop session channel read_init s))
    as [[e|st'] rest| |]; try exact I.
  destruct (Hend st' rest eq_refl) as ([Hout Herr] & Hcaps & Hpo & Hpe).
  cbn [read_init out_position err_position] in Hpo, Hpe.
  unfold buffer_inv in Hout, Herr.
  split; [exact Hcaps|]. lia.
Qed.

Lemma read_loop_capacity_overhead_witness :
  (forallb read_within_buflen
     (fst (read_loop {| sock := 3; lsession := 1000 |} 77 read_init
             [100; LIBSSH2_ERROR_EAGAIN; 150; 7; 0; 0])) = true
   /\ received_out
        (fst (read_loop {| sock := 3; lsession := 1000 |} 77 read_init
                [100; LIBSSH2_ERROR_EAGAIN; 150; 7; 0; 0])) < output_limit
   /\ received_err
        (fst (read_loop {| sock := 3; lsession := 1000 |} 77 read_init
                [100; LIBSSH2_ERROR_EAGAIN; 150; 7; 0; 0])) < output_limit)
  /\ match snd (read_loop {| sock := 3; lsession := 1000 |} 77 read_init
                  [100; LIBSSH2_ERROR_EAGAIN; 150; 7; 0; 0]) with
     | Returned (Continue st') _ =>
         capacities_after (128, 128)
           (fst (read_loop {| sock := 3; lsession := 1000 |} 77 read_init
                   [100; LIBSSH2_ERROR_EAGAIN; 150; 7; 0; 0]))
         = (out_size st', err_size st')
         /\ Z.max 128
              (received_out
                 (fst (read_loop {| sock := 3; lsession := 1000 |} 77
                         read_init
                         [100; LIBSSH2_ERROR_EAGAIN; 150; 7; 0; 0])) + 1)
            <= out_size st'
            <= received_out
                 (fst (read_loop {| sock := 3; lsession := 1000 |} 77
                         read_init
                         [100; LIBSSH2_ERROR_EAGAIN; 150; 7; 0; 0]))
               + 66560
         /\ Z.max 128
              (received_err
                 (fst (read_loop {| sock := 3; lsession := 1000 |} 77
                         read_init
                         [100; LIBSSH2_ERROR_EAGAIN; 150; 7; 0; 0])) + 1)
            <= err_size st'
            <= received_err
                 (fst (read_loop {| sock := 3; lsession := 1000 |} 77
                         read_init
                         [100; LIBSSH2_ERROR_EAGAIN; 150; 7; 0; 0]))
               + 66560
     | _ => True
     end.
Proof.
  assert (H : forallb read_within_buflen
                (fst (read_loop {| sock := 3; lsession := 1000 |} 77 read_init
                        [100; LIBSSH2_ERROR_EAGAIN; 150; 7; 0; 0])) = true
              /\ received_out
                   (fst (read_loop {| sock := 3; lsession := 1000 |} 77
                           read_init
                           [100; LIBSSH2_ERROR_EAGAIN; 150; 7; 0; 0]))
                 < output_limit
              /\ received_err
                   (fst (read_loop {| sock := 3; lsession := 1000 |} 77
                           read_init
                           [100; LIBSSH2_ERROR_EAGAIN; 150; 7; 0; 0]))
                 < output_limit).
  { repeat split. }
  split; [exact H|].
  destruct H as (H1 & H2 & H3).
  exact (read_loop_capacity_overhead {| sock := 3; lsession := 1000 |} 77
           [100; LIBSSH2_ERROR_EAGAIN; 150; 7; 0; 0] H1 H2 H3).
Defined.

(** ** Uploads *)

Lemma transfer_of_nothing (channel data_len : Z) (s : script) :
  data_len <= 0 ->
  transfer channel data_len s = ([], Returned (Continue 0) s).
Proof.
  intro H. unfold transfer, next_chunk.
  apply Z.ltb_ge in H. now rewrite H.
Qed.



Lemma rest_of_chunk (data_len t : Z) :
  0 <= t -> t < data_len -> data_len <= INT_MAX ->
  wrap_size (min (wrap_int (data_len - t)) (16 * 1024))
  = Z.min (data_len - t) 16384.
Proof.
  intros Ht Hlt Hd. unfold INT_MAX in Hd.
  rewrite wrap_int_small by (unfold INT_MIN, INT_MAX; lia).
  rewrite min_spec. apply wrap_size_small. lia.
Qed.

(** The transfer loops from a count [t], when the engine accepts every
    chunk in full. *)
Lemma upload_in_chunks (channel data_len : Z) (r : Z) (rest : script) :
  data_len <= INT_MAX -> 0 <= r < 16384 ->
  forall k t,
    0 <= t -> t + 16384 * Z.of_nat k + r = data_len ->
    next_chunk data_len t
      (fun n current =>
         write_loop channel data_len t n current (chunk_sizes k r ++ rest))
      ([], Returned (Continue t) (chunk_sizes k r ++ rest))
    = (chunk_writes channel t (chunk_sizes k r),
       Returned (Continue data_len) rest).
Proof.
  intros Hd Hr. pose proof Hd as Hd'. unfold INT_MAX in Hd'.
  assert (Hstep : forall n t s1,
             0 <= t -> 0 < n -> t + n <= data_len ->
             write_loop channel data_len t n t (n :: s1)
             = prefix [EvWrite channel t n n;
                       EvStoreInt TransferredCell (t + n)]
                 (next_chunk data_len (t + n)
                    (fun n' current =>
                       write_loop channel data_len (t + n) n' current s1)
                    ([], Returned (Continue (t + n)) s1))).
  { intros n t s1 Ht Hn Hle. cbn [write_loop].
    replace (n =? LIBSSH2_ERROR_EAGAIN) with false
      by (symmetry; apply Z.eqb_neq; unfold LIBSSH2_ERROR_EAGAIN; lia).
    replace (n <? 0) with false by (symmetry; apply Z.ltb_ge; lia).
    cbv zeta. rewrite Z.sub_diag.
    rewrite (wrap_int_small (t + n)) by (unfold INT_MIN, INT_MAX; lia).
    change (0 <? wrap_size 0) with false. cbv iota.
    rewrite prefix_prefix. reflexivity. }
  induction k as [|k IH]; intros t Ht Hsum.
  - unfold chunk_sizes. cbn [repeat app].
    destruct (0 <? r) eqn:Hpos.
    + apply Z.ltb_lt in Hpos. unfold next_chunk.
      replace (t <? data_len) with true by (symmetry; apply Z.ltb_lt; lia).
      rewrite rest_of_chunk by lia.
      replace (Z.min (data_len - t) 16384) with r by lia.
      replace (0 <? r) with true by (symmetry; apply Z.ltb_lt; lia).
      cbn [app chunk_writes]. rewrite Hstep by lia.
      replace (t + r) with data_len by lia.
      unfold next_chunk. rewrite Z.ltb_irrefl. reflexivity.
    + apply Z.ltb_ge in Hpos. unfold next_chunk.
      replace (t <? data_len) with false by (symmetry; apply Z.ltb_ge; lia).
      assert (Heq : t = data_len) by lia. rewrite Heq. reflexivity.
  - unfold next_chunk.
    replace (t <? data_len) with true by (symmetry; apply Z.ltb_lt; lia).
    rewrite rest_of_chunk by lia.
    replace (Z.min (data_len - t) 16384) with 16384 by lia.
    change (0 <? 16384) with true. cbv iota.
    change (chunk_sizes (S k) r) with (16384 :: chunk_sizes k r).
    cbn [app]. rewrite Hstep by lia.
    rewrite (IH (t + 16384)) by lia.
    reflexivity.
Qed.

Lemma spin_while_eagain_final (mk : Z -> event) (rc : Z) (s : script) :
  (rc =? LIBSSH2_ERROR_EAGAIN) = false ->
  spin_while_eagain mk (rc :: s) = ([mk rc], Returned rc s).
Proof. intro H. cbn. now rewrite H. Qed.

(** X14: an upload to an engine that accepts every write in full.  The
    [16384 * k + r] bytes, [0 <= r < 16384], go out in [k] writes of 16384
    bytes followed, when [r > 0], by one write of [r] bytes, each at the
    offset where the one before ended and each followed by the store of the
    new count; then end-of-file, close and free are called once each and the
    function returns the length as the byte count. *)
Theorem send_file_uploads_in_chunks :
  forall session mode path channel k r eof close free rest,
    (channel =? 0) = false ->
    0 <= r < 16384 ->
    16384 * Z.of_nat k + r <= INT_MAX ->
    (eof =? LIBSSH2_ERROR_EAGAIN) = false ->
    (close =? LIBSSH2_ERROR_EAGAIN) = false ->
    (free =? LIBSSH2_ERROR_EAGAIN) = false ->
    simplessh_send_file session mode (16384 * Z.of_nat k + r) path
      (channel :: chunk_sizes k r ++ eof :: close :: free :: rest)
    = (send_mallocs
       ++ [EvScpSend (lsession session) path (Z.land mode 511)
             (16384 * Z.of_nat k + r) channel]
       ++ chunk_writes channel 0 (chunk_sizes k r)
       ++ [EvSendEof channel eof; EvChannelClose channel close;
           EvChannelFree channel (Some free)],
       Returned (RIGHT (16384 * Z.of_nat k + r)) rest).
Proof.
  intros session mode path channel k r eof close free rest
    Hch Hr Hd Heof Hclose Hfree.
  rewrite send_file_cases. cbn [scp_send_loop]. rewrite Hch.
  cbn [prefix fst snd app]. unfold transfer.
  rewrite (upload_in_chunks channel (16384 * Z.of_nat k + r) r
             (eof :: close :: free :: rest) Hd Hr k 0) by lia.
  unfold finish_upload, bind.
  rewrite (spin_while_eagain_final _ eof _ Heof). cbv iota beta.
  rewrite (spin_while_eagain_final _ close _ Hclose). cbv iota beta.
  rewrite (spin_while_eagain_final _ free _ Hfree). cbv iota beta.
  unfold ret, prefix, send_mallocs. cbn [fst snd app].
  rewrite wrap_size_small by (unfold INT_MAX in Hd; lia).
  reflexivity.
Qed.

Lemma send_file_uploads_in_chunks_witness :
  ((77 =? 0) = false
   /\ 0 <= 5 < 16384
   /\ 16384 * Z.of_nat 2 + 5 <= INT_MAX
   /\ (0 =? LIBSSH2_ERROR_EAGAIN) = false
   /\ (0 =? LIBSSH2_ERROR_EAGAIN) = false
   /\ (0 =? LIBSSH2_ERROR_EAGAIN) = false)
  /\ simplessh_send_file {| sock := 3; lsession := 1000 |} 420
       (16384 * Z.of_nat 2 + 5) "/tmp/x"
       (77 :: chunk_sizes 2 5 ++ 0 :: 0 :: 0 :: [])
     = (send_mallocs
        ++ [EvScpSend 1000 "/tmp/x" (Z.land 420 511)
              (16384 * Z.of_nat 2 + 5) 77]
        ++ chunk_writes 77 0 (chunk_sizes 2 5)
        ++ [EvSendEof 77 0; EvChannelClose 77 0;
            EvChannelFree 77 (Some 0)],
        Returned (RIGHT (16384 * Z.of_nat 2 + 5)) []).
Proof.
  assert (H1 : (77 =? 0) = false) by reflexivity.
  assert (H2 : 0 <= 5 < 16384) by lia.
  assert (H3 : 16384 * Z.of_nat 2 + 5 <= INT_MAX)
    by (unfold INT_MAX; lia).
  assert (H4 : (0 =? LIBSSH2_ERROR_EAGAIN) = false) by reflexivity.
  split; [repeat split; assumption|].
  exact (send_file_uploads_in_chunks {| sock := 3; lsession := 1000 |} 420
           "/tmp/x" 77 2 5 0 0 0 [] H1 H2 H3 H4 H4 H4).
Defined.

(** ** When the program waits *)

Lemma waits_prompted_app (t1 t2 : trace) :
  forall prev,
    waits_prompted prev (t1 ++ t2)
    = waits_prompted prev t1 && waits_prompted (last_event prev t1) t2.
Proof.
  induction t1 as [|e t1 IH]; intro prev; [reflexivity|].
  cbn [app waits_prompted]. rewrite IH, andb_assoc. reflexivity.
Qed.

Lemma waits_prompted_without_waits (tr : trace) :
  forallb (fun e => negb (is_wait e)) tr = true ->
  forall prev, waits_prompted prev tr = true.
Proof.
  induction tr as [|e tr IH]; intros H prev; [reflexivity|].
  cbn [forallb] in H. apply andb_true_iff in H as [He Htr].
  cbn [waits_prompted]. rewrite (IH Htr), andb_true_r.
  destruct e; try reflexivity; discriminate He.
Qed.

Lemma on_demand_ret {A} (a : A) (s : script) : waits_on_demand (ret a s).
Proof. intro prev. reflexivity. Qed.

Lemma on_demand_blocked {A} : waits_on_demand (([], Blocked) : run A).
Proof. intro prev. reflexivity. Qed.

Lemma on_demand_diverged {A} : waits_on_demand (([], Diverged) : run A).
Proof. intro prev. reflexivity. Qed.

Lemma on_demand_prefix {A} (tr : trace) (r : run A) :
  forallb (fun e => negb (is_wait e)) tr = true ->
  waits_on_demand r -> waits_on_demand (prefix tr r).
Proof.
  intros Htr Hr prev. rewrite fst_prefix, waits_prompted_app.
  now rewrite (waits_prompted_without_waits tr Htr), Hr.
Qed.

Lemma on_demand_bind {A B} (c : prog A) (k : A -> prog B) (s : script) :
  waits_on_demand (c s) -> (forall a s', waits_on_demand (k a s')) ->
  waits_on_demand (bind c k s).
Proof.
  intros Hc Hk prev. unfold bind. specialize (Hc prev).
  destruct (c s) as [tr [a s'| |]]; cbn [fst] in Hc; try exact Hc.
  rewrite fst_prefix, waits_prompted_app, Hc. apply Hk.
Qed.

Lemma on_demand_emit (e : event) (s : script) :
  is_wait e = false -> waits_on_demand (emit e s).
Proof.
  intros He prev. cbn. rewrite andb_true_r.
  destruct e; try reflexivity; discriminate He.
Qed.

Lemma on_demand_call (mk : Z -> event) (s : script) :
  (forall a, is_wait (mk a) = false) -> waits_on_demand (call mk s).
Proof.
  intros Hmk. destruct s as [|a s']; [apply on_demand_blocked|].
  change (waits_on_demand (prefix [mk a] ([], Returned a s'))).
  apply on_demand_prefix; [cbn; now rewrite Hmk|apply on_demand_ret].
Qed.

Lemma on_demand_spin (mk : Z -> event) (s : script) :
  (forall a, is_wait (mk a) = false) ->
  waits_on_demand (spin_while_eagain mk s).
Proof.
  intros Hmk. induction s as [|a s IH]; [apply on_demand_blocked|].
  cbn [spin_while_eagain]. apply on_demand_prefix; [cbn; now rewrite Hmk|].
  destruct (a =? LIBSSH2_ERROR_EAGAIN); [exact IH|apply on_demand_ret].
Qed.

(** A wait right after an engine call that answered would-block. *)
Lemma on_demand_wait {A} (e : event) (op : operation) (fd session : Z)
    (s : script) (k : script -> run A) :
  would_block e = Some op ->
  (forall s', (List.length s' < List.length s)%nat ->
              waits_on_demand (k s')) ->
  waits_on_demand (prefix [e] (wait_then fd session s k)).
Proof.
  intros He Hk prev.
  assert (Hne : wait_prompted prev e = true).
  { destruct e; try reflexivity; discriminate He. }
  rewrite fst_prefix. cbn [app waits_prompted]. rewrite Hne.
  destruct s as [|dir [|rc s']]; cbn [wait_then fst].
  - reflexivity.
  - cbn. now rewrite He.
  - rewrite fst_prefix. cbn [waitsocket fst app waits_prompted wait_prompted].
    rewrite He. apply Hk. cbn. lia.
Qed.

Ltac on_demand :=
  repeat first
    [ apply on_demand_blocked
    | apply on_demand_ret
    | apply on_demand_emit; reflexivity
    | apply on_demand_call; intros; reflexivity
    | apply on_demand_spin; intros; reflexivity
    | apply on_demand_bind; [|intros ? ?]
    | progress cbv beta ].

Lemma returnLocalErrorC_on_demand (o e : ptr) (error : simplessh_error)
    (s : script) :
  waits_on_demand (returnLocalErrorC o e error s).
Proof. unfold returnLocalErrorC, free_if_set. destruct o, e; on_demand. Qed.

Lemma returnLocalErrorS_on_demand (channel : Z) (error : simplessh_error)
    (s : script) :
  waits_on_demand (returnLocalErrorS channel error s).
Proof.
  unfold returnLocalErrorS. destruct (negb (channel =? 0)); on_demand.
Qed.

Lemma returning_on_demand {R A} (c : prog R) (s : script) :
  waits_on_demand (c s) -> waits_on_demand (@returning R A c s).
Proof.
  intro H. unfold returning.
  apply on_demand_bind; [exact H|intros; apply on_demand_ret].
Qed.

Lemma open_channel_loop_on_demand (session : simplessh_session) (s : script) :
  waits_on_demand (open_channel_loop session s).
Proof.
  induction s as [s IH] using script_length_ind.
  destruct s as [|channel s1]; [apply on_demand_blocked|].
  cbn [open_channel_loop]. apply on_demand_prefix; [reflexivity|].
  destruct (channel =? 0); [|apply (on_demand_ret (Continue channel))].
  destruct s1 as [|e s2]; [apply on_demand_blocked|].
  destruct (e =? LIBSSH2_ERROR_EAGAIN) eqn:E.
  - apply on_demand_wait with OpChannelOpen.
    + cbn. unfold eagain. now rewrite E.
    + intros s' Hlt. apply IH. cbn in *. lia.
  - apply on_demand_prefix; [reflexivity|].
    apply returning_on_demand, returnLocalErrorC_on_demand.
Qed.

Lemma channel_exec_loop_on_demand (session : simplessh_session) (channel : Z)
    (command : string) (s : script) :
  waits_on_demand (channel_exec_loop session channel command s).
Proof.
  induction s as [s IH] using script_length_ind.
  destruct s as [|rc s1]; [apply on_demand_blocked|].
  cbn [channel_exec_loop].
  destruct (rc =? LIBSSH2_ERROR_EAGAIN) eqn:E.
  - assert (Hn : negb (rc =? 0) = true)
      by (apply Z.eqb_eq in E; subst rc; reflexivity).
    rewrite Hn. apply on_demand_wait with OpExec.
    + cbn. unfold eagain. now rewrite E.
    + intros s' Hlt. apply IH. cbn in *. lia.
  - apply on_demand_prefix; [reflexivity|].
    destruct (negb (rc =? 0)).
    + apply returning_on_demand, returnLocalErrorC_on_demand.
    + apply (on_demand_ret (Continue tt)).
Qed.

Lemma store_reads_without_waits (st : read_state) (rc rc2 : Z) :
  forallb (fun e => negb (is_wait e)) (fst (store_reads st rc rc2)) = true.
Proof.
  apply forallb_impl with (p := is_realloc); [|apply store_reads_reallocs].
  intros []; cbn; congruence.
Qed.

Lemma read_loop_on_demand (session : simplessh_session) (channel : Z)
    (s : script) :
  forall st, waits_on_demand (read_loop session channel st s).
Proof.
  induction s as [s IH] using script_length_ind. intros st.
  destruct s as [|rc [|rc2 s2]]; [apply on_demand_blocked| |].
  - intro prev. reflexivity.
  - cbn [read_loop].
    destruct ((rc =? 0) && (rc2 =? 0));
      [apply on_demand_prefix;
       [reflexivity|apply (on_demand_ret (Continue st))]|].
    destruct ((rc =? LIBSSH2_ERROR_EAGAIN) && (rc2 =? LIBSSH2_ERROR_EAGAIN))
      eqn:E.
    { apply andb_true_iff in E as [_ E2].
      match goal with
      | |- waits_on_demand (prefix [?a; ?b] ?r) =>
          change (waits_on_demand (prefix ([a] ++ [b]) r));
          rewrite <- prefix_prefix
      end.
      apply on_demand_prefix; [reflexivity|].
      apply on_demand_wait with OpReadStderr.
      - cbn. unfold eagain. now rewrite E2.
      - intros s' Hlt. apply IH. cbn in *. lia. }
    apply on_demand_prefix; [reflexivity|].
    destruct (((rc <? 0) && negb (rc =? LIBSSH2_ERROR_EAGAIN))
              || ((rc2 <? 0) && negb (rc2 =? LIBSSH2_ERROR_EAGAIN))).
    { apply returning_on_demand, returnLocalErrorC_on_demand. }
    apply on_demand_prefix; [apply store_reads_without_waits|].
    apply IH. cbn. lia.
Qed.

Lemma channel_close_loop_on_demand (session : simplessh_session)
    (channel : Z) (s : script) :
  waits_on_demand (channel_close_loop session channel s).
Proof.
  induction s as [s IH] using script_length_ind.
  destruct s as [|rc s1]; [apply on_demand_blocked|].
  cbn [channel_close_loop].
  destruct (rc =? LIBSSH2_ERROR_EAGAIN) eqn:E.
  - apply on_demand_wait with OpClose.
    + cbn. unfold eagain. now rewrite E.
    + intros s' Hlt. apply IH. cbn in *. lia.
  - apply on_demand_prefix; [reflexivity|apply on_demand_ret].
Qed.

Lemma exec_command_on_demand (session : simplessh_session) (command : string)
    (s : script) :
  waits_on_demand (simplessh_exec_command session command s).
Proof.
  unfold simplessh_exec_command.
  apply on_demand_bind; [unfold malloc; on_demand|intros _ s1].
  apply on_demand_bind; [unfold malloc; on_demand|intros _ s2].
  apply on_demand_bind; [apply open_channel_loop_on_demand|intros opened s3].
  destruct opened as [e|channel]; [apply on_demand_ret|].
  apply on_demand_bind;
    [apply channel_exec_loop_on_demand|intros sent s4].
  destruct sent as [e|[]]; [apply on_demand_ret|].
  unfold exec_on_channel.
  apply on_demand_bind; [|intros read s5].
  - unfold read_result.
    apply on_demand_bind; [unfold malloc; on_demand|intros _ s5].
    apply on_demand_bind; [unfold malloc; on_demand|intros _ s6].
    apply on_demand_bind; [apply read_loop_on_demand|intros r s7].
    destruct r as [e|st]; [apply on_demand_ret|].
    unfold terminate_buffers. on_demand.
  - destruct read as [e|result]; [apply on_demand_ret|].
    unfold close_and_collect.
    apply on_demand_bind;
      [apply channel_close_loop_on_demand|intros rc s6].
    destruct (rc =? 0); on_demand.
Qed.

Lemma scp_send_loop_on_demand (session : simplessh_session) (path : string)
    (mode data_len : Z) (s : script) :
  waits_on_demand (scp_send_loop session path mode data_len s).
Proof.
  induction s as [s IH] using script_length_ind.
  destruct s as [|channel s1]; [apply on_demand_blocked|].
  cbn [scp_send_loop]. apply on_demand_prefix; [reflexivity|].
  destruct (channel =? 0); [|apply (on_demand_ret (Continue channel))].
  destruct s1 as [|e s2]; [apply on_demand_blocked|].
  destruct (e =? LIBSSH2_ERROR_EAGAIN) eqn:E.
  - apply on_demand_wait with OpChannelOpen.
    + cbn. unfold eagain. now rewrite E.
    + intros s' Hlt. apply IH. cbn in *. lia.
  - apply on_demand_prefix; [reflexivity|].
    apply returning_on_demand, returnLocalErrorS_on_demand.
Qed.

Lemma next_chunk_on_demand {A} (data_len transferred : Z)
    (inner : Z -> Z -> run A) (done : run A) :
  (forall n current, waits_on_demand (inner n current)) ->
  waits_on_demand done ->
  waits_on_demand (next_chunk data_len transferred inner done).
Proof.
  intros Hi Hd. unfold next_chunk.
  destruct (transferred <? data_len); [|exact Hd].
  destruct (0 <? _); [apply Hi|apply on_demand_diverged].
Qed.

Lemma write_loop_on_demand (channel data_len : Z) (s : script) :
  forall transferred n current,
    waits_on_demand (write_loop channel data_len transferred n current s).
Proof.
  induction s as [|rc s IH]; intros transferred n current;
    [apply on_demand_blocked|].
  cbn [write_loop]. apply on_demand_prefix; [reflexivity|].
  destruct (rc =? LIBSSH2_ERROR_EAGAIN); [apply IH|].
  destruct (rc <? 0).
  { apply returning_on_demand, returnLocalErrorS_on_demand. }
  cbv zeta. apply on_demand_prefix; [reflexivity|].
  destruct (0 <? _); [apply IH|].
  apply next_chunk_on_demand; [intros; apply IH|].
  apply (on_demand_ret (Continue _)).
Qed.

Lemma send_file_on_demand (session : simplessh_session) (mode data_len : Z)
    (path : string) (s : script) :
  waits_on_demand (simplessh_send_file session mode data_len path s).
Proof.
  unfold simplessh_send_file.
  apply on_demand_bind; [unfold malloc; on_demand|intros _ s1].
  apply on_demand_bind; [on_demand|intros _ s2].
  apply on_demand_bind; [unfold malloc; on_demand|intros _ s3].
  apply on_demand_bind; [apply scp_send_loop_on_demand|intros opened s4].
  destruct opened as [e|channel]; [apply on_demand_ret|].
  apply on_demand_bind; [|intros written s5].
  - apply next_chunk_on_demand; [intros; apply write_loop_on_demand|].
    apply (on_demand_ret (Continue 0)).
  - destruct written as [e|transferred]; [apply on_demand_ret|].
    unfold finish_upload. on_demand.
Qed.

Lemma authenticate_never_waits (mk : Z -> event) (session : simplessh_session)
    (s : script) :
  (forall rc, is_wait (mk rc) = false) ->
  forallb (fun e => negb (is_wait e)) (fst (authenticate mk session s))
  = true.
Proof.
  intro Hmk. unfold authenticate. rewrite bind_malloc, fst_prefix.
  cbn [app forallb is_wait negb andb].
  apply forallb_bind.
  - apply forallb_spin. intro a. now rewrite Hmk.
  - intros rc s'. destruct (negb (rc =? 0)); reflexivity.
Qed.

Lemma open_session_never_waits (getaddrinfo : string -> Z -> resolution)
    (hostname : string) (port timeout : Z) (s : script) :
  forallb (fun e => negb (is_wait e))
    (fst (simplessh_open_session getaddrinfo hostname port timeout s))
  = true.
Proof.
  rewrite open_session_cases, fst_prefix.
  destruct (get_socket_run getaddrinfo hostname port timeout s) as [Hc _].
  apply connector_call_socket_call in Hc.
  assert (Hs : forallb (fun e => negb (is_wait e))
                 (fst (get_socket getaddrinfo hostname port timeout s))
               = true).
  { revert Hc. apply forallb_impl. intros []; cbn; congruence. }
  destruct (get_socket getaddrinfo hostname port timeout s)
    as [tr [fd s1| |]]; cbn [fst] in Hs |- *;
    try (rewrite forallb_app, Hs; reflexivity).
  destruct (fd =? -1); [cbn [fst]; now rewrite forallb_app, Hs|].
  destruct s1 as [|handle s2]; [cbn [fst]; now rewrite forallb_app, Hs|].
  cbv zeta. rewrite fst_prefix.
  pose proof (forallb_spin (fun e => negb (is_wait e))
                (EvHandshake handle fd) s2 (fun _ => eq_refl)) as Hh.
  destruct (spin_while_eagain (EvHandshake handle fd) s2)
    as [tr2 [rc s3| |]]; cbn [fst] in Hh |- *;
    try (rewrite !forallb_app, Hs, Hh; reflexivity).
  destruct (negb (rc =? 0)); cbn [fst];
    rewrite !forallb_app, Hs, Hh; reflexivity.
Qed.

(** X15: the program waits only when the engine asked for it.  In every run
    of [simplessh_exec_command] and of [simplessh_send_file] the blocked
    directions are asked only right after an engine call that answered
    would-block, and [select] is called only right after the directions were
    asked: there is no wait before a first attempt and none after a call
    that succeeded or failed.  [simplessh_open_session] and the three
    authentication functions never ask for the directions and never call
    [select]. *)
Theorem waits_only_after_would_block :
  (forall session command s,
      waits_prompted None (fst (simplessh_exec_command session command s))
      = true)
  /\ (forall session mode data_len path s,
         waits_prompted None
           (fst (simplessh_send_file session mode data_len path s)) = true)
  /\ (forall getaddrinfo hostname port timeout s,
         forallb (fun e => negb (is_wait e))
           (fst (simplessh_open_session getaddrinfo hostname port timeout s))
         = true)
  /\ (forall session username password s,
         forallb (fun e => negb (is_wait e))
           (fst (simplessh_authenticate_password session username password s))
         = true)
  /\ (forall session username public_key_path private_key_path passphrase s,
         forallb (fun e => negb (is_wait e))
           (fst (simplessh_authenticate_key session username public_key_path
                   private_key_path passphrase s))
         = true)
  /\ (forall session username public_key public_key_len private_key
             private_key_len passphrase s,
         forallb (fun e => negb (is_wait e))
           (fst (simplessh_authenticate_memory session username public_key
                   public_key_len private_key private_key_len passphrase s))
         = true).
Proof.
  repeat split; intros.
  - apply exec_command_on_demand.
  - apply send_file_on_demand.
  - apply open_session_never_waits.
  - apply authenticate_never_waits. reflexivity.
  - apply authenticate_never_waits. reflexivity.
  - apply authenticate_never_waits. reflexivity.
Qed.

(** ** The request of an upload *)

(** X16: every scp request of [simplessh_send_file], the first one and the
    ones issued again after a would-block, is for the destination path on the
    session's engine handle, with the low nine bits of [mode] as permission
    bits, whatever the other bits of [mode] are, and with the length as a
    [size_t] as the announced size. *)
Theorem send_file_requests_low_mode_bits :
  forall session mode data_len path s,
    forallb
      (scp_request (lsession session) path (mode mod 2 ^ 9)
         (data_len mod 2 ^ 64))
      (fst (simplessh_send_file session mode data_len path s)) = true.
Proof.
  intros session mode data_len path s.
  assert (Hreq : forall channel,
             scp_request (lsession session) path (mode mod 2 ^ 9)
               (data_len mod 2 ^ 64)
               (EvScpSend (lsession session) path (Z.land mode 511)
                  (wrap_size data_len) channel) = true).
  { intro channel. cbn [scp_request]. unfold wrap_size.
    change 511 with (Z.ones 9). rewrite Z.land_ones by lia.
    now rewrite !Z.eqb_refl, String.eqb_refl. }
  assert (Hscp : forall s0,
             forallb
               (scp_request (lsession session) path (mode mod 2 ^ 9)
                  (data_len mod 2 ^ 64))
               (fst (scp_send_loop session path mode data_len s0)) = true).
  { intro s0. induction s0 as [s0 IH] using script_length_ind.
    destruct s0 as [|channel s1]; [reflexivity|].
    cbn [scp_send_loop]. apply forallb_prefix; [cbn [forallb]; now rewrite Hreq|].
    destruct (channel =? 0); [|reflexivity].
    destruct s1 as [|e s2]; [reflexivity|].
    apply forallb_prefix; [reflexivity|].
    destruct (e =? LIBSSH2_ERROR_EAGAIN).
    - apply forallb_wait_then; try reflexivity.
      intros s' Hlt. apply IH. cbn in *. lia.
    - unfold returning, returnLocalErrorS.
      destruct (negb (channel =? 0)); reflexivity. }
  assert (Hother : forall tr,
             forallb (fun e => negb (is_scp_send e)) tr = true ->
             forallb
               (scp_request (lsession session) path (mode mod 2 ^ 9)
                  (data_len mod 2 ^ 64)) tr = true).
  { intro tr. apply forallb_impl. intros []; cbn; congruence. }
  rewrite send_file_cases, fst_prefix, forallb_app.
  specialize (Hscp s).
  destruct (scp_send_loop session path mode data_len s)
    as [tr [[e|channel] rest| |]]; cbn [fst] in Hscp |- *;
    try (rewrite Hscp; reflexivity).
  rewrite fst_prefix, forallb_app, Hscp. cbn [send_mallocs forallb andb].
  apply Hother.
  assert (Hwrites : forall t n current s0,
             forallb (fun e => negb (is_scp_send e))
               (fst (write_loop channel data_len t n current s0)) = true).
  { intros t n current s0. revert t n current.
    induction s0 as [|rc s0 IH]; intros t n current; [reflexivity|].
    cbn [write_loop]. apply forallb_prefix; [reflexivity|].
    destruct (rc =? LIBSSH2_ERROR_EAGAIN); [apply IH|].
    destruct (rc <? 0).
    { unfold returning, returnLocalErrorS.
      destruct (negb (channel =? 0)); reflexivity. }
    apply forallb_prefix; [reflexivity|].
    destruct (0 <? _); [apply IH|].
    unfold next_chunk. destruct (_ <? data_len); [|reflexivity].
    destruct (0 <? _); [apply IH|reflexivity]. }
  assert (Htransfer :
            forallb (fun e => negb (is_scp_send e))
              (fst (transfer channel data_len rest)) = true).
  { unfold transfer, next_chunk. destruct (0 <? data_len); [|reflexivity].
    destruct (0 <? _); [apply Hwrites|reflexivity]. }
  destruct (transfer channel data_len rest)
    as [tr2 [[e|transferred] rest2| |]]; cbn [fst] in Htransfer |- *;
    try exact Htransfer.
  rewrite fst_prefix, forallb_app, Htransfer. cbn [andb].
  unfold finish_upload.
  repeat (apply forallb_bind; [apply forallb_spin; reflexivity|intros]).
  reflexivity.
Qed.

(** ** Calls issued again *)

Lemma reissued_skip (op : operation) (t1 t2 : trace) :
  forallb (fun e => negb (transfers op e)) t1 = true ->
  forall pending, reissued op pending (t1 ++ t2) = reissued op pending t2.
Proof.
  induction t1 as [|e t1 IH]; intros H pending; [reflexivity|].
  cbn [forallb] in H. apply andb_true_iff in H as [He Ht1].
  cbn [app reissued]. unfold transfers in He.
  destruct (transfer_call e) as [[[op' place] rc]|]; [|now apply IH].
  apply negb_true_iff in He. rewrite He. now apply IH.
Qed.

Lemma reissued_without (op : operation) (tr : trace) :
  forallb (fun e => negb (transfers op e)) tr = true ->
  forall pending, reissued op pending tr = true.
Proof.
  intros H pending. rewrite <- (app_nil_r tr).
  now rewrite reissued_skip.
Qed.

Lemma reissued_before (op : operation) (t1 t2 : trace) :
  forallb (fun e => negb (transfers op e)) t2 = true ->
  forall pending, reissued op pending (t1 ++ t2) = reissued op pending t1.
Proof.
  intro H. induction t1 as [|e t1 IH]; intro pending.
  - now apply reissued_without.
  - cbn [app reissued].
    destruct (transfer_call e) as [[[op' place] rc]|]; [|apply IH].
    destruct (operation_eqb op op'); [now rewrite IH|apply IH].
Qed.

Lemma same_place_refl (place : Z * Z) : same_place place place = true.
Proof. unfold same_place. now rewrite !Z.eqb_refl. Qed.

Lemma pending_at_same (pending : option (Z * Z)) (place : Z * Z) :
  pending_at pending place ->
  match pending with
  | Some p => same_place p place
  | None => true
  end = true.
Proof. intros [->| ->]; [reflexivity|apply same_place_refl]. Qed.

Lemma store_reads_keeps (st : read_state) (rc rc2 : Z) :
  (rc <= 0 -> out_place (snd (store_reads st rc rc2)) = out_place st)
  /\ (rc2 <= 0 -> err_place (snd (store_reads st rc rc2)) = err_place st).
Proof.
  unfold store_reads, store_read, out_place, err_place. cbn [fst snd].
  split; intro H.
  - replace (0 <? rc) with false by (symmetry; apply Z.ltb_ge; lia).
    reflexivity.
  - replace (0 <? rc2) with false by (symmetry; apply Z.ltb_ge; lia).
    reflexivity.
Qed.

Lemma released_transfers_nothing (op : operation) (o e : ptr)
    (error : simplessh_error) (s : script) {B} :
  forallb (fun e => negb (transfers op e))
    (fst (@returning _ B (returnLocalErrorC o e error) s)) = true.
Proof. destruct o, e; reflexivity. Qed.

Lemma read_loop_reissued (session : simplessh_session) (channel : Z)
    (s : script) :
  forall st,
    (forall pending,
        pending_at pending (out_place st) ->
        reissued OpRead pending (fst (read_loop session channel st s))
        = true)
    /\ (forall pending,
           pending_at pending (err_place st) ->
           reissued OpReadStderr pending
             (fst (read_loop session channel st s)) = true).
Proof.
  induction s as [s IH] using script_length_ind. intros st.
  destruct s as [|rc [|rc2 s2]].
  - split; reflexivity.
  - split; intros pending Hp; cbn; [|reflexivity].
    pose proof (pending_at_same _ _ Hp) as Hs. unfold out_place in Hs.
    now rewrite Hs.
  - cbn [read_loop]. rewrite fst_prefix.
    set (tail := if (rc =? 0) && (rc2 =? 0) then _ else _).
    assert (Hout : forall pending,
               (pending = None
                \/ pending = Some (out_place st)
                   /\ (rc =? LIBSSH2_ERROR_EAGAIN) = true) ->
               reissued OpRead pending (fst tail) = true).
    { intros pending Hp. subst tail.
      destruct ((rc =? 0) && (rc2 =? 0)); [reflexivity|].
      destruct ((rc =? LIBSSH2_ERROR_EAGAIN)
                && (rc2 =? LIBSSH2_ERROR_EAGAIN)).
      { destruct s2 as [|dir [|sel s3]]; cbn [wait_then fst];
          try reflexivity.
        rewrite fst_prefix. cbn [waitsocket fst app reissued transfer_call].
        apply (IH s3); [cbn; lia|].
        destruct Hp as [->|[-> _]]; [now left|now right]. }
      destruct (((rc <? 0) && negb (rc =? LIBSSH2_ERROR_EAGAIN))
                || ((rc2 <? 0) && negb (rc2 =? LIBSSH2_ERROR_EAGAIN))).
      { apply reissued_without, released_transfers_nothing. }
      rewrite fst_prefix, reissued_skip.
      2:{ apply forallb_impl with (p := is_realloc);
            [intros []; cbn; congruence|apply store_reads_reallocs]. }
      apply (IH s2); [cbn; lia|].
      destruct Hp as [->|[-> Hrc]]; [now left|right].
      apply Z.eqb_eq in Hrc.
      destruct (store_reads_keeps st rc rc2) as [Hk _].
      rewrite Hk; [reflexivity|]. unfold LIBSSH2_ERROR_EAGAIN in Hrc. lia. }
    assert (Herr : forall pending,
               (pending = None
                \/ pending = Some (err_place st)
                   /\ (rc2 =? LIBSSH2_ERROR_EAGAIN) = true) ->
               reissued OpReadStderr pending (fst tail) = true).
    { intros pending Hp. subst tail.
      destruct ((rc =? 0) && (rc2 =? 0)); [reflexivity|].
      destruct ((rc =? LIBSSH2_ERROR_EAGAIN)
                && (rc2 =? LIBSSH2_ERROR_EAGAIN)).
      { destruct s2 as [|dir [|sel s3]]; cbn [wait_then fst];
          try reflexivity.
        rewrite fst_prefix. cbn [waitsocket fst app reissued transfer_call].
        apply (IH s3); [cbn; lia|].
        destruct Hp as [->|[-> _]]; [now left|now right]. }
      destruct (((rc <? 0) && negb (rc =? LIBSSH2_ERROR_EAGAIN))
                || ((rc2 <? 0) && negb (rc2 =? LIBSSH2_ERROR_EAGAIN))).
      { apply reissued_without, released_transfers_nothing. }
      rewrite fst_prefix, reissued_skip.
      2:{ apply forallb_impl with (p := is_realloc);
            [intros []; cbn; congruence|apply store_reads_reallocs]. }
      apply (IH s2); [cbn; lia|].
      destruct Hp as [->|[-> Hrc]]; [now left|right].
      apply Z.eqb_eq in Hrc.
      destruct (store_reads_keeps st rc rc2) as [_ Hk].
      rewrite Hk; [reflexivity|]. unfold LIBSSH2_ERROR_EAGAIN in Hrc. lia. }
    split; intros pending Hp.
    + cbn [app reissued transfer_call operation_eqb].
      pose proof (pending_at_same _ _ Hp) as Hs. unfold out_place in Hs.
      rewrite Hs. cbn [andb].
      apply Hout. destruct (rc =? LIBSSH2_ERROR_EAGAIN); auto.
    + cbn [app reissued transfer_call operation_eqb].
      pose proof (pending_at_same _ _ Hp) as Hs. unfold err_place in Hs.
      rewrite Hs. cbn [andb].
      apply Herr. destruct (rc2 =? LIBSSH2_ERROR_EAGAIN); auto.
Qed.

Lemma write_loop_reissued (channel data_len : Z) (s : script) :
  forall t n current pending,
    pending_at pending (current, n) ->
    reissued OpWrite pending
      (fst (write_loop channel data_len t n current s)) = true.
Proof.
  induction s as [|rc s IH]; intros t n current pending Hp; [reflexivity|].
  cbn [write_loop]. rewrite fst_prefix.
  cbn [app reissued transfer_call operation_eqb].
  rewrite (pending_at_same _ _ Hp). cbn [andb].
  destruct (rc =? LIBSSH2_ERROR_EAGAIN); [apply IH; now right|].
  destruct (rc <? 0).
  { apply reissued_without. unfold returning, returnLocalErrorS.
    destruct (negb (channel =? 0)); reflexivity. }
  rewrite fst_prefix. cbn [app reissued transfer_call].
  destruct (0 <? _); [apply IH; now left|].
  unfold next_chunk. destruct (_ <? data_len); [|reflexivity].
  destruct (0 <? _); [apply IH; now left|reflexivity].
Qed.

Lemma setup_transfers_nothing (op : operation) (tr : trace) :
  forallb (fun e => setup_call e || is_free e) tr = true ->
  forallb (fun e => negb (transfers op e)) tr = true.
Proof. apply forallb_impl. intros []; cbn; congruence. Qed.

Lemma closing_transfers_nothing (op : operation) (tr : trace) :
  forallb closing_call tr = true ->
  forallb (fun e => negb (transfers op e)) tr = true.
Proof. apply forallb_impl. intros []; cbn; congruence. Qed.

Lemma off_transfer_writes_nothing (tr : trace) :
  forallb off_transfer tr = true ->
  forallb (fun e => negb (transfers OpWrite e)) tr = true.
Proof. apply forallb_impl. intros []; cbn; congruence. Qed.

Lemma exec_on_channel_reissued (session : simplessh_session) (channel : Z)
    (result : simplessh_result) (s : script) (op : operation) :
  op = OpRead \/ op = OpReadStderr ->
  reissued op None (fst (exec_on_channel session channel result s)) = true.
Proof.
  intro Hop. rewrite exec_on_channel_cases.
  assert (Hloop : reissued op None
                    (fst (read_loop session channel read_init s)) = true).
  { destruct (read_loop_reissued session channel s read_init) as [Ho He].
    destruct Hop as [-> | ->]; [apply Ho|apply He]; now left. }
  assert (Hpre : forall tr,
             reissued op None (buffer_mallocs ++ tr)
             = reissued op None tr).
  { intro tr. apply reissued_skip. destruct Hop as [-> | ->]; reflexivity. }
  destruct (read_loop session channel read_init s)
    as [tr [[e|st] rest| |]]; cbn [fst snd] in Hloop |- *;
    rewrite ?Hpre; try exact Hloop.
  rewrite fst_prefix, <- app_assoc, Hpre, <- app_assoc.
  rewrite reissued_before; [exact Hloop|].
  rewrite forallb_app. apply andb_true_iff. split.
  - destruct Hop as [-> | ->]; reflexivity.
  - apply closing_transfers_nothing, close_and_collect_calls.
Qed.

(** X17: a read or write that answered would-block is issued again at the
    same place.  In every run of [simplessh_exec_command] the read of a
    stream that follows one that answered would-block has the same position
    and the same length, whatever the other stream delivered in between; in
    every run of [simplessh_send_file] the write that follows one that
    answered would-block has the same offset and the same length. *)
Theorem would_block_reissued_at_same_place :
  (forall session command s,
      reissued OpRead None (fst (simplessh_exec_command session command s))
      = true
      /\ reissued OpReadStderr None
           (fst (simplessh_exec_command session command s)) = true)
  /\ (forall session mode data_len path s,
         reissued OpWrite None
           (fst (simplessh_send_file session mode data_len path s)) = true).
Proof.
  split.
  - intros session command s.
    assert (H : forall op, op = OpRead \/ op = OpReadStderr ->
                reissued op None
                  (fst (simplessh_exec_command session command s)) = true).
    { intros op Hop.
      destruct (exec_command_setup session command s)
        as [(tr & Hfst & Htr & _)|(tr & channel & s' & Htr & Heq)].
      - rewrite Hfst. apply reissued_without.
        rewrite forallb_app, (setup_transfers_nothing op tr Htr).
        destruct Hop as [-> | ->]; reflexivity.
      - rewrite Heq, fst_prefix, reissued_skip.
        + now apply exec_on_channel_reissued.
        + rewrite forallb_app. apply andb_true_iff. split.
          * destruct Hop as [-> | ->]; reflexivity.
          * apply setup_transfers_nothing. revert Htr.
            apply forallb_impl. intros e He. now rewrite He. }
    split; apply H; auto.
  - intros session mode data_len path s.
    rewrite send_file_cases, fst_prefix, reissued_skip by reflexivity.
    destruct (scp_send_loop_spec session path mode data_len s) as [Hscp _].
    apply off_transfer_writes_nothing in Hscp.
    destruct (scp_send_loop session path mode data_len s)
      as [tr [[e|channel] rest| |]]; cbn [fst] in Hscp |- *;
      try (now apply reissued_without).
    rewrite fst_prefix, reissued_skip by exact Hscp.
    assert (Ht : reissued OpWrite None
                   (fst (transfer channel data_len rest)) = true).
    { unfold transfer, next_chunk.
      destruct (0 <? data_len); [|reflexivity].
      destruct (0 <? _); [|reflexivity].
      apply write_loop_reissued. now left. }
    destruct (transfer channel data_len rest)
      as [tr2 [[e|transferred] rest2| |]]; cbn [fst] in Ht |- *;
      try exact Ht.
    rewrite fst_prefix, reissued_before; [exact Ht|].
    destruct (finish_upload_spec channel transferred rest2) as [Hfin _].
    now apply off_transfer_writes_nothing.
Qed.

(** ** Writes that accept nothing *)

Lemma write_loop_stalls (channel data_len n : Z) (k : nat) :
  0 < n < 2 ^ 64 ->
  write_loop channel data_len 0 n 0 (repeat 0 k)
  = (stalled_writes channel n k, Blocked).
Proof.
  intro Hn. induction k as [|k IH]; [reflexivity|].
  cbn [repeat write_loop].
  change (0 =? LIBSSH2_ERROR_EAGAIN) with false.
  change (0 <? 0) with false. cbv iota zeta.
  rewrite Z.sub_0_r, (wrap_size_small n) by lia.
  replace (0 <? n) with true by (symmetry; apply Z.ltb_lt; lia).
  change (wrap_int (0 + 0)) with 0. change (0 + 0) with 0.
  rewrite IH. reflexivity.
Qed.

(** X18: a write that accepts no byte makes no progress and is not waited
    for: while the engine answers 0 to the writes of a non-empty upload,
    [simplessh_send_file] issues the same write of the first chunk again and
    again, at offset 0 and with the count left at 0, with no call between two
    writes but the store of the count. *)
Theorem send_file_spins_on_empty_writes :
  forall session mode data_len path channel k,
    (channel =? 0) = false ->
    0 < data_len <= INT_MAX ->
    simplessh_send_file session mode data_len path (channel :: repeat 0 k)
    = (send_mallocs
       ++ [EvScpSend (lsession session) path (Z.land mode 511) data_len
             channel]
       ++ stalled_writes channel (Z.min data_len 16384) k,
       Blocked).
Proof.
  intros session mode data_len path channel k Hch Hd.
  rewrite send_file_cases. cbn [scp_send_loop]. rewrite Hch.
  cbn [prefix fst snd app]. unfold transfer, next_chunk.
  replace (0 <? data_len) with true by (symmetry; apply Z.ltb_lt; lia).
  rewrite Z.sub_0_r.
  pose proof Hd as Hd'. unfold INT_MAX in Hd'.
  rewrite wrap_int_small by (unfold INT_MIN, INT_MAX; lia).
  rewrite min_spec, !wrap_size_small by lia.
  replace (0 <? Z.min data_len (16 * 1024)) with true
    by (symmetry; apply Z.ltb_lt; lia).
  rewrite write_loop_stalls by lia. reflexivity.
Qed.

Lemma send_file_spins_on_empty_writes_witness :
  ((77 =? 0) = false /\ 0 < 20000 <= INT_MAX)
  /\ simplessh_send_file {| sock := 3; lsession := 1000 |} 420 20000 "/tmp/x"
       (77 :: repeat 0 3)
     = (send_mallocs
        ++ [EvScpSend 1000 "/tmp/x" (Z.land 420 511) 20000 77]
        ++ stalled_writes 77 (Z.min 20000 16384) 3,
        Blocked).
Proof.
  assert (H1 : (77 =? 0) = false) by reflexivity.
  assert (H2 : 0 < 20000 <= INT_MAX) by (unfold INT_MAX; lia).
  split; [split; assumption|].
  exact (send_file_spins_on_empty_writes {| sock := 3; lsession := 1000 |}
           420 20000 "/tmp/x" 77 3 H1 H2).
Defined.

(** ** The channel in use *)

Lemma on_open_channel_app (t1 t2 : trace) :
  forall current,
    on_open_channel current (t1 ++ t2)
    = on_open_channel current t1
      && on_open_channel (channel_after current t1) t2.
Proof.
  induction t1 as [|e t1 IH]; intro current; [reflexivity|].
  cbn [app on_open_channel channel_after fold_left].
  destruct (handed_out e) as [c|]; [apply IH|].
  destruct (channel_of e) as [c|]; [|apply IH].
  rewrite IH, andb_assoc. reflexivity.
Qed.

Lemma on_open_channel_uses (channel : Z) (tr : trace) :
  (channel =? 0) = false ->
  forallb (uses channel) tr = true ->
  on_open_channel channel tr = true.
Proof.
  intro Hch. induction tr as [|e tr IH]; [reflexivity|].
  cbn [forallb on_open_channel]. intros [He Htr]%andb_true_iff.
  unfold uses in He.
  destruct (handed_out e) as [c|]; [discriminate|].
  destruct (channel_of e) as [c|]; [|now apply IH].
  apply Z.eqb_eq in He. subst c.
  now rewrite Hch, Z.eqb_refl, IH.
Qed.

Lemma off_channel_uses (channel : Z) (tr : trace) :
  forallb off_channel tr = true -> forallb (uses channel) tr = true.
Proof.
  apply forallb_impl. intros e. unfold off_channel, uses.
  destruct (handed_out e), (channel_of e); congruence.
Qed.

(** Before a channel is handed out no call is made on a channel. *)
Lemma on_open_channel_before (current : Z) (tr : trace) :
  forallb (fun e => match channel_of e with Some _ => false | None => true end)
    tr = true ->
  on_open_channel current tr = true.
Proof.
  revert current. induction tr as [|e tr IH]; intros current; [reflexivity|].
  cbn [forallb on_open_channel]. intros [He Htr]%andb_true_iff.
  destruct (handed_out e) as [c|]; [now apply IH|].
  destruct (channel_of e) as [c|]; [discriminate|now apply IH].
Qed.

Lemma channel_after_last (current channel : Z) (tr : trace) (e : event) :
  handed_out e = Some channel ->
  channel_after current (tr ++ [e]) = channel.
Proof.
  intro He. unfold channel_after. rewrite fold_left_app. cbn. now rewrite He.
Qed.

Lemma open_channel_loop_calls_no_channel (session : simplessh_session)
    (s : script) :
  forallb (fun e => match channel_of e with Some _ => false | None => true end)
    (fst (open_channel_loop session s)) = true.
Proof.
  induction s as [s IH] using script_length_ind.
  destruct s as [|channel s1]; [reflexivity|].
  cbn [open_channel_loop]. apply forallb_prefix; [reflexivity|].
  destruct (channel =? 0); [|reflexivity].
  destruct s1 as [|e s2]; [reflexivity|].
  apply forallb_prefix; [reflexivity|].
  destruct (e =? LIBSSH2_ERROR_EAGAIN).
  - apply forallb_wait_then; try reflexivity.
    intros s' Hlt. apply IH. cbn in *. lia.
  - reflexivity.
Qed.

Lemma scp_send_loop_calls_no_channel (session : simplessh_session)
    (path : string) (mode data_len : Z) (s : script) :
  forallb (fun e => match channel_of e with Some _ => false | None => true end)
    (fst (scp_send_loop session path mode data_len s)) = true.
Proof.
  induction s as [s IH] using script_length_ind.
  destruct s as [|channel s1]; [reflexivity|].
  cbn [scp_send_loop]. apply forallb_prefix; [reflexivity|].
  destruct (channel =? 0) eqn:Hch; [|reflexivity].
  destruct s1 as [|e s2]; [reflexivity|].
  apply forallb_prefix; [reflexivity|].
  destruct (e =? LIBSSH2_ERROR_EAGAIN).
  - apply forallb_wait_then; try reflexivity.
    intros s' Hlt. apply IH. cbn in *. lia.
  - unfold returning, returnLocalErrorS. rewrite Hch. reflexivity.
Qed.

Lemma channel_exec_loop_uses (session : simplessh_session) (channel : Z)
    (command : string) (s : script) :
  forallb (uses channel)
    (fst (channel_exec_loop session channel command s)) = true.
Proof.
  induction s as [s IH] using script_length_ind.
  destruct s as [|rc s1]; [reflexivity|].
  cbn [channel_exec_loop].
  apply forallb_prefix; [cbn; now rewrite Z.eqb_refl|].
  destruct (negb (rc =? 0)); [|reflexivity].
  destruct (rc =? LIBSSH2_ERROR_EAGAIN).
  - apply forallb_wait_then; try reflexivity.
    intros s' Hlt. apply IH. cbn in *. lia.
  - reflexivity.
Qed.

Lemma read_loop_uses (session : simplessh_session) (channel : Z)
    (s : script) :
  forall st,
    forallb (uses channel) (fst (read_loop session channel st s)) = true.
Proof.
  induction s as [s IH] using script_length_ind. intros st.
  destruct s as [|rc [|rc2 s2]]; [reflexivity| |].
  - cbn. now rewrite Z.eqb_refl.
  - cbn [read_loop].
    apply forallb_prefix; [cbn; now rewrite Z.eqb_refl|].
    destruct ((rc =? 0) && (rc2 =? 0)); [reflexivity|].
    destruct ((rc =? LIBSSH2_ERROR_EAGAIN) && (rc2 =? LIBSSH2_ERROR_EAGAIN)).
    { apply forallb_wait_then; try reflexivity.
      intros s' Hlt. apply IH. cbn in *. lia. }
    destruct (((rc <? 0) && negb (rc =? LIBSSH2_ERROR_EAGAIN))
              || ((rc2 <? 0) && negb (rc2 =? LIBSSH2_ERROR_EAGAIN)));
      [reflexivity|].
    apply forallb_prefix; [|apply IH; cbn; lia].
    apply forallb_impl with (p := is_realloc);
      [intros []; cbn; congruence|apply store_reads_reallocs].
Qed.

Lemma channel_close_loop_uses (session : simplessh_session) (channel : Z)
    (s : script) :
  forallb (uses channel) (fst (channel_close_loop session channel s)) = true.
Proof.
  induction s as [s IH] using script_length_ind.
  destruct s as [|rc s1]; [reflexivity|].
  cbn [channel_close_loop].
  apply forallb_prefix; [cbn; now rewrite Z.eqb_refl|].
  destruct (rc =? LIBSSH2_ERROR_EAGAIN); [|reflexivity].
  apply forallb_wait_then; try reflexivity.
  intros s' Hlt. apply IH. cbn in *. lia.
Qed.

Lemma exec_on_channel_uses (session : simplessh_session) (channel : Z)
    (result : simplessh_result) (s : script) :
  forallb (uses channel) (fst (exec_on_channel session channel result s))
  = true.
Proof.
  unfold exec_on_channel. apply forallb_bind.
  - unfold read_result. rewrite !bind_malloc, prefix_prefix.
    apply forallb_prefix; [reflexivity|].
    apply forallb_bind; [apply read_loop_uses|].
    intros [e|st] s'; reflexivity.
  - intros [e|result'] s'; [reflexivity|].
    unfold close_and_collect.
    apply forallb_bind; [apply channel_close_loop_uses|].
    intros rc s1.
    apply forallb_bind.
    + destruct (rc =? 0); [|reflexivity].
      apply forallb_bind;
        [apply forallb_call; intro; cbn; now rewrite Z.eqb_refl|].
      intros code s2.
      apply forallb_bind;
        [apply forallb_call; intro; cbn; now rewrite Z.eqb_refl|].
      reflexivity.
    + intros result2 s2. cbn. now rewrite Z.eqb_refl.
Qed.

Lemma write_loop_uses (channel data_len : Z) (s : script) :
  forall t n current,
    forallb (uses channel) (fst (write_loop channel data_len t n current s))
    = true.
Proof.
  induction s as [|rc s IH]; intros t n current; [reflexivity|].
  cbn [write_loop].
  apply forallb_prefix; [cbn; now rewrite Z.eqb_refl|].
  destruct (rc =? LIBSSH2_ERROR_EAGAIN); [apply IH|].
  destruct (rc <? 0).
  { unfold returning, returnLocalErrorS.
    destruct (negb (channel =? 0)); cbn; [now rewrite Z.eqb_refl|reflexivity]. }
  apply forallb_prefix; [reflexivity|].
  destruct (0 <? _); [apply IH|].
  unfold next_chunk. destruct (_ <? data_len); [|reflexivity].
  destruct (0 <? _); [apply IH|reflexivity].
Qed.

Lemma finish_upload_uses (channel transferred : Z) (s : script) :
  forallb (uses channel) (fst (finish_upload channel transferred s)) = true.
Proof.
  unfold finish_upload.
  repeat (apply forallb_bind;
          [apply forallb_spin; intro; cbn; now rewrite Z.eqb_refl|intros]).
  reflexivity.
Qed.

(** X19: the engine is never called on a NULL or stale channel.  In every run
    of [simplessh_exec_command] and of [simplessh_send_file], every call made
    on a channel (exec, read, write, end-of-file, close, exit status and
    signal, free) comes after a channel was handed out, and is on the channel
    that the last open handed out, which is not NULL. *)
Theorem channel_calls_on_open_channel :
  (forall session command s,
      on_open_channel 0 (fst (simplessh_exec_command session command s))
      = true)
  /\ (forall session mode data_len path s,
         on_open_channel 0
           (fst (simplessh_send_file session mode data_len path s)) = true).
Proof.
  split.
  - intros session command s. rewrite exec_command_cases, fst_prefix.
    rewrite on_open_channel_app. cbn [exec_mallocs on_open_channel
      handed_out channel_of channel_after fold_left andb].
    pose proof (open_channel_loop_calls_no_channel session s) as Hno.
    pose proof (open_channel_loop_holds session s) as Ho.
    destruct (open_channel_loop session s) as [tr [[e|channel] rest| |]];
      cbn [fst snd] in Hno, Ho |- *;
      try (now apply on_open_channel_before).
    destruct Ho as [Hch (tr0 & -> & _)].
    rewrite fst_prefix, on_open_channel_app.
    rewrite (on_open_channel_before _ _ Hno).
    rewrite (channel_after_last 0 channel tr0
               (EvChannelOpenSession (lsession session) channel) eq_refl).
    cbn [andb].
    apply on_open_channel_uses; [exact Hch|].
    pose proof (channel_exec_loop_uses session channel command rest) as He.
    destruct (channel_exec_loop session channel command rest)
      as [tr1 [[e|[]] rest1| |]]; cbn [fst] in He |- *; try exact He.
    rewrite fst_prefix, forallb_app, He. apply exec_on_channel_uses.
  - intros session mode data_len path s.
    rewrite send_file_cases, fst_prefix.
    rewrite on_open_channel_app. cbn [send_mallocs on_open_channel
      handed_out channel_of channel_after fold_left andb].
    pose proof (scp_send_loop_calls_no_channel session path mode data_len s)
      as Hno.
    pose proof (scp_send_loop_holds session path mode data_len s) as Ho.
    destruct (scp_send_loop session path mode data_len s)
      as [tr [[e|channel] rest| |]];
      cbn [fst snd] in Hno, Ho |- *;
      try (now apply on_open_channel_before).
    destruct Ho as [Hch (tr0 & -> & _)].
    rewrite fst_prefix, on_open_channel_app.
    rewrite (on_open_channel_before _ _ Hno).
    rewrite (channel_after_last 0 channel tr0
               (EvScpSend (lsession session) path (Z.land mode 511)
                  (wrap_size data_len) channel) eq_refl).
    cbn [andb].
    apply on_open_channel_uses; [exact Hch|].
    assert (Ht : forallb (uses channel)
                   (fst (transfer channel data_len rest)) = true).
    { unfold transfer, next_chunk.
      destruct (0 <? data_len); [|reflexivity].
      destruct (0 <? _); [apply write_loop_uses|reflexivity]. }
    destruct (transfer channel data_len rest)
      as [tr1 [[e|transferred] rest1| |]]; cbn [fst] in Ht |- *;
      try exact Ht.
    rewrite fst_prefix, forallb_app, Ht. apply finish_upload_uses.
Qed.

(** ** The counter of the upload *)

Lemma accepted_nonneg (tr : trace) : 0 <= accepted tr.
Proof.
  induction tr as [|e tr IH]; [reflexivity|].
  destruct e; cbn [accepted]; lia.
Qed.

Lemma write_loop_tallied (channel data_len : Z) (s : script) :
  forall t n current,
    chunk_inv data_len t n current ->
    forallb write_within_buflen
      (fst (write_loop channel data_len t n current s)) = true ->
    tallied data_len t (write_loop channel data_len t n current s).
Proof.
  unfold tallied.
  induction s as [|rc s IH]; intros t n current Hinv Hc.
  { cbn. split; [now rewrite Z.add_0_r|exact I]. }
  destruct Hinv as (Ht & Hn & Hfit & -> & Hmax). unfold INT_MAX in Hmax.
  cbn [write_loop] in *. rewrite fst_prefix in *. rewrite snd_prefix.
  cbn [app forallb write_within_buflen accepted counter_after] in *.
  apply andb_prop in Hc. destruct Hc as [Hrc Hc]. apply Z.leb_le in Hrc.
  destruct (rc =? LIBSSH2_ERROR_EAGAIN) eqn:E.
  { apply Z.eqb_eq in E. subst rc.
    change (Z.max 0 LIBSSH2_ERROR_EAGAIN) with 0. rewrite Z.add_0_l.
    apply IH; [unfold chunk_inv, INT_MAX; lia|exact Hc]. }
  destruct (rc <? 0) eqn:Eneg.
  { destruct (returnLocalErrorS_run channel WRITE s) as (tr & -> & Htr & _).
    destruct (off_transfer_spec tr Htr) as (_ & Ha & Hcell).
    cbn [fst snd]. rewrite Ha, Hcell. apply Z.ltb_lt in Eneg.
    split; [f_equal; lia|reflexivity]. }
  apply Z.ltb_ge in Eneg.
  rewrite (wrap_size_small (n - rc)) in * by lia.
  rewrite (wrap_int_small (t + rc)) in * by (unfold INT_MIN, INT_MAX; lia).
  rewrite fst_prefix in *. rewrite snd_prefix.
  cbn [app forallb write_within_buflen accepted counter_after] in *.
  rewrite Z.max_r by lia. rewrite !Z.add_assoc.
  destruct (0 <? n - rc) eqn:Emore.
  { apply Z.ltb_lt in Emore.
    apply IH; [unfold chunk_inv, INT_MAX; lia|exact Hc]. }
  apply Z.ltb_ge in Emore. unfold next_chunk in *.
  destruct (t + rc <? data_len) eqn:Eleft.
  - apply Z.ltb_lt in Eleft.
    rewrite (wrap_int_small (data_len - (t + rc))) in *
      by (unfold INT_MIN, INT_MAX; lia).
    rewrite min_spec in *.
    rewrite (wrap_size_small (Z.min (data_len - (t + rc)) (16 * 1024))) in *
      by lia.
    replace (0 <? Z.min (data_len - (t + rc)) (16 * 1024)) with true in *
      by (symmetry; apply Z.ltb_lt; lia).
    apply IH; [unfold chunk_inv, INT_MAX; lia|exact Hc].
  - apply Z.ltb_ge in Eleft. cbn [fst snd accepted counter_after].
    split; [f_equal; lia|lia].
Qed.

Lemma transfer_tallied (channel data_len : Z) (s : script) :
  0 <= data_len <= INT_MAX ->
  forallb write_within_buflen (fst (transfer channel data_len s)) = true ->
  tallied data_len 0 (transfer channel data_len s).
Proof.
  unfold INT_MAX. intros Hlen. unfold transfer, next_chunk.
  destruct (0 <? data_len) eqn:E.
  - apply Z.ltb_lt in E.
    rewrite (wrap_int_small (data_len - 0)) by (unfold INT_MIN, INT_MAX; lia).
    rewrite min_spec.
    rewrite (wrap_size_small (Z.min (data_len - 0) (16 * 1024))) by lia.
    replace (0 <? Z.min (data_len - 0) (16 * 1024)) with true
      by (symmetry; apply Z.ltb_lt; lia).
    apply write_loop_tallied. unfold chunk_inv, INT_MAX. lia.
  - apply Z.ltb_ge in E. intros _. unfold tallied. cbn. split; [reflexivity|lia].
Qed.


Lemma counted_bounds (data_len : Z) (tr1 tr2 : trace) :
  forall t due v,
    counted data_len t due (tr1 ++ tr2) = true ->
    (forall c, v = Some c -> c <= data_len) ->
    forall c, counter_after v tr1 = Some c -> c <= data_len.
Proof.
  induction tr1 as [|e tr1 IH]; intros t due v Hc Hv c; [apply Hv|].
  destruct e as [| | | |b x| | | | | | | | | | | | | | | | | | | | | | | | | |
                 | | | | | | | | |];
    cbn [app counted counter_after] in Hc |- *;
    try (apply (IH t due v); assumption).
  - destruct b; try (apply (IH t due v); assumption).
    apply andb_prop in Hc. destruct Hc as [Hc Hrest].
    apply andb_prop in Hc. destruct Hc as [_ Hle]. apply Z.leb_le in Hle.
    apply (IH x None (Some x)); [exact Hrest|].
    intros c0 H0. inversion H0. lia.
  - destruct due; [discriminate|].
    apply andb_prop in Hc. destruct Hc as [_ Hrest].
    eapply IH; eassumption.
Qed.

(** C10: for a length that fits in an [int] and is not negative, and writes
    that keep the engine contract (no more bytes accepted than offered), on
    every run of send_file, complete or cut short at any call: every write
    is issued at the offset the counter holds, for at least one and at most
    [min (data_len - transferred) 16384] bytes, and every store to the
    counter adds exactly the bytes the write before it accepted; after every
    part of the run the counter does not exceed [data_len]; at the end of
    the run the counter cell holds the sum of the bytes the engine accepted;
    the function does not loop without a call, it returns CHANNEL_OPEN,
    WRITE or a byte count, and the byte count of a success return is
    [data_len], which is then also the sum of the bytes accepted. *)
Theorem send_file_counter_never_exceeds_length :
  forall session mode data_len path s,
    0 <= data_len <= INT_MAX ->
    forallb write_within_buflen
      (fst (simplessh_send_file session mode data_len path s)) = true ->
    counted data_len 0 None
      (fst (simplessh_send_file session mode data_len path s)) = true
    /\ (forall tr1 tr2 c,
           fst (simplessh_send_file session mode data_len path s)
           = tr1 ++ tr2 ->
           counter_after None tr1 = Some c ->
           c <= data_len)
    /\ counter_after None
         (fst (simplessh_send_file session mode data_len path s))
       = Some (accepted
                 (fst (simplessh_send_file session mode data_len path s)))
    /\ match snd (simplessh_send_file session mode data_len path s) with
       | Returned (RIGHT v) _ =>
           v = data_len
           /\ accepted
                (fst (simplessh_send_file session mode data_len path s))
              = data_len
       | Returned (LEFT e) _ => e = CHANNEL_OPEN \/ e = WRITE
       | Blocked => True
       | Diverged => False
       end.
Proof.
  intros session mode data_len path s Hlen Hcontract.
  assert (Hmain :
            counted data_len 0 None
              (fst (simplessh_send_file session mode data_len path s)) = true
            /\ counter_after None
                 (fst (simplessh_send_file session mode data_len path s))
               = Some (accepted
                         (fst (simplessh_send_file session mode data_len
                                 path s)))
            /\ match snd (simplessh_send_file session mode data_len path s)
               with
               | Returned (RIGHT v) _ =>
                   v = data_len
                   /\ accepted
                        (fst (simplessh_send_file session mode data_len
                                path s))
                      = data_len
               | Returned (LEFT e) _ => e = CHANNEL_OPEN \/ e = WRITE
               | Blocked => True
               | Diverged => False
               end).
  2:{ destruct Hmain as (Hcnt & Hcell & Hret).
      split; [exact Hcnt|split; [|split; [exact Hcell|exact Hret]]].
      intros tr1 tr2 c Htr. rewrite Htr in Hcnt.
      apply (counted_bounds data_len tr1 tr2 0 None None Hcnt).
      discriminate. }
  revert Hcontract. rewrite send_file_cases.
  destruct (scp_send_loop_spec session path mode data_len s) as [Hscp _].
  pose proof (scp_send_loop_holds session path mode data_len s) as Hopen.
  destruct (off_transfer_spec _ Hscp) as (_ & Has & Hcs).
  assert (Hhead : forall X,
             counted data_len 0 None (send_mallocs ++ X)
             = counted data_len 0 None X).
  { intros X. cbn [send_mallocs app counted]. rewrite Z.eqb_refl.
    replace (0 <=? data_len) with true
      by (symmetry; apply Z.leb_le; lia).
    reflexivity. }
  assert (Hacc : forall X, accepted (send_mallocs ++ X) = accepted X)
    by reflexivity.
  assert (Hcell : forall X,
             counter_after None (send_mallocs ++ X)
             = counter_after (Some 0) X) by reflexivity.
  destruct (scp_send_loop session path mode data_len s)
    as [tr [[e|channel] rest| |]]; cbn [fst snd] in *;
    rewrite fst_prefix, snd_prefix, Hhead, Hacc, Hcell; cbn [fst snd];
    try (intros _; rewrite Has, Hcs;
         split; [now apply counted_off_transfer|split; [reflexivity|]]).
  - destruct Hopen as [Hopen _]. inversion Hopen. now left.
  - rewrite fst_prefix, snd_prefix, !forallb_app.
    intros Hc.
    apply andb_prop in Hc. destruct Hc as [_ Hc].
    apply andb_prop in Hc. destruct Hc as [_ Hc].
    rewrite counted_after by exact Hscp.
    rewrite accepted_app, Has, Z.add_0_l, counter_after_app, Hcs.
    pose proof (transfer_counted channel data_len rest Hlen) as Htr.
    pose proof (transfer_tallied channel data_len rest Hlen) as Htal.
    unfold tallied in Htal.
    destruct (transfer channel data_len rest)
      as [tr2 [[e|transferred] rest2| |]]; cbn [fst snd] in *.
    + destruct (Htr Hc) as [Hcnt _]. destruct (Htal Hc) as [Hcl He].
      split; [|split; [exact Hcl|subst e; now right]].
      rewrite <- (app_nil_r tr2). now apply Hcnt.
    + rewrite fst_prefix, forallb_app in Hc.
      apply andb_prop in Hc. destruct Hc as [Hc _].
      destruct (Htr Hc) as [Hcnt _]. destruct (Htal Hc) as [Hcl [Hv Hd]].
      destruct (finish_upload_spec channel transferred rest2)
        as [Hfin Hright].
      destruct (off_transfer_spec _ Hfin) as (_ & Haf & Hcf).
      pose proof (finish_upload_holds channel transferred rest2) as Hends.
      rewrite fst_prefix, snd_prefix, accepted_app, Haf, Z.add_0_r.
      rewrite counter_after_app, Hcf.
      split; [now apply Hcnt|split; [exact Hcl|]].
      destruct (snd (finish_upload channel transferred rest2))
        as [v rest3| |]; [|exact I|exact Hends].
      destruct Hends as [-> _]. split; lia.
    + destruct (Htr Hc) as [Hcnt _]. destruct (Htal Hc) as [Hcl _].
      split; [|split; [exact Hcl|exact I]].
      rewrite <- (app_nil_r tr2). now apply Hcnt.
    + destruct (Htal Hc) as [_ []].
  - exact I.
  - exact Hopen.
Qed.

(** An upload of 5 bytes in writes of 3 and 2, after one would-block: the
    run, its return of 5, and the counter and the bytes accepted, both 5. *)
Lemma send_file_counter_never_exceeds_length_witness :
  (0 <= 5 <= INT_MAX
   /\ forallb write_within_buflen
        (fst (simplessh_send_file {| sock := 3; lsession := 1000 |} 420 5
                "/tmp/x" [77; LIBSSH2_ERROR_EAGAIN; 3; 2; 0; 0; 0]))
      = true)
  /\ simplessh_send_file {| sock := 3; lsession := 1000 |} 420 5 "/tmp/x"
       [77; LIBSSH2_ERROR_EAGAIN; 3; 2; 0; 0; 0]
     = ([EvMalloc TransferredCell None; EvStoreInt TransferredCell 0;
         EvMalloc EitherBlock None; EvScpSend 1000 "/tmp/x" 420 5 77;
         EvWrite 77 0 5 LIBSSH2_ERROR_EAGAIN;
         EvWrite 77 0 5 3; EvStoreInt TransferredCell 3;
         EvWrite 77 3 2 2; EvStoreInt TransferredCell 5;
         EvSendEof 77 0; EvChannelClose 77 0; EvChannelFree 77 (Some 0)],
        Returned (RIGHT 5) [])
  /\ counted 5 0 None
       (fst (simplessh_send_file {| sock := 3; lsession := 1000 |} 420 5
               "/tmp/x" [77; LIBSSH2_ERROR_EAGAIN; 3; 2; 0; 0; 0])) = true
  /\ counter_after None
       (fst (simplessh_send_file {| sock := 3; lsession := 1000 |} 420 5
               "/tmp/x" [77; LIBSSH2_ERROR_EAGAIN; 3; 2; 0; 0; 0]))
     = Some 5
  /\ accepted
       (fst (simplessh_send_file {| sock := 3; lsession := 1000 |} 420 5
               "/tmp/x" [77; LIBSSH2_ERROR_EAGAIN; 3; 2; 0; 0; 0]))
     = 5.
Proof.
  assert (Hlen : 0 <= 5 <= INT_MAX) by (unfold INT_MAX; lia).
  assert (Hc : forallb write_within_buflen
                 (fst (simplessh_send_file {| sock := 3; lsession := 1000 |}
                         420 5 "/tmp/x"
                         [77; LIBSSH2_ERROR_EAGAIN; 3; 2; 0; 0; 0]))
               = true) by reflexivity.
  destruct (send_file_counter_never_exceeds_length
              {| sock := 3; lsession := 1000 |} 420 5 "/tmp/x"
              [77; LIBSSH2_ERROR_EAGAIN; 3; 2; 0; 0; 0] Hlen Hc)
    as (Hcnt & _ & Hcell & Hret).
  change (5 = 5
          /\ accepted
               (fst (simplessh_send_file {| sock := 3; lsession := 1000 |}
                       420 5 "/tmp/x"
                       [77; LIBSSH2_ERROR_EAGAIN; 3; 2; 0; 0; 0])) = 5)
    in Hret.
  destruct Hret as [_ Hacc].
  split; [split; [exact Hlen|exact Hc]|].
  split; [reflexivity|]. split; [exact Hcnt|].
  split; [|exact Hacc].
  rewrite Hcell, Hacc. reflexivity.
Defined.
